(** * A shallow embedding of the Huffman file compressor (dsa-cep/main.py)

    The development follows the layout of [main.py]: the tree node, the
    frequency table, the heap-driven tree builder, the code table, the
    tree codec, the bit packer, and the two entry points [compress_file]
    and [decompress_file], which act on a file store.  The definitions
    come first, then the vocabulary of the specification, then the
    proofs, component by component.

    Conventions.
    - A Python [bytes] value is a [list byte]; an [int] read out of it is
      [byte_val b].
    - A Python [str] holding a bit-string ("0101...") is a [list ascii];
      path names and notes are [string]s.
    - A Python [dict] is an association list kept in insertion order
      (the order in which [Counter] and [dict] iterate).
    - An exception is a value of [exn]; a function that may raise returns
      a [result].  A function that writes files takes the file store and
      returns the new one, also when it raises.
    - [heapq] is modelled after CPython's [Lib/heapq.py], on a list.
    - Loops that are not structural carry a budget; each budget is shown
      to suffice.  The recursion limit of the interpreter is not
      modelled.
    - The [time.perf_counter] readings stored in the statistics are left
      out: they do not depend on the data. *)

From Stdlib Require Import Ascii String Strings.Byte.
From Stdlib Require Import ZArith NArith QArith Lia Bool Arith.
From Stdlib Require Import List Permutation.
Import ListNotations.
From Stdlib Require Import DecimalString.

Set Implicit Arguments.

Local Open Scope nat_scope.
Local Open Scope list_scope.

(* ================================================================= *)
(** ** Bytes, exceptions, results *)

Abbreviation byte := Byte.byte.
Definition bytes := list byte.

(** The integer a byte stands for, as Python sees [blob[i]]. *)
Definition byte_val (b : byte) : Z := Z.of_N (Byte.to_N b).

Definition bytes_eqb (a b : bytes) : bool :=
  if list_eq_dec Byte.byte_eq_dec a b then true else false.

(** [MAGIC = b'HUFF'] *)
Definition MAGIC : bytes := [x48; x55; x46; x46].

(** The messages of the [ValueError]s raised by [main.py]. *)
Inductive value_error : Type :=
| TooSmall              (* "Not a valid .huff (too small)" *)
| MagicMismatch         (* "Not a .huff file (magic mismatch)" *)
| TreeLenUnrealistic    (* "Header tree length unrealistic" *)
| PaddingTooBig         (* "Padding bigger than stream" *)
| CorruptBitstream      (* "Corrupt bitstream (walked to None)" *)
| TreeRanOut            (* "Bad tree data: ran out" *)
| LeafMissingByte       (* "Bad tree: leaf missing byte" *)
| BadTreeFlag (flag : byte) (pos : nat)  (* "Bad tree flag {flag} at {i-1}" *)
| ExtraBytes            (* "Extra bytes after tree data" *)
| InvalidLiteral        (* int(s, 2) on a string that is not binary digits *)
| ByteOutOfRange.       (* "byte must be in range(0, 256)" *)

Inductive exn : Type :=
| ValueError (e : value_error)
| AttributeError            (* [None.sym] *)
| KeyError (k : byte)       (* [codes[b]] on a missing key *)
| IndexError                (* pop from an empty list, index out of range *)
| FileNotFoundError (p : string)
| SameFileError             (* [shutil.copy(p, p)] *)
| StructError               (* [struct.pack(">I", n)] out of range *)
| FuelExhausted.            (* not a Python exception: the recursion budget
                               of a modelled loop ran out; shown unreachable *)

Inductive result (A : Type) : Type :=
| Ok (a : A)
| Raise (e : exn).
Arguments Ok {A} a.
Arguments Raise {A} e.

Definition bind {A B} (r : result A) (k : A -> result B) : result B :=
  match r with
  | Ok a => k a
  | Raise e => Raise e
  end.

Notation "x <- e ;; k" := (bind e (fun x => k))
  (at level 61, e at next level, right associativity).
Notation "' p <- e ;; k" := (bind e (fun x => let p := x in k))
  (at level 61, p pattern, e at next level, right associativity).

Definition is_ok {A} (r : result A) : bool :=
  match r with Ok _ => true | Raise _ => false end.

(* ================================================================= *)
(** ** Dictionaries in insertion order *)

Section Dict.
Variable V : Type.

Definition dict := list (byte * V).

Fixpoint dict_get (d : dict) (k : byte) : option V :=
  match d with
  | [] => None
  | (k', v) :: d' => if Byte.eqb k' k then Some v else dict_get d' k
  end.

(** [d[k] = v]: an existing key keeps its place, a new key goes last. *)
Fixpoint dict_set (d : dict) (k : byte) (v : V) : dict :=
  match d with
  | [] => [(k, v)]
  | (k', v') :: d' =>
      if Byte.eqb k' k then (k', v) :: d' else (k', v') :: dict_set d' k v
  end.

Definition dict_keys (d : dict) : list byte := map fst d.
End Dict.

(* ================================================================= *)
(** ** The tree node *)

(** [class Node]: [sym] is [None] for internal nodes; [left] and [right]
    start as [None]. *)
Unset Elimination Schemes.
Inductive Node : Type :=
| mkNode (sym : option byte) (freq : Z) (left right : option Node).
Set Elimination Schemes.

Definition sym (n : Node) : option byte := let (s, _, _, _) := n in s.
Definition freq (n : Node) : Z := let (_, f, _, _) := n in f.
Definition left (n : Node) : option Node := let (_, _, l, _) := n in l.
Definition right (n : Node) : option Node := let (_, _, _, r) := n in r.

(** [Node(sym, freq)] *)
Definition new_Node (s : option byte) (f : Z) : Node := mkNode s f None None.

(** [Node.__lt__]: compare by [freq]. *)
Definition Node_lt (a b : Node) : bool := (freq a <? freq b)%Z.

(* ================================================================= *)
(** ** 1) Frequency count *)

(** One step of [Counter(data)]: count one more occurrence of [b]. *)
Definition count_step (d : dict Z) (b : byte) : dict Z :=
  dict_set d b (match dict_get d b with Some c => c | None => 0 end + 1)%Z.

(** [dict(Counter(data))]: one entry per distinct byte, in order of first
    occurrence. *)
Definition build_freq_map (data : bytes) : dict Z :=
  fold_left count_step data [].

(* ================================================================= *)
(** ** heapq, as in CPython's Lib/heapq.py, on a list of nodes *)

Module heapq.

(** [heap[i] = x] for an index in range. *)
Fixpoint set_item (heap : list Node) (i : nat) (x : Node) : list Node :=
  match heap, i with
  | [], _ => []
  | _ :: t, O => x :: t
  | a :: t, S i' => a :: set_item t i' x
  end.

(** The [while pos > startpos] loop of [_siftdown]; the slot [pos] is
    the hole waiting for [newitem].  [pos] strictly decreases, so
    [fuel = pos] is enough. *)
Fixpoint siftdown_loop (fuel : nat) (heap : list Node)
    (startpos pos : nat) (newitem : Node) : list Node :=
  if startpos <? pos then
    match fuel with
    | O => set_item heap pos newitem
    | S fuel' =>
        let parentpos := Nat.div2 (pos - 1) in
        let parent := nth parentpos heap newitem in
        if Node_lt newitem parent
        then siftdown_loop fuel' (set_item heap pos parent)
               startpos parentpos newitem
        else set_item heap pos newitem
    end
  else set_item heap pos newitem.

(** [_siftdown(heap, startpos, pos)]; [heappush] and [_siftup] only pass
    a [pos] inside the heap. *)
Definition siftdown (heap : list Node) (startpos pos : nat) : list Node :=
  match nth_error heap pos with
  | Some newitem => siftdown_loop pos heap startpos pos newitem
  | None => heap
  end.

(** The [while childpos < endpos] loop of [_siftup]: bubble the smaller
    child up until a leaf position is reached; returns the heap and the
    final hole. *)
Fixpoint siftup_loop (fuel : nat) (heap : list Node)
    (endpos pos : nat) (newitem : Node) : list Node * nat :=
  let childpos := 2 * pos + 1 in
  if childpos <? endpos then
    match fuel with
    | O => (heap, pos)
    | S fuel' =>
        let rightpos := childpos + 1 in
        let childpos :=
          if (rightpos <? endpos)
             && negb (Node_lt (nth childpos heap newitem)
                              (nth rightpos heap newitem))
          then rightpos else childpos in
        siftup_loop fuel' (set_item heap pos (nth childpos heap newitem))
          endpos childpos newitem
    end
  else (heap, pos).

(** [_siftup(heap, pos)]: run the loop, drop [newitem] in the final
    hole, then sift it towards [startpos]. *)
Definition siftup (heap : list Node) (pos : nat) : list Node :=
  match nth_error heap pos with
  | Some newitem =>
      let endpos := length heap in
      let startpos := pos in
      let (heap1, pos1) := siftup_loop endpos heap endpos pos newitem in
      siftdown (set_item heap1 pos1 newitem) startpos pos1
  | None => heap
  end.

(** [heappush(heap, item)]: append, then sift the new last slot. *)
Definition heappush (heap : list Node) (item : Node) : list Node :=
  let heap := heap ++ [item] in
  siftdown heap 0 (length heap - 1).

(** [heappop(heap)]: returns the item at the root and the remaining
    heap; [IndexError] on an empty heap. *)
Definition heappop (heap : list Node) : result (Node * list Node) :=
  match rev heap with
  | [] => Raise IndexError
  | lastelt :: rest_rev =>
      let heap := rev rest_rev in
      match heap with
      | [] => Ok (lastelt, [])
      | returnitem :: _ =>
          Ok (returnitem, siftup (set_item heap 0 lastelt) 0)
      end
  end.

End heapq.

(* ================================================================= *)
(** ** 2) Heap and Huffman tree *)

Definition heap_from_freq (freq_map : dict Z) : list Node :=
  fold_left
    (fun h '(s, fr) => heapq.heappush h (new_Node (Some s) fr))
    freq_map [].

(** The [while len(h) > 1] loop of [build_tree]; every round shortens the
    heap by one, so [fuel = len(h)] is enough. *)
Fixpoint build_tree_loop (fuel : nat) (h : list Node) : result Node :=
  if 1 <? length h then
    match fuel with
    | O => Raise FuelExhausted
    | S fuel' =>
        '(a, h1) <- heapq.heappop h ;;
        '(b, h2) <- heapq.heappop h1 ;;
        let p := mkNode None (freq a + freq b)%Z (Some a) (Some b) in
        build_tree_loop fuel' (heapq.heappush h2 p)
    end
  else
    '(r, _) <- heapq.heappop h ;; Ok r.

Definition build_tree (h : list Node) : result (option Node) :=
  match h with
  | [] => Ok None
  | [_] =>
      '(single, _) <- heapq.heappop h ;;
      Ok (Some (mkNode None (freq single) (Some single) None))
  | _ =>
      r <- build_tree_loop (length h) h ;; Ok (Some r)
  end.

(* ================================================================= *)
(** ** 3) Walk tree -> code map *)

Definition bitstring := list ascii.

Definition ch0 : ascii := "0"%char.
Definition ch1 : ascii := "1"%char.

(** The inner [walk(node, prefix)] of [make_codes]; [codes] is the
    dictionary the closure updates. *)
Fixpoint walk (node : Node) (prefix : bitstring) (codes : dict bitstring)
  : dict bitstring :=
  match node with
  | mkNode (Some s) _ _ _ =>
      dict_set codes s (match prefix with [] => [ch0] | _ => prefix end)
  | mkNode None _ l r =>
      let codes :=
        match l with
        | Some l' => walk l' (prefix ++ [ch0]) codes
        | None => codes
        end in
      match r with
      | Some r' => walk r' (prefix ++ [ch1]) codes
      | None => codes
      end
  end.

Definition make_codes (root : option Node) : dict bitstring :=
  match root with
  | None => []
  | Some r => walk r [] []
  end.

(* ================================================================= *)
(** ** 4) Tree serialization (preorder): 0x00 = internal, 0x01 + byte = leaf *)

(** The inner [dfs(node)] of [serialize], appending to [out].  The
    argument is what Python passes: [node.left] may be [None], and then
    [node.sym] raises [AttributeError]. *)
Fixpoint serialize_dfs (node : Node) (out : bytes) : result bytes :=
  match node with
  | mkNode (Some s) _ _ _ => Ok (out ++ [x01; s])
  | mkNode None _ l r =>
      let out := out ++ [x00] in
      out <- match l with
             | Some l' => serialize_dfs l' out
             | None => Raise AttributeError
             end ;;
      match r with
      | Some r' => serialize_dfs r' out
      | None => Raise AttributeError
      end
  end.

Definition serialize (root : option Node) : result bytes :=
  match root with
  | None => Ok []
  | Some r => serialize_dfs r []
  end.

(** The inner [dfs(i)] of [deserialize].  Every call that does not raise
    at once consumes a byte, so the nesting depth is at most
    [len(blob) + 1]; [fuel] is that budget. *)
Fixpoint deserialize_dfs (fuel : nat) (blob : bytes) (i : nat)
  : result (Node * nat) :=
  match fuel with
  | O => Raise FuelExhausted
  | S fuel' =>
      match nth_error blob i with
      | None => Raise (ValueError TreeRanOut)
      | Some flag =>
          let i := i + 1 in
          if Byte.eqb flag x01 then
            match nth_error blob i with
            | None => Raise (ValueError LeafMissingByte)
            | Some s => Ok (new_Node (Some s) 0, i + 1)
            end
          else if Byte.eqb flag x00 then
            '(left_node, i) <- deserialize_dfs fuel' blob i ;;
            '(right_node, i) <- deserialize_dfs fuel' blob i ;;
            Ok (mkNode None 0 (Some left_node) (Some right_node), i)
          else Raise (ValueError (BadTreeFlag flag (i - 1)))
      end
  end.

Definition deserialize (blob : bytes) : result (option Node) :=
  match blob with
  | [] => Ok None
  | _ =>
      let n := length blob in
      '(root, next_i) <- deserialize_dfs (S n) blob 0 ;;
      if negb (next_i =? n) then Raise (ValueError ExtraBytes)
      else Ok (Some root)
  end.

(* ================================================================= *)
(** ** 5) Encode bytes using codes -> big bitstring *)

(** [pieces.append(codes[b])] for every byte, then ["".join(pieces)]. *)
Fixpoint encode_pieces (data : bytes) (codes : dict bitstring)
  : result (list bitstring) :=
  match data with
  | [] => Ok []
  | b :: data' =>
      match dict_get codes b with
      | None => Raise (KeyError b)
      | Some c => ps <- encode_pieces data' codes ;; Ok (c :: ps)
      end
  end.

Definition encode_bytes (data : bytes) (codes : dict bitstring)
  : result bitstring :=
  ps <- encode_pieces data codes ;; Ok (concat ps).

(** Returns the padded string and the pad count (0..7). *)
Definition pad_bits (bits : bitstring) : bitstring * nat :=
  if length bits =? 0 then ([], 0)
  else
    let extra := (8 - (length bits mod 8)) mod 8 in
    (bits ++ repeat ch0 extra, extra).

(** [int(s, 2)] on a string of binary digits.  The other literal forms
    that [int] accepts (sign, blanks, underscores, a "0b" prefix) never
    reach it here, codes and padding being made of '0' and '1' only; the
    model answers [InvalidLiteral] for them as for any other string. *)
Fixpoint int_base2_digits (s : bitstring) (acc : Z) : result Z :=
  match s with
  | [] => Ok acc
  | c :: s' =>
      if Ascii.eqb c ch0 then int_base2_digits s' (2 * acc)%Z
      else if Ascii.eqb c ch1 then int_base2_digits s' (2 * acc + 1)%Z
      else Raise (ValueError InvalidLiteral)
  end.

Definition int_base2 (s : bitstring) : result Z :=
  match s with
  | [] => Raise (ValueError InvalidLiteral)
  | _ => int_base2_digits s 0%Z
  end.

(** The value [arr.append(v)] stores; [ValueError] outside [range(256)]. *)
Definition bytearray_item (v : Z) : result byte :=
  if (v <? 0)%Z then Raise (ValueError ByteOutOfRange)
  else
    match Byte.of_N (Z.to_N v) with
    | Some b => Ok b
    | None => Raise (ValueError ByteOutOfRange)
    end.

(** [range(0, n, 8)] *)
Definition range8 (n : nat) : list nat :=
  map (fun k => 8 * k) (seq 0 ((n + 7) / 8)).

Fixpoint bits_to_bytes_from (bits : bitstring) (starts : list nat)
  : result bytes :=
  match starts with
  | [] => Ok []
  | i :: starts' =>
      let chunk := firstn 8 (skipn i bits) in
      v <- int_base2 chunk ;;
      b <- bytearray_item v ;;
      arr <- bits_to_bytes_from bits starts' ;;
      Ok (b :: arr)
  end.

Definition bits_to_bytes (bits : bitstring) : result bytes :=
  bits_to_bytes_from bits (range8 (length bits)).

(** [f"{x:08b}"]: eight binary digits, most significant first. *)
Definition format_08b (x : byte) : bitstring :=
  map (fun i => if Z.testbit (byte_val x) (Z.of_nat i) then ch1 else ch0)
      [7; 6; 5; 4; 3; 2; 1; 0].

Definition bytes_to_bits (bts : bytes) : bitstring :=
  concat (map format_08b bts).

(* ================================================================= *)
(** ** struct.pack / struct.unpack *)

Definition byte_of_N_low (n : N) : byte :=
  match Byte.of_N (n mod 256) with
  | Some b => b
  | None => x00
  end.

(** [struct.pack(">I", n)] *)
Definition pack_u32_be (n : Z) : result bytes :=
  if ((0 <=? n) && (n <? 4294967296))%Z then
    let m := Z.to_N n in
    Ok [byte_of_N_low (m / 16777216); byte_of_N_low (m / 65536);
        byte_of_N_low (m / 256); byte_of_N_low m]
  else Raise StructError.

(** [struct.unpack(">I", b)[0]] *)
Definition unpack_u32_be (b : bytes) : result Z :=
  match b with
  | [b0; b1; b2; b3] =>
      Ok (((byte_val b0 * 256 + byte_val b1) * 256 + byte_val b2) * 256
          + byte_val b3)%Z
  | _ => Raise StructError
  end.

(** [struct.pack("B", n)] *)
Definition pack_u8 (n : Z) : result bytes :=
  if ((0 <=? n) && (n <? 256))%Z then Ok [byte_of_N_low (Z.to_N n)]
  else Raise StructError.

(* ================================================================= *)
(** ** Path names *)

(** A path is a [str] whose characters are code points below 256, one
    [ascii] each. *)
Definition chars (s : string) : list ascii := list_ascii_of_string s.

(** [str.isspace] on such a character. *)
Definition is_space (c : ascii) : bool :=
  let n := nat_of_ascii c in
  ((9 <=? n) && (n <=? 13)) || ((28 <=? n) && (n <=? 32))
  || (n =? 133) || (n =? 160).

(** [str.lower] on such a character. *)
Definition lower_char (c : ascii) : ascii :=
  let n := nat_of_ascii c in
  if ((65 <=? n) && (n <=? 90))
     || ((192 <=? n) && (n <=? 222) && negb (n =? 215))
  then ascii_of_nat (n + 32) else c.

Fixpoint lstrip (s : list ascii) : list ascii :=
  match s with
  | c :: s' => if is_space c then lstrip s' else s
  | [] => []
  end.

Definition strip (s : list ascii) : list ascii :=
  rev (lstrip (rev (lstrip s))).

Definition lower (s : list ascii) : list ascii := map lower_char s.

Definition ascii_list_eqb (a b : list ascii) : bool :=
  if list_eq_dec ascii_dec a b then true else false.

(** [s.endswith(suffix)] *)
Definition endswith (s suffix : list ascii) : bool :=
  (length suffix <=? length s)
  && ascii_list_eqb (skipn (length s - length suffix) s) suffix.

(** [raw.startswith(prefix)] *)
Definition startswith (raw prefix : bytes) : bool :=
  bytes_eqb (firstn (length prefix) raw) prefix.

Definition already_compressed_exts : list string :=
  [".zip"; ".gz"; ".7z"; ".rar"; ".jpeg"; ".jpg"; ".png"; ".gif";
   ".mp3"; ".mp4"; ".avi"; ".mov"; ".odt"; ".docx"; ".xlsx"]%string.

(* ================================================================= *)
(** ** The file store *)

(** Regular files by path name.  Two different names are two different
    files; every name can be written. *)
Definition file_store := string -> option bytes.

(** [open(path, 'rb')] and [read].  Of the errors of [open] the store
    knows the missing file only; a directory in place of a file or a
    missing permission are states of the machine that the store does not
    hold. *)
Definition read_file_bytes (fs : file_store) (path : string) : result bytes :=
  match fs path with
  | Some b => Ok b
  | None => Raise (FileNotFoundError path)
  end.

(** [open(path, 'wb')], the writes, and the close, on a name that can
    be written.  The [OSError]s of [open] (a missing directory, a
    directory in place of the file, a missing permission) are not
    modelled, so no statement below bounds what [open] may raise. *)
Definition write_file (fs : file_store) (path : string) (content : bytes)
  : file_store :=
  fun p => if String.eqb p path then Some content else fs p.

(** [shutil.copy(src, dst)] between regular files: [SameFileError] when
    both names are the same file. *)
Definition shutil_copy (fs : file_store) (src dst : string)
  : file_store * result unit :=
  if String.eqb src dst then (fs, Raise SameFileError)
  else
    match fs src with
    | Some content => (write_file fs dst content, Ok tt)
    | None => (fs, Raise (FileNotFoundError src))
    end.

(* ================================================================= *)
(** ** 6) Compressor *)

(** The [stats] dictionary of [compress_file], one field per key.  The
    two float-valued entries are kept as exact rationals: the literals
    [1.0] and [0.0] are exact, the quotients of the normal path are
    rounded by Python and not here. *)
Record compress_stats : Type := mk_compress_stats {
  input : string;
  output : string;
  original_bytes : Z;
  compressed_bytes : Z;
  unique_symbols : Z;
  pad_count : option Z;
  compression_ratio : option Q;
  space_saved_percent : option Q;
  skipped : bool;
  note : option string
}.

Definition note_already_huff : string :=
  "Input file is already in .huff format (double-compression prevented).".

Definition note_file_type : string :=
  "This file type is likely already compressed (skipped compression).".

(** The source string ends with a curly closing quote inside the
    quotes; it is kept, as its UTF-8 bytes. *)
Definition note_would_not_shrink : string :=
  "The uploaded file appears to be already compressed; compression cannot reduce its size.”".

(** [str(src).strip().lower()] *)
Definition clean_path (src : string) : list ascii := lower (strip (chars src)).

Definition len (A : Type) (l : list A) : Z := Z.of_nat (length l).

(** The two tests on the cleaned name, [src_str.endswith(".huff")] and
    [any(src_str.endswith(ext) for ext in already_compressed_exts)]. *)
Definition is_huff_name (src : string) : bool :=
  endswith (clean_path src) (chars ".huff").

Definition is_compressed_type (src : string) : bool :=
  existsb (fun ext => endswith (clean_path src) (chars ext))
    already_compressed_exts.

(** Lines 250-264 of [compress_file]: from the raw bytes to the tree, the
    frequency table, the pad count, the tree blob and the packed payload.
    Nothing is written yet, so an exception here leaves the files as they
    were. *)
Definition huffman_encode (raw : bytes)
  : result (option Node * dict Z * nat * bytes * bytes) :=
  let freq := build_freq_map raw in
  let h := heap_from_freq freq in
  root <- build_tree h ;;
  let codes := make_codes root in
  bitstr <- (match root with
             | Some _ => encode_bytes raw codes
             | None => Ok []
             end) ;;
  let (padded, pad) := pad_bits bitstr in
  compressed <- bits_to_bytes padded ;;
  tree_blob <- serialize root ;;
  Ok (root, freq, pad, tree_blob, compressed).

(** [4 + 4 + tree_len + 1 + len(compressed)] *)
Definition container_size (tree_blob compressed : bytes) : Z :=
  (4 + 4 + len tree_blob + 1 + len compressed)%Z.

Definition compress_file (fs : file_store) (src dst : string)
  : file_store * result (option Node * compress_stats) :=
  match read_file_bytes fs src with
  | Raise e => (fs, Raise e)
  | Ok raw =>
  let original := len raw in
  (* 1) Already Huffman compressed? *)
  if startswith raw MAGIC || is_huff_name src then
    (fs, Ok (None,
      mk_compress_stats src dst original (len raw) 0 None None None
        true (Some note_already_huff)))
  (* 2) Already compressed file type? *)
  else if is_compressed_type src then
    (fs, Ok (None,
      mk_compress_stats src dst original original 0 None
        (Some 1%Q) (Some 0%Q) true (Some note_file_type)))
  else
  (* --- Normal compression path --- *)
  match huffman_encode raw with
  | Raise e => (fs, Raise e)
  | Ok (root, freq, pad, tree_blob, compressed) =>
  let tree_len := len tree_blob in
  (* Write header + data; a failing [struct.pack] leaves what was
     written before it *)
  match pack_u32_be tree_len with
  | Raise e => (write_file fs dst MAGIC, Raise e)
  | Ok len_field =>
  match pack_u8 (Z.of_nat pad) with
  | Raise e => (write_file fs dst (MAGIC ++ len_field ++ tree_blob), Raise e)
  | Ok pad_field =>
  let fs1 :=
    write_file fs dst
      (MAGIC ++ len_field ++ tree_blob ++ pad_field ++ compressed) in
  let compressed_bytes_total := container_size tree_blob compressed in
  (* --- Post-compression check: skip if larger than original --- *)
  if (compressed_bytes_total >=? original)%Z then
    match shutil_copy fs1 src dst with
    | (fs2, Raise e) => (fs2, Raise e)
    | (fs2, Ok _) =>
        (fs2, Ok (None,
          mk_compress_stats src dst original original (len freq)
            (Some (Z.of_nat pad)) (Some 1%Q) (Some 0%Q) true
            (Some note_would_not_shrink)))
    end
  else
    (* --- Normal stats --- *)
    let '(ratio, saved) :=
      if (original >? 0)%Z then
        (Some (inject_Z compressed_bytes_total / inject_Z original)%Q,
         Some ((inject_Z (original - compressed_bytes_total)
                / inject_Z original) * 100)%Q)
      else (None, None) in
    (fs1, Ok (root,
      mk_compress_stats src dst original compressed_bytes_total (len freq)
        (Some (Z.of_nat pad)) ratio saved false None))
  end end end
  end.

(* ================================================================= *)
(** ** 7) Decompressor *)

Record decompress_stats : Type := mk_decompress_stats {
  input_huff : string;
  d_output : string;
  compressed_size : Z;
  restored_size : Z;
  d_pad_count : Z
}.

(** The [while i < n] loop that walks the tree along [bitstr]. *)
Fixpoint decode_loop (root node : Node) (bitstr : bitstring) (out : bytes)
  : result bytes :=
  match bitstr with
  | [] => Ok out
  | bit :: bitstr' =>
      match (if Ascii.eqb bit ch0 then left node else right node) with
      | None => Raise (ValueError CorruptBitstream)
      | Some node' =>
          match sym node' with
          | Some s => decode_loop root root bitstr' (out ++ [s])
          | None => decode_loop root node' bitstr' out
          end
      end
  end.

Definition decode (root : option Node) (bitstr : bitstring) : result bytes :=
  match root with
  | None => Ok []
  | Some r => decode_loop r r bitstr []
  end.

(** Lines 336-353 of [decompress_file]: the checks on the raw file and
    the fields cut out of it: declared tree length, tree blob, pad count,
    payload. *)
Definition parse_container (raw : bytes) : result (Z * bytes * Z * bytes) :=
  if (len raw <? 9)%Z then Raise (ValueError TooSmall)
  else if negb (bytes_eqb (firstn 4 raw) MAGIC)
  then Raise (ValueError MagicMismatch)
  else
    tree_len <- unpack_u32_be (firstn 4 (skipn 4 raw)) ;;
    let cursor := 8%Z in
    if (cursor + tree_len + 1 >? len raw)%Z
    then Raise (ValueError TreeLenUnrealistic)
    else
      let tree_blob :=
        firstn (Z.to_nat tree_len) (skipn (Z.to_nat cursor) raw) in
      let cursor := (cursor + tree_len)%Z in
      match nth_error raw (Z.to_nat cursor) with
      | None => Raise IndexError
      | Some pad_byte =>
          let cursor := (cursor + 1)%Z in
          Ok (tree_len, tree_blob, byte_val pad_byte,
              skipn (Z.to_nat cursor) raw)
      end.

(** Lines 354-381: unpad, rebuild the tree, decode. *)
Definition unpack_payload (tree_len : Z) (tree_blob : bytes) (pad : Z)
    (comp_bytes : bytes) : result bytes :=
  let bitstr := match comp_bytes with [] => [] | _ => bytes_to_bits comp_bytes end in
  bitstr <-
    (if (pad >? 0)%Z then
       if (pad >? len bitstr)%Z then Raise (ValueError PaddingTooBig)
       else Ok (firstn (length bitstr - Z.to_nat pad) bitstr)
     else Ok bitstr) ;;
  root <- (if (tree_len >? 0)%Z then deserialize tree_blob else Ok None) ;;
  decode root bitstr.

Definition decompress_file (fs : file_store) (src dst : string)
  : file_store * result decompress_stats :=
  match read_file_bytes fs src with
  | Raise e => (fs, Raise e)
  | Ok raw =>
      match parse_container raw with
      | Raise e => (fs, Raise e)
      | Ok (tree_len, tree_blob, pad, comp_bytes) =>
          match unpack_payload tree_len tree_blob pad comp_bytes with
          | Raise e => (fs, Raise e)
          | Ok decoded =>
              (write_file fs dst decoded,
               Ok (mk_decompress_stats src dst (len raw) (len decoded) pad))
          end
      end
  end.

(* ================================================================= *)
(** ** Vocabulary of the specification *)

(** The data model of a tree node: a leaf holds a symbol and has no
    children, an internal node holds no symbol and has two children. *)
Inductive well_formed : Node -> Prop :=
| wf_leaf s f : well_formed (mkNode (Some s) f None None)
| wf_internal f l r :
    well_formed l -> well_formed r ->
    well_formed (mkNode None f (Some l) (Some r)).

(** Every internal node has both children. *)
Inductive full : Node -> Prop :=
| full_leaf s f l r : full (mkNode (Some s) f l r)
| full_internal f l r :
    full l -> full r -> full (mkNode None f (Some l) (Some r)).

(** Same shape and same symbols; the weights may differ. *)
Inductive same_shape : Node -> Node -> Prop :=
| ss_leaf s f f' : same_shape (mkNode (Some s) f None None)
                              (mkNode (Some s) f' None None)
| ss_internal f f' l l' r r' :
    same_shape l l' -> same_shape r r' ->
    same_shape (mkNode None f (Some l) (Some r))
               (mkNode None f' (Some l') (Some r')).

(** The tree with every weight reset to 0, as [deserialize] builds it. *)
Fixpoint erase_freq (t : Node) : Node :=
  match t with
  | mkNode s _ l r =>
      mkNode s 0
        (match l with Some l' => Some (erase_freq l') | None => None end)
        (match r with Some r' => Some (erase_freq r') | None => None end)
  end.

(** The ways a blob can fail to start with one complete tree. *)
Inductive blob_defect : Type := Truncated | BadTag.

Inductive tree_defect : bytes -> blob_defect -> Prop :=
| missing_tag : tree_defect [] Truncated
| missing_symbol : tree_defect [x01] Truncated
| bad_tag t rest : t <> x00 -> t <> x01 -> tree_defect (t :: rest) BadTag
| defect_left b k : tree_defect b k -> tree_defect (x00 :: b) k
| defect_right l bl b k :
    serialize (Some l) = Ok bl -> tree_defect b k ->
    tree_defect (x00 :: bl ++ b) k.

(** Bytes remain after one complete tree. *)
Definition trailing_bytes (blob : bytes) : Prop :=
  exists t bl rest,
    serialize (Some t) = Ok bl /\ rest <> [] /\ blob = bl ++ rest.

(** [a] is the beginning of [b]. *)
Definition is_prefix (a b : bitstring) : Prop := exists c, b = a ++ c.

(** [path_to t c s]: following the bits [c] from [t] ('0' left, '1'
    right) ends on a leaf that holds [s]. *)
Inductive path_to : Node -> bitstring -> byte -> Prop :=
| path_leaf s f l r : path_to (mkNode (Some s) f l r) [] s
| path_left f l r c s :
    path_to l c s -> path_to (mkNode None f (Some l) r) (ch0 :: c) s
| path_right f l r c s :
    path_to r c s -> path_to (mkNode None f l (Some r)) (ch1 :: c) s.

(** The code [walk] stores for a path: "0" stands in for the empty one. *)
Definition code_of_path (p : bitstring) : bitstring :=
  match p with [] => [ch0] | _ => p end.

(** The value of a big-endian byte string. *)
Definition be_value (b : bytes) : Z :=
  fold_left (fun acc x => (acc * 256 + byte_val x)%Z) b 0%Z.

(** [raw[a:b]] *)
Definition slice (A : Type) (l : list A) (a b : nat) : list A :=
  firstn (b - a) (skipn a l).

(** The symbols a walk of the tree meets, left to right. *)
Fixpoint leaves (t : Node) : list byte :=
  match t with
  | mkNode (Some s) _ _ _ => [s]
  | mkNode None _ l r =>
      (match l with Some l' => leaves l' | None => [] end)
      ++ (match r with Some r' => leaves r' | None => [] end)
  end.

(** ** Induction on nodes *)

Section NodeInduction.
Variable P : Node -> Prop.
Hypothesis step :
  forall s f l r,
    (forall l', l = Some l' -> P l') ->
    (forall r', r = Some r' -> P r') ->
    P (mkNode s f l r).

Fixpoint Node_ind (t : Node) : P t :=
  match t with
  | mkNode s f l r =>
      step s f
        (match l return forall l', l = Some l' -> P l' with
         | Some x => fun l' e =>
             match e in _ = y return match y with Some z => P z | None => True end
             with eq_refl => Node_ind x end
         | None => fun l' e => match e with end
         end)
        (match r return forall r', r = Some r' -> P r' with
         | Some x => fun r' e =>
             match e in _ = y return match y with Some z => P z | None => True end
             with eq_refl => Node_ind x end
         | None => fun r' e => match e with end
         end)
  end.
End NodeInduction.

(** What a call of the inner [dfs] means for the bytes from [i] on. *)
Definition dfs_outcome (blob : bytes) (i : nat) (fuel : nat)
    (r : result (Node * nat)) : Prop :=
  match r with
  | Ok (t, j) =>
      exists bl, serialize (Some t) = Ok bl /\ well_formed t /\
                 erase_freq t = t /\
                 skipn i blob = bl ++ skipn j blob /\
                 j = i + length bl /\ j <= length blob
  | Raise (ValueError TreeRanOut) => tree_defect (skipn i blob) Truncated
  | Raise (ValueError LeafMissingByte) => tree_defect (skipn i blob) Truncated
  | Raise (ValueError (BadTreeFlag _ _)) => tree_defect (skipn i blob) BadTag
  | Raise FuelExhausted => fuel <= length blob - i
  | Raise _ => False
  end.

(** The error the inner [dfs] raises on a defect of kind [k]. *)
Definition raises_defect (k : blob_defect) (r : result (Node * nat)) : Prop :=
  match k with
  | Truncated =>
      r = Raise (ValueError TreeRanOut) \/ r = Raise (ValueError LeafMissingByte)
  | BadTag => exists flag pos, r = Raise (ValueError (BadTreeFlag flag pos))
  end.

(** The symbols at the leaves of an optional root. *)
Definition root_leaves (root : option Node) : list byte :=
  match root with Some r => leaves r | None => [] end.

(** [Node(sym, fr)] for an item of the frequency table. *)
Definition leaf_of (e : byte * Z) : Node := new_Node (Some (fst e)) (snd e).

(** A binary digit. *)
Definition is_bit (c : ascii) : Prop := c = ch0 \/ c = ch1.

(** Neither skip of [compress_file] applies: the normal compression
    path is taken. *)
Definition takes_normal_path (src : string) (raw : bytes) : bool :=
  negb (startswith raw MAGIC || is_huff_name src)
  && negb (is_compressed_type src).

(** The tree length a raw file declares in bytes 4..7. *)
Definition declared_tree_len (raw : bytes) : Z := be_value (slice raw 4 8).

(** The three errors of the header checks of [decompress_file]. *)
Definition is_header_error (e : exn) : Prop :=
  e = ValueError TooSmall \/ e = ValueError MagicMismatch
  \/ e = ValueError TreeLenUnrealistic.

(** A sample input that shrinks: 41 times 'a', then 'b'. *)
Definition sample_text : bytes := repeat x61 41 ++ [x62].

(** A container whose header is sound and whose one-byte tree blob holds
    the invalid tag 2. *)
Definition bad_tree_container : bytes :=
  MAGIC ++ [x00; x00; x00; x01] ++ [x02] ++ [x00].

(* ================================================================= *)
(** ** Convert tree to Graphviz format *)

(** [str(n)] for an [int]: decimal digits, with a minus sign below 0. *)
Definition str_int (n : Z) : string := NilZero.string_of_int (Z.to_int n).

Definition quote : string := String "034"%char EmptyString.
Definition newline : string := String "010"%char EmptyString.

(** [{n.freq}\\n{n.sym if n.sym is not None else ""}] between quotes; the
    two characters after the weight are a backslash and an 'n'. *)
Definition dot_label (n : Node) : string :=
  (quote ++ str_int (freq n) ++ "\n"
   ++ match sym n with Some s => str_int (byte_val s) | None => "" end
   ++ quote)%string.

(** One edge line of the output. *)
Definition dot_edge (n child : Node) : string :=
  (dot_label n ++ " -> " ++ dot_label child ++ ";" ++ newline)%string.

(** The inner [traverse(n, depth)] of [tree_to_dot], called on a node
    that is not [None]; [dot] is the string the closure appends to. *)
Fixpoint traverse (max_depth : Z) (n : Node) (depth : Z) (dot : string)
  : string :=
  if (depth >? max_depth)%Z then dot
  else
    match n with
    | mkNode _ _ l r =>
        let dot :=
          match l with
          | Some l' =>
              traverse max_depth l' (depth + 1) (dot ++ dot_edge n l')%string
          | None => dot
          end in
        match r with
        | Some r' =>
            traverse max_depth r' (depth + 1) (dot ++ dot_edge n r')%string
        | None => dot
        end
    end.

Definition dot_header : string :=
  ("digraph G {" ++ newline
   ++ "node [shape=circle, style=filled, color=lightblue];" ++ newline)%string.

Definition tree_to_dot (node : option Node) (max_depth : Z) : string :=
  let dot := dot_header in
  let dot :=
    match node with
    | Some n => traverse max_depth n 0 dot
    | None => dot
    end in
  (dot ++ "}")%string.

(** The tree cut below [k] levels of children. *)
Fixpoint prune (k : nat) (t : Node) : Node :=
  match t with
  | mkNode s f l r =>
      match k with
      | O => mkNode s f None None
      | S k' =>
          mkNode s f
            (match l with Some l' => Some (prune k' l') | None => None end)
            (match r with Some r' => Some (prune k' r') | None => None end)
      end
  end.

(* ================================================================= *)
(** ** Vocabulary for the heap and the weights of the tree *)

(** The parent slot of slot [i] in the array layout of [heapq]. *)
Definition parent_pos (i : nat) : nat := Nat.div2 (i - 1).

(** A stand-in for reads that are never out of range. *)
Definition no_node : Node := new_Node None 0.

Definition item (heap : list Node) (i : nat) : Node := nth i heap no_node.

(** The heap invariant of [heapq]: no item is lighter than its parent. *)
Definition heap_ok (heap : list Node) : Prop :=
  forall i, 0 < i < length heap ->
    (freq (item heap (parent_pos i)) <= freq (item heap i))%Z.

(** The state of a sift with the hole at [pos]: the order holds on every
    edge that does not touch the hole, and the items below the hole are
    not lighter than the item above it. *)
Definition hole_ok (heap : list Node) (pos : nat) : Prop :=
  (forall i, 0 < i < length heap -> i <> pos -> parent_pos i <> pos ->
     (freq (item heap (parent_pos i)) <= freq (item heap i))%Z) /\
  (forall i, 0 < i < length heap -> parent_pos i = pos -> 0 < pos ->
     (freq (item heap (parent_pos pos)) <= freq (item heap i))%Z).

(** The pending item is not heavier than the items below the hole. *)
Definition fits_above (heap : list Node) (pos : nat) (x : Node) : Prop :=
  forall i, 0 < i < length heap -> parent_pos i = pos ->
    (freq x <= freq (item heap i))%Z.

(** A tree as the merge loop builds it: leaves without children, and
    every internal node weighs the sum of its two children, the left one
    being no heavier than the right one. *)
Inductive weighted : Node -> Prop :=
| weighted_leaf s f : weighted (mkNode (Some s) f None None)
| weighted_merge l r :
    weighted l -> weighted r -> (freq l <= freq r)%Z ->
    weighted (mkNode None (freq l + freq r) (Some l) (Some r)).

(** The symbols at the leaves with their weights, left to right. *)
Fixpoint leaf_entries (t : Node) : list (byte * Z) :=
  match t with
  | mkNode (Some s) f _ _ => [(s, f)]
  | mkNode None _ l r =>
      (match l with Some l' => leaf_entries l' | None => [] end)
      ++ (match r with Some r' => leaf_entries r' | None => [] end)
  end.

(** The sum of the counts of a frequency table. *)
Definition total (fm : dict Z) : Z :=
  fold_right (fun e acc => (snd e + acc)%Z) 0%Z fm.

(** The number of occurrences of [b] in [data]. *)
Definition occurrences (data : bytes) (b : byte) : Z :=
  Z.of_nat (count_occ Byte.byte_eq_dec data b).

(** The errors of [deserialize]. *)
Definition is_tree_error (e : exn) : Prop :=
  e = ValueError TreeRanOut \/ e = ValueError LeafMissingByte \/
  (exists flag pos, e = ValueError (BadTreeFlag flag pos)) \/
  e = ValueError ExtraBytes.

(** The container [compress_file] writes: magic, length field, tree
    blob, pad field, payload. *)
Definition assemble (len_field tree_blob pad_field compressed : bytes)
  : bytes :=
  MAGIC ++ len_field ++ tree_blob ++ pad_field ++ compressed.

(** The statistics of the would-not-shrink outcome and of the normal
    outcome of [compress_file]. *)
Definition stats_not_smaller (src dst : string) (raw : bytes)
    (freq : dict Z) (pad : nat) : compress_stats :=
  mk_compress_stats src dst (len raw) (len raw) (len freq)
    (Some (Z.of_nat pad)) (Some 1%Q) (Some 0%Q) true
    (Some note_would_not_shrink).

Definition stats_normal (src dst : string) (raw : bytes)
    (freq : dict Z) (pad : nat) (total_size : Z) : compress_stats :=
  mk_compress_stats src dst (len raw) total_size (len freq)
    (Some (Z.of_nat pad))
    (if (len raw >? 0)%Z
     then Some (inject_Z total_size / inject_Z (len raw))%Q else None)
    (if (len raw >? 0)%Z
     then Some ((inject_Z (len raw - total_size) / inject_Z (len raw)) * 100)%Q
     else None)
    false None.

(** [name] ends with one of the listed extensions. *)
Definition has_listed_extension (name : string) : Prop :=
  exists ext, In ext already_compressed_exts /\
              endswith (chars name) (chars ext) = true.

(** A suffix that [strip] and [lower] leave alone: it neither starts nor
    ends with a blank and has no upper-case letter. *)
Definition stable_suffix (suf : list ascii) : bool :=
  match suf with
  | [] => false
  | c :: _ =>
      negb (is_space c) && negb (is_space (last suf c))
      && ascii_list_eqb (lower suf) suf
  end.

(* ================================================================= *)
(** * Proofs *)


(* ================================================================= *)
(** ** Preliminaries *)

Lemma bind_ok A B (r : result A) (k : A -> result B) b :
  bind r k = Ok b -> exists a, r = Ok a /\ k a = Ok b.
Proof. destruct r as [a|e]; simpl; intros H; [eauto | discriminate]. Qed.

Lemma bind_raise A B (r : result A) (k : A -> result B) e :
  bind r k = Raise e ->
  r = Raise e \/ exists a, r = Ok a /\ k a = Raise e.
Proof. destruct r as [a|e']; simpl; intros H; [eauto | left; congruence]. Qed.

Lemma byte_eqb_refl (b : byte) : Byte.eqb b b = true.
Proof. apply Byte.byte_dec_lb; reflexivity. Qed.

Lemma byte_eqb_true (a b : byte) : Byte.eqb a b = true -> a = b.
Proof. apply Byte.byte_dec_bl. Qed.

Lemma byte_eqb_false (a b : byte) : Byte.eqb a b = false <-> a <> b.
Proof.
  split.
  - apply Byte.eqb_false.
  - intros H. destruct (Byte.eqb a b) eqn:E; auto.
    apply byte_eqb_true in E. contradiction.
Qed.

(* ================================================================= *)
(** ** The tree codec *)

(** [out] is only ever appended to. *)
Lemma serialize_dfs_acc t : forall out,
  serialize_dfs t out =
  match serialize_dfs t [] with
  | Ok bl => Ok (out ++ bl)
  | Raise e => Raise e
  end.
Proof.
  induction t as [s f l r IHl IHr] using Node_ind; intros out.
  destruct s as [s|]; simpl; [reflexivity|].
  destruct l as [l'|]; simpl; [|reflexivity].
  rewrite (IHl l' eq_refl (out ++ [x00])), (IHl l' eq_refl [x00]).
  destruct (serialize_dfs l' []) as [bl|e]; simpl; [|reflexivity].
  destruct r as [r'|]; simpl; [|reflexivity].
  rewrite (IHr r' eq_refl ((out ++ [x00]) ++ bl)), (IHr r' eq_refl (x00 :: bl)).
  destruct (serialize_dfs r' []) as [br|e]; simpl; [|reflexivity].
  now rewrite <- !app_assoc.
Qed.

Lemma serialize_leaf s f l r :
  serialize (Some (mkNode (Some s) f l r)) = Ok [x01; s].
Proof. reflexivity. Qed.

Lemma serialize_internal f l r bl br :
  serialize (Some l) = Ok bl -> serialize (Some r) = Ok br ->
  serialize (Some (mkNode None f (Some l) (Some r))) = Ok (x00 :: bl ++ br).
Proof.
  simpl. intros Hl Hr.
  rewrite (serialize_dfs_acc l), Hl. simpl.
  rewrite (serialize_dfs_acc r), Hr. reflexivity.
Qed.

Lemma serialize_internal_inv f l r b :
  serialize (Some (mkNode None f l r)) = Ok b ->
  exists l' r' bl br,
    l = Some l' /\ r = Some r' /\
    serialize (Some l') = Ok bl /\ serialize (Some r') = Ok br /\
    b = x00 :: bl ++ br.
Proof.
  simpl. destruct l as [l'|]; simpl; [|discriminate].
  rewrite (serialize_dfs_acc l').
  destruct (serialize_dfs l' []) as [bl|] eqn:El; simpl; [|discriminate].
  destruct r as [r'|]; simpl; [|discriminate].
  rewrite (serialize_dfs_acc r').
  destruct (serialize_dfs r' []) as [br|] eqn:Er; simpl; [|discriminate].
  intros H. injection H as <-. exists l', r', bl, br. auto.
Qed.

(** A serialized tree has at least two bytes. *)
Lemma serialize_length t : forall b,
  serialize (Some t) = Ok b -> 2 <= length b.
Proof.
  induction t as [s f l r IHl IHr] using Node_ind; intros b H.
  destruct s as [s|].
  - rewrite serialize_leaf in H. injection H as <-. simpl. lia.
  - apply serialize_internal_inv in H.
    destruct H as (l' & r' & bl & br & -> & -> & Hl & Hr & ->).
    specialize (IHl l' eq_refl bl Hl). simpl. rewrite length_app. lia.
Qed.

Lemma well_formed_serialize t :
  well_formed t -> exists b, serialize (Some t) = Ok b.
Proof.
  induction 1 as [s f|f l r _ [bl Hl] _ [br Hr]].
  - eexists. apply serialize_leaf.
  - eexists. apply serialize_internal; eassumption.
Qed.

Lemma skipn_nth_error A (l : list A) i x :
  nth_error l i = Some x -> skipn i l = x :: skipn (S i) l.
Proof.
  revert i. induction l as [|a l IH]; intros [|i] H; simpl in *;
    try discriminate.
  - now injection H as ->.
  - now apply IH.
Qed.

Lemma skipn_nth_error_none A (l : list A) i :
  nth_error l i = None -> skipn i l = [].
Proof. intros H. apply skipn_all2. now apply nth_error_None. Qed.

Lemma skipn_cons_length A (l : list A) i x rest :
  skipn i l = x :: rest -> i < length l /\ nth_error l i = Some x /\ skipn (S i) l = rest.
Proof.
  revert i. induction l as [|a l IH]; intros [|i] H; simpl in *;
    try discriminate.
  - injection H as -> ->. repeat split; auto. lia.
  - destruct (IH _ H) as (? & ? & ?). repeat split; auto. lia.
Qed.

Lemma skipn_app_shift A (l : list A) i a b :
  skipn i l = a ++ b -> skipn (i + length a) l = b.
Proof.
  revert i. induction a as [|x a IH]; intros i H; simpl in *.
  - now rewrite Nat.add_0_r.
  - apply skipn_cons_length in H. destruct H as (_ & _ & H).
    apply IH in H. now rewrite <- Nat.add_succ_comm.
Qed.


Section DfsOutcome.
#[local] Arguments skipn : simpl never.

Lemma deserialize_dfs_outcome blob : forall fuel i,
dfs_outcome blob i fuel (deserialize_dfs fuel blob i).
Proof.
induction fuel as [|fuel IH]; intros i.
- simpl. lia.
- simpl. destruct (nth_error blob i) as [flag|] eqn:Ei.
  2:{ simpl. rewrite (skipn_nth_error_none _ _ Ei). constructor. }
  pose proof (skipn_nth_error _ _ Ei) as Hi.
  assert (Hlt : i < length blob) by (apply nth_error_Some; congruence).
  replace (i + 1) with (S i) by lia.
  destruct (Byte.eqb flag x01) eqn:E1.
  { apply byte_eqb_true in E1. subst flag.
    destruct (nth_error blob (S i)) as [s|] eqn:Es.
    - pose proof (skipn_nth_error _ _ Es) as Hs.
      assert (S i < length blob) by (apply nth_error_Some; congruence).
      unfold dfs_outcome. exists [x01; s].
      split; [reflexivity|]. split; [constructor|]. split; [reflexivity|].
      split; [|simpl length; lia].
      rewrite Hi, Hs. replace (S i + 1) with (S (S i)) by lia. reflexivity.
    - simpl. rewrite Hi, (skipn_nth_error_none _ _ Es). constructor. }
  destruct (Byte.eqb flag x00) eqn:E0.
  2:{ simpl. rewrite Hi. constructor; now apply byte_eqb_false. }
  apply byte_eqb_true in E0. subst flag.
  pose proof (IH (S i)) as HL.
  destruct (deserialize_dfs fuel blob (S i)) as [[tl j]|e] eqn:EL; simpl.
  2:{ destruct e as [v| | | | | | |]; simpl in HL; try contradiction.
      - destruct v; simpl in HL; try contradiction;
          rewrite Hi; now apply defect_left.
      - lia. }
  simpl in HL. destruct HL as (bl & Sl & Wl & Fl & Kl & Jl & Ll).
  pose proof (IH j) as HR.
  destruct (deserialize_dfs fuel blob j) as [[tr k]|e] eqn:ER; simpl.
  2:{ destruct e as [v| | | | | | |]; simpl in HR; try contradiction.
      - destruct v; simpl in HR; try contradiction;
          rewrite Hi, Kl; now apply defect_right with (l := tl).
      - lia. }
  simpl in HR. destruct HR as (br & Sr & Wr & Fr & Kr & Jr & Lr).
  exists (x00 :: bl ++ br). repeat split.
  + now apply (serialize_internal 0).
  + now constructor.
  + simpl. now rewrite Fl, Fr.
  + rewrite Hi, Kl, Kr. simpl. now rewrite <- app_assoc.
  + simpl. rewrite length_app. lia.
  + lia.
Qed.
End DfsOutcome.

Lemma skipn_nil_nth_error A (l : list A) i :
  skipn i l = [] -> nth_error l i = None.
Proof.
  intros H. apply nth_error_None.
  pose proof (length_skipn i l) as L. rewrite H in L. simpl in L. lia.
Qed.

Lemma deserialize_dfs_internal fuel blob i :
  nth_error blob i = Some x00 ->
  deserialize_dfs (S fuel) blob i =
  ('(left_node, j) <- deserialize_dfs fuel blob (S i) ;;
   '(right_node, k) <- deserialize_dfs fuel blob j ;;
   Ok (mkNode None 0 (Some left_node) (Some right_node), k)).
Proof.
  intros E. simpl. rewrite E. simpl.
  now replace (i + 1) with (S i) by lia.
Qed.

(** Bytes that hold a serialized tree are read back as that tree (with
    the weights reset), wherever they sit in the blob. *)
Lemma deserialize_dfs_complete t : forall bl,
  serialize (Some t) = Ok bl ->
  forall blob i rest fuel,
    skipn i blob = bl ++ rest -> length bl <= fuel ->
    exists t',
      deserialize_dfs fuel blob i = Ok (t', i + length bl) /\
      (well_formed t -> t' = erase_freq t).
Proof.
  induction t as [s f l r IHl IHr] using Node_ind;
    intros bl Hs blob i rest fuel Hk Hf.
  destruct s as [s|].
  - rewrite serialize_leaf in Hs. injection Hs as <-.
    destruct fuel as [|fuel]; [simpl in Hf; lia|].
    change ([x01; s] ++ rest) with (x01 :: s :: rest) in Hk.
    apply skipn_cons_length in Hk. destruct Hk as (_ & E1 & Hk).
    apply skipn_cons_length in Hk. destruct Hk as (_ & E2 & _).
    exists (new_Node (Some s) 0). split.
    + simpl. rewrite E1. simpl. replace (i + 1) with (S i) by lia.
      rewrite E2. do 2 f_equal. lia.
    + intros W. inversion W; subst. reflexivity.
  - apply serialize_internal_inv in Hs.
    destruct Hs as (l' & r' & bl' & br' & -> & -> & Sl & Sr & ->).
    destruct fuel as [|fuel]; [simpl in Hf; lia|].
    simpl in Hf. rewrite length_app in Hf.
    change ((x00 :: bl' ++ br') ++ rest) with (x00 :: (bl' ++ br') ++ rest) in Hk.
    apply skipn_cons_length in Hk. destruct Hk as (_ & E0 & Hk).
    rewrite <- app_assoc in Hk.
    destruct (IHl l' eq_refl bl' Sl blob (S i) (br' ++ rest) fuel Hk)
      as (tl & Dl & Wl); [lia|].
    apply skipn_app_shift in Hk.
    destruct (IHr r' eq_refl br' Sr blob (S i + length bl') rest fuel Hk)
      as (tr & Dr & Wr); [lia|].
    exists (mkNode None 0 (Some tl) (Some tr)). split.
    + rewrite deserialize_dfs_internal by assumption.
      rewrite Dl. cbn [bind]. rewrite Dr. cbn [bind]. do 2 f_equal.
      simpl. rewrite length_app. lia.
    + intros W. inversion W; subst. simpl. now rewrite Wl, Wr.
Qed.


Lemma raises_defect_bind k r (g : Node * nat -> result (Node * nat)) :
  raises_defect k r -> raises_defect k (bind r g).
Proof.
  destruct k; simpl.
  - intros [-> | ->]; auto.
  - intros (flag & pos & ->); simpl; eauto.
Qed.

(** A defect in the bytes from [i] on makes the inner [dfs] raise the
    matching error. *)
Lemma deserialize_dfs_defect b k :
  tree_defect b k ->
  forall blob i fuel,
    skipn i blob = b -> length b < fuel ->
    raises_defect k (deserialize_dfs fuel blob i).
Proof.
  induction 1 as [| |t rest H0 H1|b k D IH|l bl b k Sl D IH];
    intros blob i fuel Hk Hf;
    (destruct fuel as [|fuel]; [simpl in Hf; lia|]).
  - apply skipn_nil_nth_error in Hk. simpl. rewrite Hk. now left.
  - apply skipn_cons_length in Hk. destruct Hk as (_ & E1 & Hk).
    apply skipn_nil_nth_error in Hk.
    simpl. rewrite E1. simpl. replace (i + 1) with (S i) by lia.
    rewrite Hk. now right.
  - apply skipn_cons_length in Hk. destruct Hk as (_ & E1 & _).
    simpl. rewrite E1.
    apply byte_eqb_false in H0, H1. rewrite H0, H1. eauto.
  - apply skipn_cons_length in Hk. destruct Hk as (_ & E0 & Hk).
    simpl in Hf.
    rewrite deserialize_dfs_internal by assumption.
    apply raises_defect_bind. apply IH; [assumption | lia].
  - apply skipn_cons_length in Hk. destruct Hk as (_ & E0 & Hk).
    simpl in Hf. rewrite length_app in Hf.
    destruct (@deserialize_dfs_complete l bl Sl blob (S i) b fuel Hk)
      as (tl & Dl & _); [lia|].
    apply skipn_app_shift in Hk.
    rewrite deserialize_dfs_internal by assumption.
    rewrite Dl. cbn [bind].
    apply raises_defect_bind. apply IH; [assumption | lia].
Qed.

(** The three outcomes of [deserialize] on a non-empty blob. *)
Lemma deserialize_cases blob :
  blob <> [] ->
  deserialize blob =
    match deserialize_dfs (S (length blob)) blob 0 with
    | Ok (root, next_i) =>
        if next_i =? length blob then Ok (Some root)
        else Raise (ValueError ExtraBytes)
    | Raise e => Raise e
    end.
Proof.
  destruct blob as [|b blob]; [congruence|]. intros _.
  unfold deserialize.
  destruct (deserialize_dfs _ _ 0) as [[root next_i]|e]; simpl; [|reflexivity].
  now destruct (_ =? _).
Qed.

Lemma deserialize_ok blob t :
  deserialize blob = Ok (Some t) ->
  serialize (Some t) = Ok blob /\ well_formed t /\ erase_freq t = t.
Proof.
  intros H. assert (Hne : blob <> []) by (intros ->; discriminate).
  rewrite (deserialize_cases Hne) in H.
  pose proof (deserialize_dfs_outcome blob (S (length blob)) 0) as O.
  destruct (deserialize_dfs _ _ 0) as [[root j]|e]; [|discriminate].
  destruct (j =? length blob) eqn:Ej; [|discriminate].
  injection H as ->. apply Nat.eqb_eq in Ej. subst j.
  simpl in O. destruct O as (bl & S1 & W & F & K & J & _).
  rewrite skipn_all, app_nil_r in K. simpl in K. subst bl. auto.
Qed.

Lemma deserialize_serialized t bl :
  serialize (Some t) = Ok bl ->
  exists t', deserialize bl = Ok (Some t') /\ (well_formed t -> t' = erase_freq t).
Proof.
  intros S1.
  assert (Hne : bl <> []).
  { pose proof (serialize_length _ S1). intros ->. simpl in *. lia. }
  destruct (@deserialize_dfs_complete t bl S1 bl 0 [] (S (length bl)))
    as (t' & D & W).
  { now rewrite app_nil_r. }
  { lia. }
  exists t'. split; [|exact W].
  rewrite (deserialize_cases Hne), D. simpl. now rewrite Nat.eqb_refl.
Qed.

Lemma same_shape_erase_freq t : well_formed t -> same_shape t (erase_freq t).
Proof. induction 1; simpl; now constructor. Qed.

Lemma well_formed_full t : well_formed t -> full t.
Proof. induction 1; now constructor. Qed.

(** C7: [deserialize] maps the empty blob to a null root; on a non-empty
    blob it raises exactly when the blob is truncated (a tag byte or a
    leaf's symbol byte is missing), when a tag byte is neither 1 nor 0,
    or when bytes remain after one complete tree, each time with the
    [ValueError] of that kind. *)
Theorem deserialize_fails_exactly_when :
  deserialize [] = Ok None /\
  forall blob, blob <> [] ->
    ((deserialize blob = Raise (ValueError TreeRanOut) \/
      deserialize blob = Raise (ValueError LeafMissingByte))
     <-> tree_defect blob Truncated) /\
    ((exists flag pos,
        deserialize blob = Raise (ValueError (BadTreeFlag flag pos)))
     <-> tree_defect blob BadTag) /\
    (deserialize blob = Raise (ValueError ExtraBytes)
     <-> trailing_bytes blob) /\
    ((exists e, deserialize blob = Raise e)
     <-> tree_defect blob Truncated \/ tree_defect blob BadTag
         \/ trailing_bytes blob) /\
    (forall e, deserialize blob = Raise e -> exists v, e = ValueError v).
Proof.
  split; [reflexivity|]. intros blob Hne.
  pose proof (deserialize_cases Hne) as C.
  pose proof (deserialize_dfs_outcome blob (S (length blob)) 0) as O.
  assert (Hdef : forall k, tree_defect blob k ->
            raises_defect k (deserialize_dfs (S (length blob)) blob 0)).
  { intros k D. apply (deserialize_dfs_defect D); [reflexivity | lia]. }
  assert (Htrail : trailing_bytes blob ->
            exists t j, deserialize_dfs (S (length blob)) blob 0 = Ok (t, j)
                        /\ j <> length blob).
  { intros (t & bl & rest & S1 & Hr & ->).
    destruct (@deserialize_dfs_complete t bl S1 (bl ++ rest) 0 rest
                (S (length (bl ++ rest)))) as (t' & D & _).
    { reflexivity. }
    { rewrite length_app. lia. }
    exists t', (0 + length bl). split; [exact D|].
    rewrite length_app. destruct rest; [congruence | simpl; lia]. }
  assert (T1 : (deserialize blob = Raise (ValueError TreeRanOut) \/
                deserialize blob = Raise (ValueError LeafMissingByte))
               <-> tree_defect blob Truncated).
  { split.
    - rewrite C.
      destruct (deserialize_dfs _ _ 0) as [[t j]|e].
      + destruct (j =? _); intros [H|H]; discriminate.
      + intros [H|H]; injection H as ->; exact O.
    - intros D. rewrite C. destruct (Hdef _ D) as [-> | ->]; auto. }
  assert (T2 : (exists flag pos,
                  deserialize blob = Raise (ValueError (BadTreeFlag flag pos)))
               <-> tree_defect blob BadTag).
  { split.
    - rewrite C.
      destruct (deserialize_dfs _ _ 0) as [[t j]|e].
      + destruct (j =? _); intros (flag & pos & H); discriminate.
      + intros (flag & pos & H); injection H as ->; exact O.
    - intros D. rewrite C. destruct (Hdef _ D) as (flag & pos & ->); eauto. }
  assert (T3 : deserialize blob = Raise (ValueError ExtraBytes)
               <-> trailing_bytes blob).
  { split.
    - rewrite C.
      destruct (deserialize_dfs _ _ 0) as [[t j]|e].
      + destruct (j =? length blob) eqn:Ej; [discriminate|]. intros _.
        apply Nat.eqb_neq in Ej.
        simpl in O. destruct O as (bl & S1 & _ & _ & K & J & L).
        exists t, bl, (skipn j blob). split; [exact S1|]. split; [|exact K].
        intros E. pose proof (length_skipn j blob) as Ls.
        rewrite E in Ls. simpl in Ls. lia.
      + intros H. injection H as ->. contradiction.
    - intros Tr. rewrite C. destruct (Htrail Tr) as (t & j & -> & Hj).
      apply Nat.eqb_neq in Hj. now rewrite Hj. }
  repeat split; try apply T1; try apply T2; try apply T3.
  - intros [e He]. rewrite C in He.
    destruct (deserialize_dfs _ _ 0) as [[t j]|e'] eqn:ED.
    + destruct (j =? length blob) eqn:Ej; [discriminate|].
      right; right. apply T3. exact C.
    + destruct e' as [v| | | | | | |]; simpl in O; try contradiction.
      * destruct v; simpl in O; try contradiction; auto.
      * lia.
  - intros [D|[D|Tr]].
    + apply T1 in D. destruct D as [D|D]; eauto.
    + apply T2 in D. destruct D as (flag & pos & D); eauto.
    + apply T3 in Tr. eauto.
  - intros e He. rewrite C in He.
    destruct (deserialize_dfs _ _ 0) as [[t j]|e'].
    + destruct (j =? length blob); [discriminate|].
      injection He as <-. eauto.
    + injection He as <-.
      destruct e' as [v| | | | | | |]; simpl in O; try contradiction.
      * eauto.
      * lia.
Qed.

Lemma deserialize_fails_exactly_when_witness :
  exists e, deserialize [x01] = Raise e.
Proof.
  destruct deserialize_fails_exactly_when as [_ H].
  destruct (H [x01]) as (_ & _ & _ & H4 & _); [discriminate|].
  apply H4. left. apply missing_symbol.
Defined.

(** C8: a tree that follows the data model is serialized to a blob that
    [deserialize] reads back without error as a tree of the same shape
    and symbols: the same tree with every weight reset to 0. *)
Theorem deserialize_serialize_roundtrip t :
  well_formed t ->
  exists blob t',
    serialize (Some t) = Ok blob /\
    deserialize blob = Ok (Some t') /\
    same_shape t t' /\ t' = erase_freq t.
Proof.
  intros W. destruct (well_formed_serialize W) as [blob S1].
  destruct (deserialize_serialized _ S1) as (t' & D & E).
  exists blob, t'. repeat split; auto.
  rewrite (E W). now apply same_shape_erase_freq.
Qed.

Lemma deserialize_serialize_roundtrip_witness :
  exists blob t',
    serialize (Some (mkNode None 7 (Some (new_Node (Some x61) 4))
                                   (Some (new_Node (Some x62) 3))))
      = Ok blob /\
    deserialize blob = Ok (Some t') /\
    same_shape (mkNode None 7 (Some (new_Node (Some x61) 4))
                              (Some (new_Node (Some x62) 3))) t' /\
    t' = erase_freq (mkNode None 7 (Some (new_Node (Some x61) 4))
                                   (Some (new_Node (Some x62) 3))).
Proof.
  apply deserialize_serialize_roundtrip.
  apply wf_internal; apply wf_leaf.
Defined.

(** From an internal node of a full tree every bit leads to a node. *)
Lemma decode_loop_full root :
  full root -> sym root = None ->
  forall bitstr node out,
    full node -> sym node = None ->
    exists out', decode_loop root node bitstr out = Ok out'.
Proof.
  intros Fr Sr. induction bitstr as [|bit bitstr IH]; intros node out Fn Sn.
  - simpl. eauto.
  - inversion Fn as [s f l r|f l r Fl Frr]; subst; [discriminate|].
    simpl. destruct (Ascii.eqb bit ch0).
    + destruct (sym l) eqn:El; [apply IH; assumption|now apply IH].
    + destruct (sym r) eqn:El; [apply IH; assumption|now apply IH].
Qed.

(** C10: a tree that [deserialize] returns is full, and when its root is
    internal the decoding walk finds a node at every step: it returns a
    result, never the corrupt-bitstream error. *)
Theorem deserialized_tree_full blob t :
  deserialize blob = Ok (Some t) ->
  full t /\
  (sym t = None ->
   forall bitstr,
     (exists out, decode (Some t) bitstr = Ok out) /\
     decode (Some t) bitstr <> Raise (ValueError CorruptBitstream)).
Proof.
  intros D. apply deserialize_ok in D. destruct D as (_ & W & _).
  pose proof (well_formed_full W) as F. split; [exact F|].
  intros St bitstr.
  destruct (@decode_loop_full t F St bitstr t [] F St) as [out Ho].
  simpl. rewrite Ho. split; [eauto | discriminate].
Qed.

Lemma deserialized_tree_full_witness :
  full (mkNode None 0 (Some (new_Node (Some x61) 0))
                      (Some (new_Node (Some x62) 0))).
Proof.
  apply (@deserialized_tree_full [x00; x01; x61; x01; x62]).
  reflexivity.
Defined.

(* ================================================================= *)
(** ** The code table *)

Section DictFacts.
Variable V : Type.
Implicit Types (d : dict V) (k : byte) (v : V).

Lemma dict_get_set_same d k v : dict_get (dict_set d k v) k = Some v.
Proof.
  induction d as [|[k' v'] d IH]; simpl.
  - now rewrite byte_eqb_refl.
  - destruct (Byte.eqb k' k) eqn:E; simpl; rewrite E; auto.
Qed.

Lemma dict_get_set_other d k k' v :
  k' <> k -> dict_get (dict_set d k v) k' = dict_get d k'.
Proof.
  intros N. induction d as [|[k0 v0] d IH]; simpl.
  - assert (E : Byte.eqb k k' = false) by (apply byte_eqb_false; congruence).
    now rewrite E.
  - destruct (Byte.eqb k0 k) eqn:E; simpl.
    + apply byte_eqb_true in E. subst k0.
      assert (E : Byte.eqb k k' = false) by (apply byte_eqb_false; congruence).
      now rewrite E.
    + destruct (Byte.eqb k0 k'); auto.
Qed.

Lemma dict_keys_set d k v :
  dict_keys (dict_set d k v) =
  if in_dec Byte.byte_eq_dec k (dict_keys d) then dict_keys d
  else dict_keys d ++ [k].
Proof.
  unfold dict_keys.
  induction d as [|[k' v'] d IH]; simpl; [reflexivity|].
  destruct (Byte.eqb k' k) eqn:E.
  - apply byte_eqb_true in E. subst k'.
    destruct (Byte.byte_eq_dec k k); [|congruence].
    reflexivity.
  - apply byte_eqb_false in E.
    destruct (Byte.byte_eq_dec k' k); [congruence|].
    simpl. rewrite IH.
    destruct (in_dec _ _ _); reflexivity.
Qed.
End DictFacts.

Lemma path_to_leaves t p s : path_to t p s -> In s (leaves t).
Proof.
  induction 1; simpl; auto.
  - apply in_or_app. auto.
  - apply in_or_app. auto.
Qed.

(** Two leaves of one tree: the path to one is never the beginning of
    the path to the other. *)
Lemma path_to_prefix_free t p1 s1 :
  path_to t p1 s1 ->
  forall p2 s2, path_to t p2 s2 -> is_prefix p1 p2 -> p1 = p2 /\ s1 = s2.
Proof.
  induction 1 as [s f l r|f l r c s H IH|f l r c s H IH];
    intros p2 s2 H2 [q Hq]; subst p2; simpl in H2.
  - inversion H2; subst. auto.
  - inversion H2 as [|f' l' r' c' s' H' E1 E2|f' l' r' c' s' H' E1 E2];
      subst; try discriminate.
    destruct (IH _ _ H' (ex_intro _ q eq_refl)) as [E ->].
    rewrite E at 1. auto.
  - inversion H2 as [|f' l' r' c' s' H' E1 E2|f' l' r' c' s' H' E1 E2];
      subst; try discriminate.
    destruct (IH _ _ H' (ex_intro _ q eq_refl)) as [E ->].
    rewrite E at 1. auto.
Qed.

Lemma path_to_bits t p s : path_to t p s -> Forall is_bit p.
Proof. induction 1; constructor; auto; [now left | now right]. Qed.

Lemma code_of_path_nonempty p : code_of_path p <> [].
Proof. destruct p; discriminate. Qed.

(** What [walk] leaves in the dictionary: the entries that were there, or
    the code of a path of the tree. *)
Lemma walk_get t : forall prefix codes s c,
  dict_get (walk t prefix codes) s = Some c ->
  dict_get codes s = Some c \/
  exists p, path_to t p s /\ c = code_of_path (prefix ++ p).
Proof.
  induction t as [sy f l r IHl IHr] using Node_ind; intros prefix codes s c H.
  destruct sy as [s0|]; simpl in H.
  - destruct (Byte.byte_eq_dec s s0) as [->|N].
    + rewrite dict_get_set_same in H. injection H as <-.
      right. exists []. split; [constructor|]. now rewrite app_nil_r.
    + rewrite dict_get_set_other in H by assumption. auto.
  - assert (Hr : dict_get
               (match l with
                | Some l' => walk l' (prefix ++ [ch0]) codes
                | None => codes
                end) s = Some c \/
             exists p, path_to (mkNode None f l r) p s /\
                       c = code_of_path (prefix ++ p)).
    { destruct r as [r'|]; [|auto].
      apply (IHr r' eq_refl) in H. destruct H as [H|(p & Hp & ->)]; [auto|].
      right. exists (ch1 :: p). split; [now constructor|].
      now rewrite <- app_assoc. }
    destruct Hr as [Hr|Hr]; [|auto].
    destruct l as [l'|]; [|auto].
    apply (IHl l' eq_refl) in Hr. destruct Hr as [Hr|(p & Hp & ->)]; [auto|].
    right. exists (ch0 :: p). split; [now constructor|].
    now rewrite <- app_assoc.
Qed.

Lemma walk_keeps t : forall prefix codes s,
  (exists c, dict_get codes s = Some c) ->
  exists c, dict_get (walk t prefix codes) s = Some c.
Proof.
  induction t as [sy f l r IHl IHr] using Node_ind; intros prefix codes s H.
  destruct sy as [s0|]; simpl.
  - destruct (Byte.byte_eq_dec s s0) as [->|N].
    + rewrite dict_get_set_same. eauto.
    + now rewrite dict_get_set_other.
  - assert (Hl : exists c, dict_get
               (match l with
                | Some l' => walk l' (prefix ++ [ch0]) codes
                | None => codes
                end) s = Some c).
    { destruct l as [l'|]; [now apply (IHl l' eq_refl)|assumption]. }
    destruct r as [r'|]; [now apply (IHr r' eq_refl)|assumption].
Qed.

Lemma walk_covers t : forall prefix codes s,
  In s (leaves t) -> exists c, dict_get (walk t prefix codes) s = Some c.
Proof.
  induction t as [sy f l r IHl IHr] using Node_ind; intros prefix codes s H.
  destruct sy as [s0|]; simpl in *.
  - destruct H as [->|[]]. rewrite dict_get_set_same. eauto.
  - apply in_app_or in H. destruct H as [H|H].
    + destruct l as [l'|]; [|contradiction].
      pose proof (IHl l' eq_refl (prefix ++ [ch0]) codes s H) as Hl.
      destruct r as [r'|]; [now apply walk_keeps|assumption].
    + destruct r as [r'|]; [|contradiction].
      now apply (IHr r' eq_refl).
Qed.

(** The code table of any tree: its keys are the symbols of the leaves,
    every code is the code of a path to a leaf of its symbol. *)
Lemma make_codes_path root s c :
  dict_get (make_codes root) s = Some c ->
  exists r p, root = Some r /\ path_to r p s /\ c = code_of_path p.
Proof.
  destruct root as [r|]; simpl; [|discriminate].
  intros H. apply walk_get in H. destruct H as [H|(p & Hp & ->)].
  - discriminate.
  - eauto.
Qed.

Lemma make_codes_keys root s :
  (exists c, dict_get (make_codes root) s = Some c) <-> In s (root_leaves root).
Proof.
  split.
  - intros [c H]. apply make_codes_path in H.
    destruct H as (r & p & -> & Hp & _). simpl. eapply path_to_leaves; eauto.
  - destruct root as [r|]; simpl; [|tauto]. apply walk_covers.
Qed.

Lemma make_codes_nonempty root s c :
  dict_get (make_codes root) s = Some c -> c <> [].
Proof.
  intros H. apply make_codes_path in H. destruct H as (r & p & _ & _ & ->).
  apply code_of_path_nonempty.
Qed.

Lemma make_codes_prefix_free root s1 s2 c1 c2 :
  dict_get (make_codes root) s1 = Some c1 ->
  dict_get (make_codes root) s2 = Some c2 ->
  is_prefix c1 c2 -> s1 = s2.
Proof.
  intros H1 H2 P.
  apply make_codes_path in H1, H2.
  destruct H1 as (r & p1 & -> & P1 & ->).
  destruct H2 as (r' & p2 & E & P2 & ->). injection E as <-.
  destruct p1 as [|a p1].
  - inversion P1; subst. inversion P2; subst. reflexivity.
  - destruct p2 as [|b p2].
    + inversion P2; subst. inversion P1.
    + simpl in P. eapply path_to_prefix_free; eauto.
Qed.

(* ================================================================= *)
(** ** heapq: pushing and popping rearrange the heap, nothing more *)

Module heapq_facts.
Import heapq.

Lemma set_item_length heap i x : length (set_item heap i x) = length heap.
Proof.
  revert i. induction heap as [|a t IH]; intros [|i]; simpl; auto.
Qed.

Lemma set_item_same heap i x :
  nth_error heap i = Some x -> set_item heap i x = heap.
Proof.
  revert i. induction heap as [|a t IH]; intros [|i] H; simpl in *;
    try discriminate; auto.
  - now injection H as ->.
  - f_equal. auto.
Qed.

(** Exchanging the value put in slot [i] with a value on the side. *)
Lemma set_item_exchange heap i x y :
  i < length heap ->
  Permutation (x :: set_item heap i y) (y :: set_item heap i x).
Proof.
  revert i. induction heap as [|a t IH]; intros [|i] H; simpl in *; try lia.
  - apply perm_swap.
  - rewrite (perm_swap a x), (perm_swap a y).
    apply perm_skip. apply IH. lia.
Qed.

(** Moving the hole from slot [i] to slot [j]: the item of [j] fills
    [i], and the pending item lands in [j]. *)
Lemma hole_move heap i j x d :
  i < length heap -> j < length heap -> i <> j ->
  Permutation (set_item (set_item heap i (nth j heap d)) j x)
              (set_item heap i x).
Proof.
  revert i j. induction heap as [|a t IH]; intros [|i] [|j] Hi Hj N;
    simpl in *; try lia.
  - (* hole at the head, filled from slot j of the tail *)
    assert (E : nth_error t j = Some (nth j t d)).
    { apply nth_error_nth'. lia. }
    rewrite <- (set_item_same _ _ E) at 3.
    apply set_item_exchange. lia.
  - apply set_item_exchange. lia.
  - apply perm_skip. apply IH; lia.
Qed.

Lemma div2_lt n : 0 < n -> Nat.div2 (n - 1) < n.
Proof.
  intros H. pose proof (Nat.le_div2_diag_l (n - 1)). lia.
Qed.

(** The budget [fuel = pos] of [siftdown] is never used up: any larger
    budget gives the same heap. *)
Lemma siftdown_loop_enough : forall f1 f2 heap startpos pos newitem,
  pos <= f1 -> pos <= f2 ->
  siftdown_loop f1 heap startpos pos newitem
  = siftdown_loop f2 heap startpos pos newitem.
Proof.
  induction f1 as [|f1 IH]; intros f2 heap startpos pos newitem H1 H2.
  - assert (pos = 0) by lia. subst pos.
    destruct f2; simpl; now destruct (startpos <? 0).
  - destruct f2 as [|f2].
    + assert (pos = 0) by lia. subst pos.
      simpl. now destruct (startpos <? 0).
    + simpl. destruct (startpos <? pos) eqn:E; [|reflexivity].
      apply Nat.ltb_lt in E.
      destruct (Node_lt _ _); [|reflexivity].
      pose proof (Nat.le_div2_diag_l (pos - 1)).
      apply IH; lia.
Qed.

Lemma siftdown_loop_perm : forall fuel heap startpos pos newitem,
  pos < length heap ->
  Permutation (siftdown_loop fuel heap startpos pos newitem)
              (set_item heap pos newitem).
Proof.
  induction fuel as [|fuel IH]; intros heap startpos pos newitem Hp; simpl.
  - destruct (startpos <? pos); reflexivity.
  - destruct (startpos <? pos) eqn:E; [|reflexivity].
    apply Nat.ltb_lt in E.
    destruct (Node_lt _ _); [|reflexivity].
    assert (Hd : Nat.div2 (pos - 1) < pos) by (apply div2_lt; lia).
    rewrite IH by (rewrite set_item_length; lia).
    apply hole_move; lia.
Qed.

Lemma siftdown_perm heap startpos pos :
  Permutation (siftdown heap startpos pos) heap.
Proof.
  unfold siftdown. destruct (nth_error heap pos) as [x|] eqn:E; [|reflexivity].
  rewrite siftdown_loop_perm by (apply nth_error_Some; congruence).
  now rewrite set_item_same.
Qed.

(** Likewise for the budget [fuel = endpos] of [siftup]. *)
Lemma siftup_loop_enough : forall f1 f2 heap endpos pos newitem,
  endpos - pos <= f1 -> endpos - pos <= f2 ->
  siftup_loop f1 heap endpos pos newitem
  = siftup_loop f2 heap endpos pos newitem.
Proof.
  induction f1 as [|f1 IH]; intros f2 heap endpos pos newitem H1 H2.
  - assert (E : (2 * pos + 1 <? endpos) = false) by (apply Nat.ltb_ge; lia).
    destruct f2; cbn [siftup_loop]; now rewrite E.
  - destruct f2 as [|f2]; cbn [siftup_loop].
    + assert (E : (2 * pos + 1 <? endpos) = false) by (apply Nat.ltb_ge; lia).
      now rewrite E.
    + destruct (2 * pos + 1 <? endpos) eqn:E; [|reflexivity].
      apply Nat.ltb_lt in E.
      destruct ((2 * pos + 1 + 1 <? endpos) && _); apply IH; lia.
Qed.

Lemma siftup_loop_perm : forall fuel heap endpos pos newitem heap' pos',
  endpos <= length heap -> pos < length heap ->
  siftup_loop fuel heap endpos pos newitem = (heap', pos') ->
  pos' < length heap' /\
  Permutation (set_item heap' pos' newitem) (set_item heap pos newitem).
Proof.
  induction fuel as [|fuel IH];
    intros heap endpos pos newitem heap' pos' He Hp H; simpl in H.
  - destruct (_ <? _); injection H as <- <-; auto.
  - destruct (pos + (pos + 0) + 1 <? endpos) eqn:E;
      [|injection H as <- <-; auto].
    apply Nat.ltb_lt in E.
    set (childpos :=
           if (pos + (pos + 0) + 1 + 1 <? endpos)
              && negb (Node_lt (nth (pos + (pos + 0) + 1) heap newitem)
                               (nth (pos + (pos + 0) + 1 + 1) heap newitem))
           then pos + (pos + 0) + 1 + 1 else pos + (pos + 0) + 1) in *.
    assert (Hc : pos < childpos /\ childpos < endpos).
    { unfold childpos.
      destruct (pos + (pos + 0) + 1 + 1 <? endpos) eqn:E2; simpl.
      - apply Nat.ltb_lt in E2. destruct (negb _); lia.
      - lia. }
    apply IH in H; try (rewrite set_item_length; lia).
    destruct H as [Hl HP]. split; [exact Hl|].
    rewrite HP. apply hole_move; lia.
Qed.

Lemma siftup_perm heap pos : Permutation (siftup heap pos) heap.
Proof.
  unfold siftup. destruct (nth_error heap pos) as [x|] eqn:E; [|reflexivity].
  destruct (siftup_loop _ _ _ _ _) as [heap1 pos1] eqn:L.
  apply siftup_loop_perm in L; [|lia|apply nth_error_Some; congruence].
  destruct L as [_ L].
  rewrite siftdown_perm, L. now rewrite set_item_same.
Qed.

Lemma heappush_perm heap item :
  Permutation (heappush heap item) (item :: heap).
Proof.
  unfold heappush. rewrite siftdown_perm.
  symmetry. apply Permutation_cons_append.
Qed.

Lemma heappop_perm heap :
  heap <> [] ->
  exists item heap',
    heappop heap = Ok (item, heap') /\ Permutation (item :: heap') heap.
Proof.
  intros Hne. unfold heappop.
  destruct (rev heap) as [|lastelt rest_rev] eqn:R.
  { apply (f_equal (@rev _)) in R. rewrite rev_involutive in R.
    simpl in R. contradiction. }
  apply (f_equal (@rev _)) in R. rewrite rev_involutive in R. simpl in R.
  destruct (rev rest_rev) as [|returnitem tl].
  - exists lastelt, []. subst heap. auto.
  - exists returnitem, (siftup (set_item (returnitem :: tl) 0 lastelt) 0).
    split; [reflexivity|]. subst heap.
    rewrite siftup_perm. simpl.
    rewrite perm_swap. rewrite <- Permutation_cons_append.
    apply perm_swap.
Qed.

End heapq_facts.

(* ================================================================= *)
(** ** Frequency table and tree builder *)

Lemma count_fold_keys data : forall d,
  NoDup (dict_keys d) ->
  NoDup (dict_keys (fold_left count_step data d)) /\
  forall b, In b (dict_keys (fold_left count_step data d))
            <-> In b (dict_keys d) \/ In b data.
Proof.
  induction data as [|x data IH]; intros d ND; simpl.
  - split; [assumption|]. tauto.
  - assert (ND' : NoDup (dict_keys (count_step d x))).
    { unfold count_step. rewrite dict_keys_set.
      destruct (in_dec _ _ _); [assumption|].
      apply NoDup_app; [assumption|repeat constructor; tauto|].
      intros a Ha [<-|[]]. contradiction. }
    destruct (IH _ ND') as [N1 N2]. split; [assumption|].
    intros b. rewrite N2. unfold count_step. rewrite dict_keys_set.
    destruct (in_dec _ _ _) as [I|I].
    + split; [tauto|]. intros [H|[<-|H]]; auto.
    + rewrite in_app_iff. simpl. tauto.
Qed.

Lemma build_freq_map_keys data :
  NoDup (dict_keys (build_freq_map data)) /\
  forall b, In b (dict_keys (build_freq_map data)) <-> In b data.
Proof.
  destruct (@count_fold_keys data [] (NoDup_nil _)) as [N1 N2].
  split; [exact N1|]. intros b. unfold build_freq_map. fold count_step.
  rewrite N2. simpl. tauto.
Qed.

Lemma count_fold_repeat b n : forall c,
  fold_left count_step (repeat b n) [(b, c)] = [(b, (c + Z.of_nat n)%Z)].
Proof.
  induction n as [|n IH]; intros c.
  - simpl. now rewrite Z.add_0_r.
  - cbn [repeat fold_left]. unfold count_step at 2. simpl.
    rewrite byte_eqb_refl. rewrite IH. do 2 f_equal. lia.
Qed.

(** [N >= 1] copies of one byte: one entry, counting [N]. *)
Lemma build_freq_map_repeat b n :
  build_freq_map (repeat b (S n)) = [(b, Z.of_nat (S n))].
Proof.
  unfold build_freq_map. cbn [repeat fold_left].
  unfold count_step at 2. simpl. rewrite count_fold_repeat.
  do 2 f_equal. lia.
Qed.

Lemma heap_from_freq_perm fm :
  Permutation (heap_from_freq fm) (map leaf_of fm).
Proof.
  unfold heap_from_freq.
  enough (G : forall acc,
            Permutation
              (fold_left
                 (fun h '(s, fr) => heapq.heappush h (new_Node (Some s) fr))
                 fm acc)
              (acc ++ map leaf_of fm)) by apply (G []).
  induction fm as [|[s f] fm IH]; intros acc; simpl.
  - now rewrite app_nil_r.
  - rewrite IH. rewrite heapq_facts.heappush_perm.
    change (leaf_of (s, f)) with (new_Node (Some s) f).
    apply Permutation_middle.
Qed.

Lemma flat_map_leaves_leaf_of fm :
  flat_map leaves (map leaf_of fm) = dict_keys fm.
Proof.
  induction fm as [|[s f] fm IH]; simpl; [reflexivity|]. now f_equal.
Qed.

Lemma Forall_well_formed_leaf_of fm : Forall well_formed (map leaf_of fm).
Proof.
  induction fm as [|[s f] fm IH]; simpl; constructor; auto. constructor.
Qed.

(** The merge loop: from a non-empty heap of well-formed trees to one
    well-formed tree with the same leaves. *)
Lemma build_tree_loop_spec : forall fuel h,
  length h <= fuel -> h <> [] -> Forall well_formed h ->
  exists t,
    build_tree_loop fuel h = Ok t /\ well_formed t /\
    Permutation (leaves t) (flat_map leaves h).
Proof.
  induction fuel as [|fuel IH]; intros h Hf Hne W.
  - destruct h; [congruence | simpl in Hf; lia].
  - simpl. destruct (1 <? length h) eqn:E.
    + apply Nat.ltb_lt in E.
      destruct (heapq_facts.heappop_perm Hne) as (a & h1 & -> & P1).
      cbn [bind].
      assert (Hne1 : h1 <> []).
      { apply Permutation_length in P1. simpl in P1.
        intros ->. simpl in P1. lia. }
      destruct (heapq_facts.heappop_perm Hne1) as (b & h2 & -> & P2).
      cbn [bind].
      set (p := mkNode None (freq a + freq b) (Some a) (Some b)).
      pose proof (heapq_facts.heappush_perm h2 p) as P3.
      assert (Wa : Forall well_formed (a :: b :: h2)).
      { eapply Permutation_Forall; [|exact W].
        symmetry. rewrite <- P1. now apply perm_skip. }
      inversion Wa as [|? ? Wa1 Wa2]; subst.
      inversion Wa2 as [|? ? Wb1 Wb2]; subst.
      destruct (IH (heapq.heappush h2 p)) as (t & Ht & Wt & Pt).
      * apply Permutation_length in P1, P2, P3. simpl in *. lia.
      * intros E0. rewrite E0 in P3. apply Permutation_nil in P3.
        discriminate.
      * eapply Permutation_Forall; [symmetry; exact P3|].
        constructor; [now constructor | assumption].
      * exists t. split; [exact Ht|]. split; [exact Wt|].
        rewrite Pt. rewrite (Permutation_flat_map leaves P3).
        rewrite <- (Permutation_flat_map leaves P1).
        simpl. rewrite <- (Permutation_flat_map leaves P2).
        simpl. now rewrite app_assoc.
    + apply Nat.ltb_ge in E.
      destruct h as [|r [|? ?]]; [congruence| |simpl in E; lia].
      simpl. exists r. inversion W; subst.
      split; [reflexivity|]. split; [assumption|].
      simpl. now rewrite app_nil_r.
Qed.

Lemma well_formed_one_leaf t :
  well_formed t -> sym t <> None -> length (leaves t) = 1.
Proof. destruct 1; simpl; [reflexivity|congruence]. Qed.

(** What the tree builder returns for a frequency table: no tree for the
    empty table, the wrapped leaf for a single entry, and otherwise a
    well-formed tree with an internal root whose leaves are the keys. *)
Lemma build_tree_spec fm :
  exists root,
    build_tree (heap_from_freq fm) = Ok root /\
    Permutation (root_leaves root) (dict_keys fm) /\
    match fm with
    | [] => root = None
    | [(s, f)] =>
        root = Some (mkNode None f (Some (new_Node (Some s) f)) None)
    | _ => exists t, root = Some t /\ well_formed t /\ sym t = None
    end.
Proof.
  pose proof (heap_from_freq_perm fm) as P.
  destruct fm as [|[s f] [|e fm]].
  - exists None. simpl. auto.
  - apply Permutation_sym in P. change (map leaf_of [(s, f)])
      with [leaf_of (s, f)] in P.
    apply Permutation_length_1_inv in P. rewrite P.
    eexists. split; [reflexivity|]. simpl. auto.
  - set (fm' := (s, f) :: e :: fm) in *.
    assert (L : length (heap_from_freq fm') = length fm').
    { rewrite (Permutation_length P). apply length_map. }
    assert (W : Forall well_formed (heap_from_freq fm')).
    { eapply Permutation_Forall; [symmetry; exact P|].
      apply Forall_well_formed_leaf_of. }
    destruct (heap_from_freq fm') as [|a [|b h]] eqn:Eh;
      [simpl in L; lia | simpl in L; lia |].
    destruct (@build_tree_loop_spec (length (a :: b :: h)) (a :: b :: h))
      as (t & Ht & Wt & Pt); [lia|discriminate|assumption|].
    assert (PK : Permutation (leaves t) (dict_keys fm')).
    { rewrite Pt, (Permutation_flat_map leaves P).
      now rewrite flat_map_leaves_leaf_of. }
    exists (Some t). split.
    + unfold build_tree. rewrite Ht. reflexivity.
    + split; [exact PK|]. exists t. repeat split; auto.
      destruct (sym t) eqn:Es; [|reflexivity].
      assert (length (leaves t) = 1).
      { apply well_formed_one_leaf; [assumption|congruence]. }
      apply Permutation_length in PK. simpl in PK. lia.
Qed.

(** C9: the tree builder returns a tree for every frequency table, and
    the code table made from it gives every symbol of the table a code,
    every code is non-empty, and the code of one symbol is never the
    beginning of the code of another symbol. *)
Theorem code_table_prefix_free (fm : dict Z) :
  exists root,
    build_tree (heap_from_freq fm) = Ok root /\
    (forall s, In s (dict_keys fm)
               <-> exists c, dict_get (make_codes root) s = Some c) /\
    (forall s c, dict_get (make_codes root) s = Some c -> c <> []) /\
    (forall s1 s2 c1 c2,
        s1 <> s2 ->
        dict_get (make_codes root) s1 = Some c1 ->
        dict_get (make_codes root) s2 = Some c2 ->
        ~ is_prefix c1 c2).
Proof.
  destruct (build_tree_spec fm) as (root & B & P & _).
  exists root. split; [exact B|]. split; [|split].
  - intros s. rewrite make_codes_keys. split; intros H.
    + eapply Permutation_in; [symmetry; exact P | exact H].
    + eapply Permutation_in; [exact P | exact H].
  - intros s c. apply make_codes_nonempty.
  - intros s1 s2 c1 c2 N H1 H2 Pre. apply N.
    eapply make_codes_prefix_free; eauto.
Qed.

(* ================================================================= *)
(** ** The bit packer *)

Lemma pad_bits_spec bits :
  bits <> [] ->
  exists extra,
    pad_bits bits = (bits ++ repeat ch0 extra, extra) /\
    extra < 8 /\ (length bits + extra) mod 8 = 0.
Proof.
  intros Hne. unfold pad_bits.
  destruct (length bits =? 0) eqn:E.
  { apply Nat.eqb_eq in E. destruct bits; [congruence | discriminate]. }
  exists ((8 - length bits mod 8) mod 8). split; [reflexivity|].
  pose proof (Nat.mod_upper_bound (length bits) 8 ltac:(lia)) as U.
  split; [apply Nat.mod_upper_bound; lia|].
  pose proof (Nat.div_mod_eq (length bits) 8) as D.
  destruct (Nat.eq_dec (length bits mod 8) 0) as [Z0|NZ].
  - rewrite Z0. simpl. now rewrite Nat.add_0_r.
  - rewrite (Nat.mod_small (8 - length bits mod 8)) by lia.
    replace (length bits + (8 - length bits mod 8))
      with ((length bits / 8 + 1) * 8) by lia.
    apply Nat.Div0.mod_mul.
Qed.

(** Eight binary digits make a byte that prints back as those digits. *)
Lemma chunk_roundtrip c :
  length c = 8 -> Forall is_bit c ->
  exists b,
    (v <- int_base2 c ;; bytearray_item v) = Ok b /\ format_08b b = c.
Proof.
  intros L F.
  do 8 (destruct c as [|? c]; [discriminate|]).
  destruct c; [|discriminate]. clear L.
  repeat match goal with
         | H : Forall _ (_ :: _) |- _ => inversion H; subst; clear H
         | H : Forall _ [] |- _ => clear H
         end.
  repeat match goal with
         | H : is_bit _ |- _ => destruct H; subst
         end;
    (eexists; split; vm_compute; reflexivity).
Qed.

Lemma range8_multiple k : range8 (8 * k) = map (fun j => 8 * j) (seq 0 k).
Proof.
  unfold range8. do 2 f_equal.
  replace (8 * k + 7) with (7 + k * 8) by lia.
  rewrite Nat.div_add by lia. reflexivity.
Qed.

Lemma skipn_skipn_add A (l : list A) a b : skipn a (skipn b l) = skipn (a + b) l.
Proof. apply skipn_skipn. Qed.

Lemma bits_to_bytes_from_chunks bits : forall k a,
  Forall is_bit bits -> length (skipn (8 * a) bits) = 8 * k ->
  exists bs,
    bits_to_bytes_from bits (map (fun j => 8 * j) (seq a k)) = Ok bs /\
    bytes_to_bits bs = skipn (8 * a) bits.
Proof.
  induction k as [|k IH]; intros a F L.
  - exists []. split; [reflexivity|].
    destruct (skipn (8 * a) bits); [reflexivity | discriminate].
  - cbn [seq map bits_to_bytes_from].
    set (rest := skipn (8 * a) bits) in *.
    assert (Fr : Forall is_bit rest).
    { unfold rest. rewrite <- (firstn_skipn (8 * a) bits) in F.
      apply Forall_app in F. tauto. }
    destruct (@chunk_roundtrip (firstn 8 rest)) as (b & Hb & Fb).
    { rewrite length_firstn. lia. }
    { rewrite <- (firstn_skipn 8 rest) in Fr. apply Forall_app in Fr. tauto. }
    destruct (IH (S a) F) as (bs & Hbs & Ebs).
    { replace (8 * S a) with (8 + 8 * a) by lia.
      rewrite <- skipn_skipn_add. fold rest. rewrite length_skipn. lia. }
    exists (b :: bs). split.
    + destruct (int_base2 (firstn 8 rest)) as [v|e]; [|discriminate].
      cbn [bind] in *. rewrite Hb. cbn [bind]. rewrite Hbs. reflexivity.
    + unfold bytes_to_bits in *. cbn [map concat]. rewrite Fb, Ebs.
      replace (8 * S a) with (8 + 8 * a) by lia.
      rewrite <- skipn_skipn_add. fold rest. apply firstn_skipn.
Qed.

(** A bit-string of whole bytes is packed and printed back unchanged. *)
Lemma bits_to_bytes_roundtrip bits :
  Forall is_bit bits -> length bits mod 8 = 0 ->
  exists bs, bits_to_bytes bits = Ok bs /\ bytes_to_bits bs = bits /\
             8 * length bs = length bits.
Proof.
  intros F M. unfold bits_to_bytes.
  pose proof (Nat.div_mod_eq (length bits) 8) as D. rewrite M in D.
  set (k := length bits / 8) in *.
  assert (E : range8 (length bits) = map (fun j => 8 * j) (seq 0 k)).
  { rewrite <- range8_multiple. f_equal. lia. }
  rewrite E.
  destruct (@bits_to_bytes_from_chunks bits k 0 F) as (bs & H1 & H2).
  { simpl. unfold skipn. lia. }
  change (skipn (8 * 0) bits) with bits in H2.
  exists bs. split; [exact H1|]. split; [exact H2|].
  rewrite <- H2.
  clear. unfold bytes_to_bits. induction bs as [|b bs IH]; [reflexivity|].
  cbn [map concat]. rewrite length_app. cbn [length] in *.
  unfold format_08b at 1. rewrite length_map. simpl length. lia.
Qed.

(* ================================================================= *)
(** ** Encoding and decoding along the tree *)

Lemma path_to_erase_freq t c s : path_to t c s -> path_to (erase_freq t) c s.
Proof. induction 1; simpl; now constructor. Qed.

Lemma path_to_nil_sym t s : path_to t [] s -> sym t = Some s.
Proof. inversion 1; reflexivity. Qed.

Lemma path_to_cons_sym t a c s : path_to t (a :: c) s -> sym t = None.
Proof. inversion 1; reflexivity. Qed.

(** Reading the bits of a path from an internal node emits the symbol of
    the leaf and goes back to the root. *)
Lemma decode_path root node c s :
  path_to node c s -> c <> [] ->
  forall rest out,
    decode_loop root node (c ++ rest) out
    = decode_loop root root rest (out ++ [s]).
Proof.
  induction 1 as [s f l r|f l r c s H IH|f l r c s H IH];
    intros Hne rest out; [congruence| |].
  - cbn [app decode_loop left right]. change (Ascii.eqb ch0 ch0) with true.
    cbv iota. destruct c as [|a c].
    + rewrite (path_to_nil_sym H). reflexivity.
    + rewrite (path_to_cons_sym H). apply IH. discriminate.
  - cbn [app decode_loop left right]. change (Ascii.eqb ch1 ch0) with false.
    cbv iota. destruct c as [|a c].
    + rewrite (path_to_nil_sym H). reflexivity.
    + rewrite (path_to_cons_sym H). apply IH. discriminate.
Qed.

(** The code of a symbol in the table of a tree with an internal root is
    a non-empty path to a leaf with that symbol. *)
Lemma make_codes_internal t s c :
  sym t = None ->
  dict_get (make_codes (Some t)) s = Some c ->
  path_to t c s /\ c <> [].
Proof.
  intros St H. apply make_codes_path in H.
  destruct H as (r & p & E & Hp & ->). injection E as <-.
  destruct p as [|a p].
  - apply path_to_nil_sym in Hp. congruence.
  - split; [exact Hp | discriminate].
Qed.

Lemma encode_bytes_spec t raw :
  sym t = None ->
  (forall b, In b raw -> In b (leaves t)) ->
  exists bitstr,
    encode_bytes raw (make_codes (Some t)) = Ok bitstr /\
    Forall is_bit bitstr /\
    (raw <> [] -> bitstr <> []) /\
    forall out,
      decode_loop (erase_freq t) (erase_freq t) bitstr out = Ok (out ++ raw).
Proof.
  intros St. unfold encode_bytes.
  induction raw as [|b raw IH]; intros Hin.
  - exists []. simpl. split; [reflexivity|]. split; [constructor|].
    split; [congruence|]. intros out. now rewrite app_nil_r.
  - destruct IH as (bits & E & F & _ & D).
    { intros x Hx. apply Hin. now right. }
    assert (Hb : In b (root_leaves (Some t))) by (apply Hin; now left).
    apply make_codes_keys in Hb. destruct Hb as [c Hc].
    destruct (@make_codes_internal t b c St Hc) as [Pc Nc].
    destruct (encode_pieces raw (make_codes (Some t))) as [ps|e] eqn:Eps;
      [|discriminate].
    cbn [bind] in E. injection E as <-.
    exists (c ++ concat ps). cbn [encode_pieces]. rewrite Hc, Eps.
    cbn [bind concat]. split; [reflexivity|]. split; [|split].
    + apply Forall_app. split; [|exact F]. eapply path_to_bits; eauto.
    + intros _ E0. apply app_eq_nil in E0. tauto.
    + intros out.
      rewrite (@decode_path (erase_freq t) _ _ _ (path_to_erase_freq Pc) Nc).
      rewrite D. now rewrite <- app_assoc.
Qed.

Lemma firstn_app_exact A (a b : list A) n :
  n = length a -> firstn n (a ++ b) = a.
Proof.
  intros ->. rewrite firstn_app, Nat.sub_diag, firstn_all. simpl.
  apply app_nil_r.
Qed.

(** A serialized well-formed tree takes two bytes per leaf and one per
    internal node. *)
Lemma serialize_well_formed_length t b :
  well_formed t -> serialize (Some t) = Ok b ->
  length b + 1 = 3 * length (leaves t).
Proof.
  intros W. revert b. induction W as [s f|f l r Wl IHl Wr IHr]; intros b H.
  - rewrite serialize_leaf in H. injection H as <-. reflexivity.
  - apply serialize_internal_inv in H.
    destruct H as (l' & r' & bl & br & El & Er & Sl & Sr & ->).
    injection El as <-. injection Er as <-.
    specialize (IHl _ Sl). specialize (IHr _ Sr).
    simpl. rewrite !length_app. lia.
Qed.

Lemma NoDup_bytes_length (l : list byte) : NoDup l -> length l <= 256.
Proof.
  intros ND.
  assert (N : NoDup (map Byte.to_nat l)).
  { apply NoDup_map_NoDup_ForallPairs; [|exact ND].
    intros x y _ _ E.
    pose proof (Byte.of_to_nat x) as Hx. pose proof (Byte.of_to_nat y) as Hy.
    rewrite E in Hx. congruence. }
  apply NoDup_incl_length with (l' := seq 0 256) in N.
  - now rewrite length_map, length_seq in N.
  - intros n Hn. apply in_map_iff in Hn. destruct Hn as (x & <- & _).
    apply in_seq. pose proof (Byte.to_nat_bounded x). lia.
Qed.

(* ================================================================= *)
(** ** The container *)

Lemma byte_val_low k : byte_val (byte_of_N_low k) = Z.of_N (k mod 256).
Proof.
  unfold byte_of_N_low, byte_val.
  destruct (Byte.of_N (k mod 256)) as [b|] eqn:E.
  - now rewrite (Byte.to_of_N _ E).
  - pose proof (Byte.to_of_N_option_map (k mod 256)) as H.
    rewrite E in H. simpl in H.
    assert (k mod 256 < 256)%N by (apply N.mod_upper_bound; discriminate).
    destruct (N.leb_spec (k mod 256) 255); [discriminate | lia].
Qed.

Lemma byte_val_range b : (0 <= byte_val b < 256)%Z.
Proof. unfold byte_val. pose proof (Byte.to_N_bounded b). lia. Qed.

Lemma pack_unpack_u32 n :
  (0 <= n < 4294967296)%Z ->
  exists b0 b1 b2 b3,
    pack_u32_be n = Ok [b0; b1; b2; b3] /\
    unpack_u32_be [b0; b1; b2; b3] = Ok n.
Proof.
  intros H. unfold pack_u32_be.
  replace ((0 <=? n) && (n <? 4294967296))%Z with true
    by (symmetry; apply andb_true_iff; split;
        [apply Z.leb_le | apply Z.ltb_lt]; lia).
  do 4 eexists. split; [reflexivity|].
  unfold unpack_u32_be. rewrite !byte_val_low. f_equal.
  rewrite !N2Z.inj_mod, !N2Z.inj_div, Z2N.id by lia.
  change (Z.of_N 256) with 256%Z. change (Z.of_N 65536) with 65536%Z.
  change (Z.of_N 16777216) with 16777216%Z.
  Z.to_euclidean_division_equations. lia.
Qed.

Lemma pack_u8_small n :
  (0 <= n < 256)%Z ->
  exists b, pack_u8 n = Ok [b] /\ byte_val b = n.
Proof.
  intros H. unfold pack_u8.
  replace ((0 <=? n) && (n <? 256))%Z with true
    by (symmetry; apply andb_true_iff; split;
        [apply Z.leb_le | apply Z.ltb_lt]; lia).
  eexists. split; [reflexivity|].
  rewrite byte_val_low, N2Z.inj_mod, Z2N.id by lia.
  change (Z.of_N 256) with 256%Z. apply Z.mod_small. lia.
Qed.

Lemma bytes_eqb_refl b : bytes_eqb b b = true.
Proof. unfold bytes_eqb. destruct (list_eq_dec _ b b); congruence. Qed.

Lemma bytes_eqb_eq a b : bytes_eqb a b = true <-> a = b.
Proof.
  unfold bytes_eqb. destruct (list_eq_dec _ a b); split; congruence.
Qed.

Lemma nth_error_app_exact A (a : list A) x b n :
  n = length a -> nth_error (a ++ x :: b) n = Some x.
Proof.
  intros ->. rewrite nth_error_app2 by lia. now rewrite Nat.sub_diag.
Qed.

Lemma skipn_app_exact A (a b : list A) n :
  n = length a -> skipn n (a ++ b) = b.
Proof.
  intros ->. rewrite skipn_app, Nat.sub_diag, skipn_all. reflexivity.
Qed.

(** Parsing what the compressor assembled gives back the parts. *)
Lemma parse_container_assembled tree_blob pad comp b0 b1 b2 b3 pb :
  unpack_u32_be [b0; b1; b2; b3] = Ok (len tree_blob) ->
  byte_val pb = pad ->
  parse_container
    (MAGIC ++ [b0; b1; b2; b3] ++ tree_blob ++ [pb] ++ comp)
  = Ok (len tree_blob, tree_blob, pad, comp).
Proof.
  intros U P. unfold parse_container.
  set (raw := MAGIC ++ [b0; b1; b2; b3] ++ tree_blob ++ [pb] ++ comp).
  assert (L : len raw = (9 + len tree_blob + len comp)%Z).
  { unfold raw, len. rewrite !length_app. simpl length. lia. }
  replace (len raw <? 9)%Z with false
    by (symmetry; apply Z.ltb_ge; unfold len in *; lia).
  change (firstn 4 raw) with MAGIC. rewrite bytes_eqb_refl. cbn [negb].
  change (firstn 4 (skipn 4 raw)) with [b0; b1; b2; b3]. rewrite U.
  cbn [bind].
  replace (8 + len tree_blob + 1 >? len raw)%Z with false
    by (symmetry; rewrite Z.gtb_ltb; apply Z.ltb_ge; unfold len in *; lia).
  change (skipn (Z.to_nat 8) raw) with (tree_blob ++ [pb] ++ comp).
  rewrite firstn_app_exact by (unfold len; lia).
  replace (Z.to_nat (8 + len tree_blob)) with (8 + length tree_blob)
    by (unfold len; lia).
  assert (Sk : skipn (Z.to_nat (8 + len tree_blob + 1)) raw = comp).
  { unfold raw.
    replace (MAGIC ++ [b0; b1; b2; b3] ++ tree_blob ++ [pb] ++ comp)
      with ((MAGIC ++ [b0; b1; b2; b3] ++ tree_blob ++ [pb]) ++ comp)
      by now rewrite <- !app_assoc.
    apply skipn_app_exact. rewrite !length_app. simpl length.
    unfold len. lia. }
  rewrite Sk.
  unfold raw. cbn [MAGIC app nth_error Nat.add].
  rewrite nth_error_app_exact by reflexivity.
  now rewrite P.
Qed.

(* ================================================================= *)
(** ** The pipeline of the compressor *)

(** Encoding, padding and packing along a tree with an internal root
    that has a leaf for every byte of the data. *)
Lemma pack_stage t raw :
  sym t = None -> raw <> [] ->
  (forall b, In b raw -> In b (leaves t)) ->
  exists bitstr pad compressed,
    encode_bytes raw (make_codes (Some t)) = Ok bitstr /\
    pad_bits bitstr = (bitstr ++ repeat ch0 pad, pad) /\
    pad < 8 /\
    bits_to_bytes (bitstr ++ repeat ch0 pad) = Ok compressed /\
    bytes_to_bits compressed = bitstr ++ repeat ch0 pad /\
    compressed <> [] /\
    decode_loop (erase_freq t) (erase_freq t) bitstr [] = Ok raw.
Proof.
  intros St Hne Hin.
  destruct (@encode_bytes_spec t raw St Hin) as (bitstr & E & F & N & D).
  specialize (N Hne).
  destruct (@pad_bits_spec bitstr N) as (pad & P & Hp & M).
  destruct (@bits_to_bytes_roundtrip (bitstr ++ repeat ch0 pad))
    as (compressed & B & R & L).
  { apply Forall_app. split; [exact F|].
    apply Forall_forall. intros c Hc. apply repeat_spec in Hc. now left. }
  { now rewrite length_app, repeat_length. }
  exists bitstr, pad, compressed.
  split; [exact E|]. split; [exact P|]. split; [exact Hp|].
  split; [exact B|]. split; [exact R|]. split; [|apply (D [])].
  intros ->. rewrite length_app in L. simpl in L.
  destruct bitstr; [congruence | simpl in L; lia].
Qed.

Lemma build_freq_map_nonempty raw :
  build_freq_map raw <> [] -> raw <> [].
Proof. intros H ->. now apply H. Qed.

Lemma serialize_wrapped_leaf f s g :
  serialize (Some (mkNode None f (Some (new_Node (Some s) g)) None))
  = Raise AttributeError.
Proof. reflexivity. Qed.

(** The three courses of the pipeline, by the number of distinct bytes:
    none, one, two or more. *)
Lemma huffman_encode_spec raw :
  match build_freq_map raw with
  | [] => raw = [] /\ huffman_encode raw = Ok (None, [], 0, [], [])
  | [(s, f)] => huffman_encode raw = Raise AttributeError
  | fm =>
      exists t bitstr pad tree_blob compressed,
        huffman_encode raw = Ok (Some t, fm, pad, tree_blob, compressed) /\
        well_formed t /\
        serialize (Some t) = Ok tree_blob /\
        length tree_blob < 768 /\
        pad < 8 /\
        bytes_to_bits compressed = bitstr ++ repeat ch0 pad /\
        compressed <> [] /\
        decode_loop (erase_freq t) (erase_freq t) bitstr [] = Ok raw
  end.
Proof.
  unfold huffman_encode.
  destruct (build_freq_map_keys raw) as [ND K].
  destruct (build_tree_spec (build_freq_map raw)) as (root & B & P & C).
  rewrite B. cbn [bind].
  destruct (build_freq_map raw) as [|[s f] [|e fm]] eqn:Efm.
  - subst root. split; [|reflexivity].
    destruct raw as [|b raw]; [reflexivity|].
    destruct (proj2 (K b) (or_introl eq_refl)).
  - subst root.
    assert (Hne : raw <> []).
    { apply build_freq_map_nonempty. rewrite Efm. discriminate. }
    destruct (@pack_stage
                (mkNode None f (Some (new_Node (Some s) f)) None) raw
                eq_refl Hne)
      as (bitstr & pad & compressed & E & Pd & _ & Bb & _).
    { intros b Hb. apply K in Hb. exact Hb. }
    rewrite E. cbn [bind]. rewrite Pd, Bb. cbn [bind].
    now rewrite serialize_wrapped_leaf.
  - destruct C as (t & -> & W & St).
    assert (Hne : raw <> []).
    { apply build_freq_map_nonempty. rewrite Efm. discriminate. }
    destruct (@pack_stage t raw St Hne)
      as (bitstr & pad & compressed & E & Pd & Hp & Bb & R & Nc & D).
    { intros b Hb. apply K in Hb.
      eapply Permutation_in; [symmetry; exact P | exact Hb]. }
    destruct (@well_formed_serialize t W) as [tree_blob S1].
    exists t, bitstr, pad, tree_blob, compressed.
    rewrite E. cbn [bind]. rewrite Pd, Bb. cbn [bind]. rewrite S1.
    cbn [bind]. split; [reflexivity|]. split; [exact W|].
    split; [reflexivity|]. split; [|auto].
    pose proof (@serialize_well_formed_length t tree_blob W S1) as L.
    simpl in P. apply Permutation_length in P.
    apply NoDup_bytes_length in ND. unfold dict_keys in *.
    simpl length in *. lia.
Qed.

Lemma unpack_payload_roundtrip t bitstr pad tree_blob compressed raw :
  well_formed t -> serialize (Some t) = Ok tree_blob ->
  bytes_to_bits compressed = bitstr ++ repeat ch0 pad ->
  compressed <> [] ->
  decode_loop (erase_freq t) (erase_freq t) bitstr [] = Ok raw ->
  unpack_payload (len tree_blob) tree_blob (Z.of_nat pad) compressed = Ok raw.
Proof.
  intros W S1 R Nc D. unfold unpack_payload.
  replace (match compressed with [] => [] | _ :: _ => bytes_to_bits compressed end)
    with (bitstr ++ repeat ch0 pad)
    by (destruct compressed; [congruence | now rewrite R]).
  assert (Tr : (if (Z.of_nat pad >? 0)%Z
                then if (Z.of_nat pad >? len (bitstr ++ repeat ch0 pad))%Z
                     then Raise (ValueError PaddingTooBig)
                     else Ok (firstn (length (bitstr ++ repeat ch0 pad)
                                      - Z.to_nat (Z.of_nat pad))
                                (bitstr ++ repeat ch0 pad))
                else Ok (bitstr ++ repeat ch0 pad)) = Ok bitstr).
  { destruct (Z.of_nat pad >? 0)%Z eqn:E0.
    - replace (Z.of_nat pad >? len (bitstr ++ repeat ch0 pad))%Z with false.
      + f_equal. apply firstn_app_exact.
        rewrite length_app, repeat_length. lia.
      + symmetry. rewrite Z.gtb_ltb. apply Z.ltb_ge.
        unfold len. rewrite length_app, repeat_length. lia.
    - rewrite Z.gtb_ltb in E0. apply Z.ltb_ge in E0.
      replace pad with 0 by lia. simpl. now rewrite app_nil_r. }
  rewrite Tr. cbn [bind].
  pose proof (@serialize_length t tree_blob S1) as L2.
  replace (len tree_blob >? 0)%Z with true
    by (symmetry; rewrite Z.gtb_ltb; apply Z.ltb_lt; unfold len; lia).
  destruct (@deserialize_serialized t tree_blob S1) as (t' & Dz & Et).
  rewrite Dz. cbn [bind]. rewrite (Et W). exact D.
Qed.

(* ================================================================= *)
(** ** The file store *)

Lemma write_file_same fs p c : write_file fs p c p = Some c.
Proof. unfold write_file. now rewrite String.eqb_refl. Qed.

Lemma write_file_other fs p c q : q <> p -> write_file fs p c q = fs q.
Proof.
  intros N. unfold write_file.
  destruct (String.eqb q p) eqn:E; [|reflexivity].
  apply String.eqb_eq in E. contradiction.
Qed.

Lemma takes_normal_path_inv src raw :
  takes_normal_path src raw = true ->
  startswith raw MAGIC || is_huff_name src = false
  /\ is_compressed_type src = false.
Proof.
  unfold takes_normal_path.
  intros H. apply andb_true_iff in H. destruct H as [H1 H2].
  apply negb_true_iff in H1, H2. auto.
Qed.

(** Enter [compress_file] on a readable source that takes the normal
    path. *)
Ltac enter_normal_path Hfs Hn :=
  let H1 := fresh in
  let H2 := fresh in
  destruct (takes_normal_path_inv _ _ Hn) as [H1 H2];
  unfold compress_file, read_file_bytes;
  rewrite Hfs, H1, H2.

(** The sizes the pipeline can produce: the length field and the pad
    field can always be packed. *)
Lemma huffman_encode_sizes raw root freq pad tree_blob compressed :
  huffman_encode raw = Ok (root, freq, pad, tree_blob, compressed) ->
  length tree_blob < 768 /\ pad < 8 /\ freq = build_freq_map raw.
Proof.
  intros H. pose proof (huffman_encode_spec raw) as S.
  assert (F : freq = build_freq_map raw).
  { unfold huffman_encode in H.
    apply bind_ok in H. destruct H as (r & _ & H).
    apply bind_ok in H. destruct H as (bs & _ & H).
    destruct (pad_bits bs) as [pd p].
    apply bind_ok in H. destruct H as (cs & _ & H).
    apply bind_ok in H. destruct H as (tb & _ & H).
    congruence. }
  destruct (build_freq_map raw) as [|[s f] [|e fm]].
  - destruct S as [_ S]. rewrite S in H. injection H as <- <- <- <- <-.
    simpl. repeat split; lia.
  - congruence.
  - destruct S as (t & bitstr & pad' & blob' & comp' & S & _ & _ & L & P & _).
    rewrite S in H. injection H as <- <- <- <- <-. auto.
Qed.

Lemma pack_fields (tree_blob : bytes) (pad : nat) :
  length tree_blob < 768 -> pad < 8 ->
  exists b0 b1 b2 b3 pb,
    pack_u32_be (len tree_blob) = Ok [b0; b1; b2; b3] /\
    unpack_u32_be [b0; b1; b2; b3] = Ok (len tree_blob) /\
    pack_u8 (Z.of_nat pad) = Ok [pb] /\
    byte_val pb = Z.of_nat pad.
Proof.
  intros L P.
  destruct (@pack_unpack_u32 (len tree_blob)) as (b0 & b1 & b2 & b3 & H1 & H2).
  { unfold len. lia. }
  destruct (@pack_u8_small (Z.of_nat pad)) as (pb & H3 & H4); [lia|].
  exists b0, b1, b2, b3, pb. auto.
Qed.

Lemma two_distinct_freq_map raw a b :
  In a raw -> In b raw -> a <> b ->
  exists e1 e2 fm, build_freq_map raw = e1 :: e2 :: fm.
Proof.
  intros Ha Hb N. destruct (build_freq_map_keys raw) as [_ K].
  apply K in Ha, Hb.
  destruct (build_freq_map raw) as [|[s f] [|e2 fm]]; simpl in *.
  - contradiction.
  - destruct Ha as [<-|[]], Hb as [<-|[]]. congruence.
  - eauto.
Qed.

(* ================================================================= *)
(** ** Path names *)

Lemma ascii_list_eqb_eq a b : ascii_list_eqb a b = true <-> a = b.
Proof.
  unfold ascii_list_eqb. destruct (list_eq_dec _ a b); split; congruence.
Qed.

Lemma endswith_app s suffix :
  endswith s suffix = true <-> exists pre, s = pre ++ suffix.
Proof.
  unfold endswith. rewrite andb_true_iff, Nat.leb_le, ascii_list_eqb_eq.
  split.
  - intros [L E]. exists (firstn (length s - length suffix) s).
    pose proof (firstn_skipn (length s - length suffix) s) as FS.
    rewrite E in FS. now symmetry.
  - intros [pre ->]. rewrite length_app. split; [lia|].
    apply skipn_app_exact. lia.
Qed.

Lemma lstrip_keeps_huff pre :
  exists pre', lstrip (pre ++ chars ".huff") = pre' ++ chars ".huff".
Proof.
  induction pre as [|c pre IH].
  - exists []. reflexivity.
  - simpl. destruct (is_space c); [exact IH|].
    exists (c :: pre). reflexivity.
Qed.

(** A name that ends with ".huff" still does after [strip] and [lower]. *)
Lemma clean_path_keeps_huff src :
  endswith (chars src) (chars ".huff") = true -> is_huff_name src = true.
Proof.
  intros H. apply endswith_app in H. destruct H as [pre E].
  unfold is_huff_name, clean_path, strip. rewrite E.
  destruct (lstrip_keeps_huff pre) as [pre' ->].
  rewrite rev_app_distr.
  change (lstrip (rev (chars ".huff") ++ rev pre'))
    with (rev (chars ".huff") ++ rev pre').
  rewrite rev_app_distr, !rev_involutive.
  unfold lower. rewrite map_app.
  apply endswith_app. eexists. reflexivity.
Qed.

(* ================================================================= *)
(** ** The compressor *)

(** C5: a readable source that begins with the magic marker, or whose
    name ends with ".huff", is skipped: [compress_file] returns no tree,
    the skipped flag and the note, and the file store is left as it
    was, so no destination is written or modified. *)
Theorem already_compressed_source_is_skipped fs src dst raw :
  fs src = Some raw ->
  startswith raw MAGIC = true \/ endswith (chars src) (chars ".huff") = true ->
  exists stats,
    compress_file fs src dst = (fs, Ok (None, stats)) /\
    skipped stats = true /\
    note stats = Some note_already_huff.
Proof.
  intros Hfs Hc.
  assert (C : startswith raw MAGIC || is_huff_name src = true).
  { apply orb_true_iff. destruct Hc as [Hc|Hc]; [now left|right].
    now apply clean_path_keeps_huff. }
  unfold compress_file, read_file_bytes. rewrite Hfs, C.
  eexists. split; [reflexivity|]. split; reflexivity.
Qed.

Lemma already_compressed_source_is_skipped_witness :
  exists stats,
    compress_file (write_file (fun _ => None) "old.huff" sample_text)
      "old.huff" "new.huff"
    = (write_file (fun _ => None) "old.huff" sample_text, Ok (None, stats)) /\
    skipped stats = true /\
    note stats = Some note_already_huff.
Proof.
  apply (@already_compressed_source_is_skipped
           (write_file (fun _ => None) "old.huff" sample_text)
           "old.huff" "new.huff" sample_text); [reflexivity|].
  right. reflexivity.
Defined.

Lemma startswith_repeat_magic b n : startswith (repeat b n) MAGIC = false.
Proof.
  unfold startswith. destruct (bytes_eqb _ _) eqn:E; [|reflexivity].
  apply bytes_eqb_eq in E. exfalso.
  do 4 (destruct n as [|n]; [discriminate|]).
  unfold MAGIC in E. cbn in E. injection E as E1 E2 E3 E4.
  rewrite E1 in E2. discriminate.
Qed.

(** C2, what the code does: for [N >= 1] copies of one byte, on the
    normal path, the builder wraps the lone leaf under one internal node
    and the byte gets the code "0"; but [serialize] then reads [.sym] of
    the missing right child, so [compress_file] raises [AttributeError]
    and writes nothing: there is no compressed output to decompress. *)
Theorem single_symbol_compress_raises fs src dst b n :
  fs src = Some (repeat b (S n)) ->
  is_huff_name src = false -> is_compressed_type src = false ->
  let N := Z.of_nat (S n) in
  let root := mkNode None N (Some (new_Node (Some b) N)) None in
  build_tree (heap_from_freq (build_freq_map (repeat b (S n))))
    = Ok (Some root) /\
  make_codes (Some root) = [(b, [ch0])] /\
  serialize (Some root) = Raise AttributeError /\
  compress_file fs src dst = (fs, Raise AttributeError).
Proof.
  intros Hfs Hh Hc N root.
  split; [|split; [|split]].
  - rewrite build_freq_map_repeat. reflexivity.
  - reflexivity.
  - reflexivity.
  - assert (Hn : takes_normal_path src (repeat b (S n)) = true).
    { unfold takes_normal_path.
      now rewrite startswith_repeat_magic, Hh, Hc. }
    enter_normal_path Hfs Hn.
    pose proof (huffman_encode_spec (repeat b (S n))) as S.
    rewrite build_freq_map_repeat in S. now rewrite S.
Qed.

Lemma single_symbol_compress_raises_witness :
  compress_file (write_file (fun _ => None) "in.txt" (repeat x61 40))
    "in.txt" "out.huff"
  = (write_file (fun _ => None) "in.txt" (repeat x61 40),
     Raise AttributeError).
Proof.
  apply (@single_symbol_compress_raises
           (write_file (fun _ => None) "in.txt" (repeat x61 40))
           "in.txt" "out.huff" x61 39); reflexivity.
Defined.

(** The nine bytes [compress_file] first writes for an empty input:
    magic, tree length 0, pad count 0. *)
Lemma empty_container_decodes :
  parse_container (MAGIC ++ [x00; x00; x00; x00] ++ [] ++ [x00] ++ [])
    = Ok (0%Z, [], 0%Z, []) /\
  unpack_payload 0 [] 0 [] = Ok [].
Proof. split; reflexivity. Qed.

(** C3, what the code does: for an empty source on the normal path,
    [compress_file] writes the nine-byte container, finds its size 9 not
    below the original size 0, and copies the empty source over it; the
    destination ends up with zero bytes, which [decompress_file] rejects
    as too small. *)
Theorem empty_input_destination_is_copy fs src dst out :
  fs src = Some [] ->
  is_huff_name src = false -> is_compressed_type src = false ->
  src <> dst ->
  exists fs' stats,
    compress_file fs src dst = (fs', Ok (None, stats)) /\
    skipped stats = true /\
    fs' dst = Some [] /\
    decompress_file fs' dst out = (fs', Raise (ValueError TooSmall)).
Proof.
  intros Hfs Hh Hc Hd.
  assert (Hn : takes_normal_path src [] = true).
  { unfold takes_normal_path. now rewrite Hh, Hc. }
  enter_normal_path Hfs Hn.
  change (huffman_encode []) with
    (Ok (@None Node, @nil (byte * Z), 0, @nil byte, @nil byte)).
  cbv beta iota.
  change (pack_u32_be (len (@nil byte))) with (Ok [x00; x00; x00; x00]).
  change (pack_u8 (Z.of_nat 0)) with (Ok [x00]).
  cbv beta iota.
  change (container_size [] [] >=? len (@nil byte))%Z with true.
  cbv beta iota. unfold shutil_copy.
  assert (E : String.eqb src dst = false) by now apply String.eqb_neq.
  rewrite E. rewrite write_file_other by assumption. rewrite Hfs.
  do 2 eexists. split; [reflexivity|]. split; [reflexivity|].
  split; [apply write_file_same|].
  unfold decompress_file, read_file_bytes. rewrite write_file_same.
  reflexivity.
Qed.

Lemma empty_input_destination_is_copy_witness :
  exists fs' stats,
    compress_file (write_file (fun _ => None) "in.txt" []) "in.txt" "out.huff"
      = (fs', Ok (None, stats)) /\
    skipped stats = true /\
    fs' "out.huff"%string = Some [] /\
    decompress_file fs' "out.huff" "back"
      = (fs', Raise (ValueError TooSmall)).
Proof.
  apply (@empty_input_destination_is_copy
           (write_file (fun _ => None) "in.txt" [])
           "in.txt" "out.huff" "back");
    [reflexivity | reflexivity | reflexivity | discriminate].
Defined.

(** X27: on the normal path, when the assembled container is not
    smaller than the source and the destination is another file than
    the source, [compress_file] leaves the destination holding exactly
    the source bytes, touches no other file, and reports ratio 1.0,
    percent saved 0.0 and the skipped flag. *)
Theorem would_not_shrink_copies_source
    fs src dst raw root freq pad tree_blob compressed :
  fs src = Some raw ->
  takes_normal_path src raw = true ->
  huffman_encode raw = Ok (root, freq, pad, tree_blob, compressed) ->
  (container_size tree_blob compressed >= len raw)%Z ->
  src <> dst ->
  exists fs' stats,
    compress_file fs src dst = (fs', Ok (None, stats)) /\
    fs' dst = Some raw /\
    (forall p, p <> dst -> fs' p = fs p) /\
    compression_ratio stats = Some 1%Q /\
    space_saved_percent stats = Some 0%Q /\
    skipped stats = true.
Proof.
  intros Hfs Hn He Hs Hd.
  destruct (huffman_encode_sizes _ He) as (L & P & _).
  destruct (pack_fields tree_blob L P)
    as (b0 & b1 & b2 & b3 & pb & P1 & _ & P2 & _).
  enter_normal_path Hfs Hn. rewrite He, P1, P2.
  replace (container_size tree_blob compressed >=? len raw)%Z with true
    by (symmetry; apply Z.geb_le; lia).
  unfold shutil_copy.
  assert (E : String.eqb src dst = false) by now apply String.eqb_neq.
  rewrite E. rewrite write_file_other by assumption. rewrite Hfs.
  do 2 eexists. split; [reflexivity|].
  split; [apply write_file_same|]. split; [|repeat split].
  intros p Hp. now rewrite !write_file_other.
Qed.

Lemma would_not_shrink_copies_source_witness :
  exists fs' stats,
    compress_file (write_file (fun _ => None) "in.txt" [x61; x62])
      "in.txt" "out.huff" = (fs', Ok (None, stats)) /\
    fs' "out.huff"%string = Some [x61; x62] /\
    (forall p, p <> "out.huff"%string ->
               fs' p = write_file (fun _ => None) "in.txt" [x61; x62] p) /\
    compression_ratio stats = Some 1%Q /\
    space_saved_percent stats = Some 0%Q /\
    skipped stats = true.
Proof.
  apply (@would_not_shrink_copies_source
           (write_file (fun _ => None) "in.txt" [x61; x62])
           "in.txt" "out.huff" [x61; x62]
           (Some (mkNode None 2 (Some (new_Node (Some x61) 1))
                    (Some (new_Node (Some x62) 1))))
           [(x61, 1%Z); (x62, 1%Z)] 6 [x00; x01; x61; x01; x62] [x40]);
    [reflexivity | reflexivity | reflexivity | discriminate | discriminate].
Defined.

(** C4, what the code does when source and destination are the same
    path: on the normal path, with a container that is not smaller than
    the source, [compress_file] has already written the container over
    the file when [shutil.copy] raises [SameFileError]; the call returns
    no statistics, and the file holds a container that begins with the
    magic marker, not the source bytes. *)
Theorem would_not_shrink_same_path_raises
    fs src raw root freq pad tree_blob compressed :
  fs src = Some raw ->
  takes_normal_path src raw = true ->
  huffman_encode raw = Ok (root, freq, pad, tree_blob, compressed) ->
  (container_size tree_blob compressed >= len raw)%Z ->
  exists container,
    compress_file fs src src
    = (write_file fs src container, Raise SameFileError) /\
    write_file fs src container src = Some container /\
    startswith container MAGIC = true /\
    len container = container_size tree_blob compressed /\
    container <> raw.
Proof.
  intros Hfs Hn He Hs.
  destruct (huffman_encode_sizes _ He) as (L & P & _).
  destruct (pack_fields tree_blob L P)
    as (b0 & b1 & b2 & b3 & pb & P1 & _ & P2 & _).
  destruct (takes_normal_path_inv _ _ Hn) as [Hm _].
  apply orb_false_iff in Hm. destruct Hm as [Hm _].
  enter_normal_path Hfs Hn. rewrite He, P1, P2.
  replace (container_size tree_blob compressed >=? len raw)%Z with true
    by (symmetry; apply Z.geb_le; lia).
  unfold shutil_copy. rewrite String.eqb_refl.
  eexists. split; [reflexivity|].
  split; [apply write_file_same|].
  split; [unfold startswith; simpl; apply bytes_eqb_refl|].
  split.
  - unfold container_size, len, MAGIC. rewrite !length_app.
    cbn [length]. lia.
  - intros E. rewrite <- E in Hm.
    unfold startswith in Hm. simpl in Hm.
    rewrite bytes_eqb_refl in Hm. discriminate.
Qed.

Lemma would_not_shrink_same_path_raises_witness :
  exists container,
    compress_file (write_file (fun _ => None) "f" [x61; x62]) "f" "f"
    = (write_file (write_file (fun _ => None) "f" [x61; x62]) "f" container,
       Raise SameFileError) /\
    write_file (write_file (fun _ => None) "f" [x61; x62]) "f" container
      "f"%string = Some container /\
    startswith container MAGIC = true /\
    len container = container_size [x00; x01; x61; x01; x62] [x40] /\
    container <> [x61; x62].
Proof.
  apply (@would_not_shrink_same_path_raises
           (write_file (fun _ => None) "f" [x61; x62]) "f" [x61; x62]
           (Some (mkNode None 2 (Some (new_Node (Some x61) 1))
                    (Some (new_Node (Some x62) 1))))
           [(x61, 1%Z); (x62, 1%Z)] 6 [x00; x01; x61; x01; x62] [x40]);
    [reflexivity | reflexivity | reflexivity | discriminate].
Defined.

(* ================================================================= *)
(** ** The decompressor *)

(** C1, amended: a source with at least two distinct byte values that
    takes the normal path always gets through the pipeline, and when its
    container is smaller than the source, [compress_file] writes the
    container and [decompress_file] on that destination restores
    exactly the source bytes. *)
Theorem compress_then_decompress_restores fs src dst out raw a b :
  fs src = Some raw ->
  takes_normal_path src raw = true ->
  In a raw -> In b raw -> a <> b ->
  exists t freq pad tree_blob compressed,
    huffman_encode raw = Ok (Some t, freq, pad, tree_blob, compressed) /\
    ((container_size tree_blob compressed < len raw)%Z ->
     exists fs1 stats dstats,
       compress_file fs src dst = (fs1, Ok (Some t, stats)) /\
       skipped stats = false /\
       decompress_file fs1 dst out = (write_file fs1 out raw, Ok dstats) /\
       write_file fs1 out raw out = Some raw /\
       restored_size dstats = len raw).
Proof.
  intros Hfs Hn Ha Hb Hab.
  pose proof (huffman_encode_spec raw) as S.
  destruct (two_distinct_freq_map raw Ha Hb Hab) as (e1 & e2 & fm & Efm).
  rewrite Efm in S. destruct e1 as [s1 f1].
  destruct S as (t & bitstr & pad & tree_blob & compressed
                 & He & W & S1 & L & P & R & Nc & D).
  exists t, (( s1, f1) :: e2 :: fm), pad, tree_blob, compressed.
  split; [exact He|]. intros Hs.
  destruct (pack_fields tree_blob L P)
    as (b0 & b1 & b2 & b3 & pb & P1 & U1 & P2 & U2).
  enter_normal_path Hfs Hn. rewrite He, P1, P2.
  replace (container_size tree_blob compressed >=? len raw)%Z with false
    by (symmetry; rewrite Z.geb_leb; apply Z.leb_gt; lia).
  destruct (len raw >? 0)%Z;
    (do 3 eexists; split; [reflexivity|]; split; [reflexivity|];
     unfold decompress_file, read_file_bytes; rewrite write_file_same;
     rewrite (@parse_container_assembled tree_blob _ compressed
                _ _ _ _ _ U1 U2);
     rewrite (@unpack_payload_roundtrip t bitstr pad tree_blob compressed
                raw W S1 R Nc D);
     split; [reflexivity|]; split; [apply write_file_same | reflexivity]).
Qed.

Lemma compress_then_decompress_restores_witness :
  exists fs2 dstats,
    decompress_file
      (fst (compress_file (write_file (fun _ => None) "in.txt" sample_text)
              "in.txt" "out.huff"))
      "out.huff" "back" = (fs2, Ok dstats) /\
    fs2 "back"%string = Some sample_text.
Proof.
  destruct (@compress_then_decompress_restores
              (write_file (fun _ => None) "in.txt" sample_text)
              "in.txt" "out.huff" "back" sample_text x61 x62)
    as (t & freq & pad & tree_blob & compressed & He & Hs);
    [reflexivity | reflexivity | now left
    | apply in_or_app; right; now left | discriminate |].
  vm_compute in He. injection He as <- <- <- <- <-.
  destruct Hs as (fs1 & stats & dstats & Hc & _ & Hd & Hr & _);
    [reflexivity|].
  rewrite Hc. cbn [fst]. rewrite Hd. eauto.
Defined.

(** C1 as stated fails on the two bytes "ab": the container would take
    15 bytes, so [compress_file] copies the source to the destination,
    and [decompress_file] rejects that destination as too small. *)
Lemma roundtrip_small_input_counterexample :
  let raw := [x61; x62] in
  let fs := write_file (fun _ => None) "in.txt" raw in
  let fs1 := fst (compress_file fs "in.txt" "out.huff") in
  raw <> [] /\
  fs1 "out.huff"%string = Some raw /\
  snd (decompress_file fs1 "out.huff" "back") = Raise (ValueError TooSmall) /\
  fst (decompress_file fs1 "out.huff" "back") "back"%string <> Some raw.
Proof.
  cbv zeta. split; [discriminate|]. split; [reflexivity|].
  split; [reflexivity|]. discriminate.
Qed.

Lemma decode_loop_raise root : forall bitstr node out e,
  decode_loop root node bitstr out = Raise e ->
  e = ValueError CorruptBitstream.
Proof.
  induction bitstr as [|bit bitstr IH]; intros node out e H; simpl in H.
  - discriminate.
  - destruct (if Ascii.eqb bit ch0 then left node else right node) as [n'|].
    + destruct (sym n'); eapply IH; eassumption.
    + congruence.
Qed.

Lemma deserialize_raise blob e :
  deserialize blob = Raise e -> ~ is_header_error e.
Proof.
  destruct blob as [|b0 blob]; [discriminate|].
  rewrite deserialize_cases by discriminate.
  pose proof (deserialize_dfs_outcome (b0 :: blob)
                (S (length (b0 :: blob))) 0) as O.
  destruct (deserialize_dfs _ _ 0) as [[t j]|e'].
  - destruct (j =? _); [discriminate|]. intros H. injection H as <-.
    intros [H|[H|H]]; discriminate.
  - intros H. injection H as <-.
    destruct e' as [v| | | | | | |]; simpl in O; try contradiction.
    + destruct v; simpl in O; try contradiction;
        intros [H|[H|H]]; discriminate.
    + simpl in O. lia.
Qed.

(** The steps after the header checks raise none of the header errors. *)
Lemma unpack_payload_raise tree_len tree_blob pad comp e :
  unpack_payload tree_len tree_blob pad comp = Raise e ->
  ~ is_header_error e.
Proof.
  unfold unpack_payload. intros H.
  apply bind_raise in H. destruct H as [H|(bitstr & _ & H)].
  { destruct (pad >? 0)%Z; [|discriminate].
    destruct (pad >? _)%Z; [|discriminate].
    injection H as <-. intros [H|[H|H]]; discriminate. }
  apply bind_raise in H. destruct H as [H|(root & _ & H)].
  { destruct (tree_len >? 0)%Z; [|discriminate].
    now apply deserialize_raise in H. }
  destruct root as [r|]; simpl in H; [|discriminate].
  apply decode_loop_raise in H. subst e.
  intros [H|[H|H]]; discriminate.
Qed.

Lemma firstn4_skipn4 (raw : bytes) :
  (9 <= len raw)%Z ->
  exists b0 b1 b2 b3, firstn 4 (skipn 4 raw) = [b0; b1; b2; b3].
Proof.
  unfold len. intros H.
  do 8 (destruct raw as [|? raw]; [simpl in H; lia|]).
  simpl. eauto.
Qed.

Lemma be_value_4 b0 b1 b2 b3 :
  be_value [b0; b1; b2; b3]
  = (((byte_val b0 * 256 + byte_val b1) * 256 + byte_val b2) * 256
     + byte_val b3)%Z.
Proof. reflexivity. Qed.

(** The header step of [decompress_file], case by case. *)
Lemma parse_container_cases raw :
  let declared := declared_tree_len raw in
  let n := Z.to_nat declared in
  if (len raw <? 9)%Z then
    parse_container raw = Raise (ValueError TooSmall)
  else if negb (bytes_eqb (firstn 4 raw) MAGIC) then
    parse_container raw = Raise (ValueError MagicMismatch)
  else if (declared + 9 >? len raw)%Z then
    parse_container raw = Raise (ValueError TreeLenUnrealistic)
  else
    exists pad_byte,
      nth_error raw (8 + n) = Some pad_byte /\
      parse_container raw
      = Ok (declared, slice raw 8 (8 + n), byte_val pad_byte,
            skipn (9 + n) raw).
Proof.
  intros declared n. unfold parse_container.
  destruct (len raw <? 9)%Z eqn:E1; [reflexivity|].
  apply Z.ltb_ge in E1.
  destruct (negb (bytes_eqb (firstn 4 raw) MAGIC)); [reflexivity|].
  destruct (firstn4_skipn4 raw E1) as (b0 & b1 & b2 & b3 & E4).
  assert (Ed : declared = be_value [b0; b1; b2; b3]).
  { unfold declared, declared_tree_len, slice. cbn [Nat.sub]. now rewrite E4. }
  rewrite E4. unfold unpack_u32_be. rewrite <- be_value_4, <- Ed.
  cbn [bind].
  assert (Hpos : (0 <= declared)%Z).
  { rewrite Ed, be_value_4.
    pose proof (byte_val_range b0). pose proof (byte_val_range b1).
    pose proof (byte_val_range b2). pose proof (byte_val_range b3). lia. }
  replace (8 + declared + 1 >? len raw)%Z with (declared + 9 >? len raw)%Z
    by (f_equal; lia).
  destruct (declared + 9 >? len raw)%Z eqn:E3; [reflexivity|].
  rewrite Z.gtb_ltb in E3. apply Z.ltb_ge in E3.
  replace (Z.to_nat (8 + declared)) with (8 + n) by (unfold n; lia).
  replace (Z.to_nat (8 + declared + 1)) with (9 + n) by (unfold n; lia).
  destruct (nth_error raw (8 + n)) as [pb|] eqn:En.
  - exists pb. split; [reflexivity|]. unfold slice.
    replace (8 + n - 8) with n by lia. reflexivity.
  - apply nth_error_None in En. unfold len in E3. lia.
Qed.

(** C6, amended: the header step of [decompress_file] fails exactly
    when the file has fewer than 9 bytes, or its first 4 bytes are not
    the magic marker, or the declared tree length plus the 9 header
    bytes exceeds the file length, each with its own [ValueError];
    otherwise it cuts the tree blob, the pad count and the payload at
    the offsets 8, 8 + tree_len and 9 + tree_len.  [decompress_file]
    raises one of these three errors under exactly these conditions, and
    then writes nothing; the later steps raise other errors. *)
Theorem header_fails_exactly_when fs src dst raw :
  fs src = Some raw ->
  let too_small := (len raw < 9)%Z in
  let bad_magic := firstn 4 raw <> MAGIC in
  let declared := declared_tree_len raw in
  let too_long := (declared + 9 > len raw)%Z in
  let n := Z.to_nat declared in
  ((exists e, parse_container raw = Raise e)
   <-> too_small \/ bad_magic \/ too_long) /\
  ((exists e, decompress_file fs src dst = (fs, Raise e) /\ is_header_error e)
   <-> too_small \/ bad_magic \/ too_long) /\
  (forall fs' e, decompress_file fs src dst = (fs', Raise e) ->
                 is_header_error e -> too_small \/ bad_magic \/ too_long) /\
  (~ (too_small \/ bad_magic \/ too_long) ->
   exists pad_byte,
     nth_error raw (8 + n) = Some pad_byte /\
     parse_container raw
     = Ok (declared, slice raw 8 (8 + n), byte_val pad_byte,
           skipn (9 + n) raw)).
Proof.
  intros Hfs too_small bad_magic declared too_long n.
  pose proof (parse_container_cases raw) as C. cbv zeta in C.
  fold declared in C. fold n in C.
  assert (M : negb (bytes_eqb (firstn 4 raw) MAGIC) = true <-> bad_magic).
  { unfold bad_magic. rewrite negb_true_iff. rewrite <- bytes_eqb_eq.
    destruct (bytes_eqb _ _); split; congruence. }
  assert (P : (exists e, parse_container raw = Raise e /\ is_header_error e)
              <-> too_small \/ bad_magic \/ too_long).
  { unfold too_small, too_long.
    destruct (Z.ltb_spec (len raw) 9) as [L1|L1].
    { split; [auto|]. intros _. eexists. split; [exact C|]. now left. }
    destruct (negb (bytes_eqb (firstn 4 raw) MAGIC)) eqn:E2.
    { split; [intros _; right; left; now apply M|].
      intros _. eexists. split; [exact C|]. right. now left. }
    assert (NM : ~ bad_magic) by (intros B; apply M in B; discriminate).
    destruct (declared + 9 >? len raw)%Z eqn:E3.
    { rewrite Z.gtb_ltb in E3. apply Z.ltb_lt in E3.
      split; [intros _; right; right; lia|].
      intros _. eexists. split; [exact C|]. right. now right. }
    rewrite Z.gtb_ltb in E3. apply Z.ltb_ge in E3.
    destruct C as (pb & _ & C). split.
    - intros (e & He & _). congruence.
    - intros [H|[H|H]]; [lia | contradiction | lia]. }
  assert (P' : (exists e, parse_container raw = Raise e)
               <-> too_small \/ bad_magic \/ too_long).
  { split.
    - intros [e He]. apply P. exists e. split; [exact He|].
      revert He. unfold too_small, too_long in *.
      destruct (len raw <? 9)%Z; [intros; left; congruence|].
      destruct (negb _); [intros; right; left; congruence|].
      destruct (declared + 9 >? len raw)%Z;
        [intros; right; right; congruence|].
      destruct C as (pb & _ & C). congruence.
    - intros H. apply P in H. destruct H as (e & He & _). eauto. }
  assert (D : forall fs' e, decompress_file fs src dst = (fs', Raise e) ->
                 is_header_error e -> too_small \/ bad_magic \/ too_long).
  { intros fs' e H He. unfold decompress_file, read_file_bytes in H.
    rewrite Hfs in H.
    destruct (parse_container raw) as [[[[tl tb] pd] cb]|e'] eqn:Ep.
    - destruct (unpack_payload tl tb pd cb) as [dec|e''] eqn:Eu.
      + discriminate.
      + injection H as _ <-. now apply unpack_payload_raise in Eu.
    - injection H as _ <-. apply P'. eauto. }
  split; [exact P'|]. split; [|split; [exact D|]].
  - split.
    + intros (e & H & He). eapply D; eauto.
    + intros H. apply P in H. destruct H as (e & He & Hh).
      exists e. split; [|exact Hh].
      unfold decompress_file, read_file_bytes. now rewrite Hfs, He.
  - intros N. unfold too_small, too_long in N.
    destruct (Z.ltb_spec (len raw) 9) as [L1|L1]; [tauto|].
    destruct (negb (bytes_eqb (firstn 4 raw) MAGIC)) eqn:E2;
      [exfalso; apply N; right; left; now apply M|].
    destruct (declared + 9 >? len raw)%Z eqn:E3; [|exact C].
    rewrite Z.gtb_ltb in E3. apply Z.ltb_lt in E3. exfalso. apply N. lia.
Qed.

Lemma header_fails_exactly_when_witness :
  exists e,
    decompress_file (write_file (fun _ => None) "c.huff" [x48; x55])
      "c.huff" "back"
    = (write_file (fun _ => None) "c.huff" [x48; x55], Raise e) /\
    is_header_error e.
Proof.
  destruct (@header_fails_exactly_when
              (write_file (fun _ => None) "c.huff" [x48; x55])
              "c.huff" "back" [x48; x55] eq_refl) as (_ & H & _).
  apply H. left. reflexivity.
Defined.

(** C6 as stated fails on a file with a sound header and a bad tree
    blob: none of the three header conditions holds, and
    [decompress_file] still raises a [ValueError]. *)
Lemma decompress_fails_after_header_counterexample :
  let raw := bad_tree_container in
  let fs := write_file (fun _ => None) "c.huff" raw in
  ~ (len raw < 9)%Z /\
  firstn 4 raw = MAGIC /\
  ~ (declared_tree_len raw + 9 > len raw)%Z /\
  snd (decompress_file fs "c.huff" "back")
    = Raise (ValueError (BadTreeFlag x02 0)) /\
  fst (decompress_file fs "c.huff" "back") "back"%string = None.
Proof.
  cbv zeta. split; [discriminate|]. split; [reflexivity|].
  split; [discriminate|]. split; reflexivity.
Qed.

(* ================================================================= *)
(** ** heapq keeps the heap order *)

Module heap_order.
Import heapq_facts.
Import heapq.

Lemma parent_pos_children i p :
  0 < i -> (parent_pos i = p <-> i = 2 * p + 1 \/ i = 2 * p + 2).
Proof.
  intros H. unfold parent_pos. rewrite Nat.div2_div.
  pose proof (Nat.div_mod_eq (i - 1) 2).
  pose proof (Nat.mod_upper_bound (i - 1) 2). lia.
Qed.

Lemma parent_pos_lt i : 0 < i -> parent_pos i < i.
Proof. intros H. pose proof (proj1 (parent_pos_children (parent_pos i) H) eq_refl). lia. Qed.

Lemma item_set_same heap i x : i < length heap -> item (set_item heap i x) i = x.
Proof.
  unfold item. revert i. induction heap as [|a t IH]; intros [|i] H;
    simpl in *; try lia; auto. apply IH. lia.
Qed.

Lemma item_set_other heap i j x : i <> j -> item (set_item heap j x) i = item heap i.
Proof.
  unfold item. revert i j. induction heap as [|a t IH]; intros [|i] [|j] H;
    simpl in *; try lia; auto.
Qed.

Lemma nth_item heap i d : i < length heap -> nth i heap d = item heap i.
Proof. intros H. apply nth_indep. exact H. Qed.

(** Dropping the pending item in the hole, once it is not lighter than
    the parent of the hole, gives a heap. *)
Lemma hole_filled heap pos x :
  pos < length heap -> hole_ok heap pos -> fits_above heap pos x ->
  (0 < pos -> (freq (item heap (parent_pos pos)) <= freq x)%Z) ->
  heap_ok (set_item heap pos x).
Proof.
  intros Hp [A C] B Hx i Hi. rewrite set_item_length in Hi.
  destruct (Nat.eq_dec i pos) as [->|Ni].
  - rewrite item_set_same by assumption.
    rewrite item_set_other by (pose proof (parent_pos_lt (proj1 Hi)); lia).
    apply Hx. lia.
  - rewrite (item_set_other _ _ Ni).
    destruct (Nat.eq_dec (parent_pos i) pos) as [E|Np].
    + rewrite E, item_set_same by assumption. now apply B.
    + rewrite (item_set_other _ _ Np). now apply A.
Qed.

Lemma siftdown_loop_order : forall fuel heap pos x,
  pos <= fuel -> pos < length heap ->
  hole_ok heap pos -> fits_above heap pos x ->
  heap_ok (siftdown_loop fuel heap 0 pos x).
Proof.
  induction fuel as [|fuel IH]; intros heap pos x Hf Hp HO HB.
  - assert (pos = 0) by lia. subst pos. simpl.
    apply hole_filled; auto. lia.
  - simpl. destruct (0 <? pos) eqn:E.
    2:{ apply Nat.ltb_ge in E. apply hole_filled; auto. lia. }
    apply Nat.ltb_lt in E. fold (parent_pos pos).
    pose proof (parent_pos_lt E) as Hpp.
    rewrite nth_item by lia.
    unfold Node_lt. destruct (Z.ltb_spec (freq x) (freq (item heap (parent_pos pos)))) as [L|L].
    2:{ apply hole_filled; auto. }
    destruct HO as [A C].
    apply IH; [lia | rewrite set_item_length; lia | |].
    + (* the hole moves to the parent slot *)
      split.
      * intros i Hi N1 N2. rewrite set_item_length in Hi.
        destruct (Nat.eq_dec i pos) as [->|Ni]; [congruence|].
        rewrite (item_set_other _ _ Ni).
        destruct (Nat.eq_dec (parent_pos i) pos) as [Ei|Np].
        -- rewrite Ei, item_set_same by assumption. apply C; auto.
        -- rewrite (item_set_other _ _ Np). now apply A.
      * intros i Hi Ei Hpos. rewrite set_item_length in Hi.
        assert (Npp : parent_pos (parent_pos pos) <> pos)
          by (pose proof (parent_pos_lt Hpos); lia).
        rewrite (item_set_other _ _ Npp).
        assert (G : (freq (item heap (parent_pos (parent_pos pos)))
                     <= freq (item heap (parent_pos pos)))%Z).
        { apply A; lia. }
        destruct (Nat.eq_dec i pos) as [->|Ni].
        -- rewrite item_set_same by assumption. exact G.
        -- rewrite (item_set_other _ _ Ni).
           assert ((freq (item heap (parent_pos pos)) <= freq (item heap i))%Z).
           { rewrite <- Ei. apply A; auto. rewrite Ei. lia. }
           lia.
    + intros i Hi Ei. rewrite set_item_length in Hi.
      destruct (Nat.eq_dec i pos) as [->|Ni].
      * rewrite item_set_same by assumption. lia.
      * rewrite (item_set_other _ _ Ni).
        assert ((freq (item heap (parent_pos pos)) <= freq (item heap i))%Z).
        { rewrite <- Ei. apply A; auto. rewrite Ei. lia. }
        lia.
Qed.

(** The slot [_siftup] takes the next item from: the lighter child, the
    left one when both weigh the same. *)
Lemma siftup_loop_step fuel heap endpos pos x :
  2 * pos + 1 < endpos ->
  siftup_loop (S fuel) heap endpos pos x =
  let c := if (2 * pos + 2 <? endpos)
              && negb (Node_lt (nth (2 * pos + 1) heap x)
                               (nth (2 * pos + 2) heap x))
           then 2 * pos + 2 else 2 * pos + 1 in
  siftup_loop fuel (set_item heap pos (nth c heap x)) endpos c x.
Proof.
  intros H. cbn [siftup_loop].
  replace (2 * pos + 1 <? endpos) with true by (symmetry; now apply Nat.ltb_lt).
  replace (2 * pos + 1 + 1) with (2 * pos + 2) by lia. reflexivity.
Qed.

Lemma siftup_loop_stop fuel heap endpos pos x :
  endpos <= 2 * pos + 1 ->
  siftup_loop fuel heap endpos pos x = (heap, pos).
Proof.
  intros H. destruct fuel; cbn [siftup_loop];
    replace (2 * pos + 1 <? endpos) with false
      by (symmetry; now apply Nat.ltb_ge); reflexivity.
Qed.

Lemma siftup_loop_order : forall fuel heap pos x heap' pos',
  length heap - pos <= fuel -> pos < length heap ->
  hole_ok heap pos ->
  siftup_loop fuel heap (length heap) pos x = (heap', pos') ->
  length heap' = length heap /\ pos' < length heap' /\
  hole_ok heap' pos' /\ length heap' <= 2 * pos' + 1.
Proof.
  induction fuel as [|fuel IH]; intros heap pos x heap' pos' Hf Hp HO H.
  - lia.
  - destruct (Nat.le_gt_cases (length heap) (2 * pos + 1)) as [Hs|Hs].
    { rewrite siftup_loop_stop in H by assumption.
      injection H as <- <-. auto. }
    rewrite siftup_loop_step in H by assumption. cbv zeta in H.
    set (c := if (2 * pos + 2 <? length heap)
                 && negb (Node_lt (nth (2 * pos + 1) heap x)
                                  (nth (2 * pos + 2) heap x))
              then 2 * pos + 2 else 2 * pos + 1) in *.
    assert (Hc : (c = 2 * pos + 1 \/ c = 2 * pos + 2) /\ c < length heap /\
                 forall i, i = 2 * pos + 1 \/ i = 2 * pos + 2 ->
                           i < length heap ->
                           (freq (item heap c) <= freq (item heap i))%Z).
    { unfold c. destruct (2 * pos + 2 <? length heap) eqn:E2; cbn [andb].
      - apply Nat.ltb_lt in E2. rewrite !nth_item by lia.
        unfold Node_lt.
        destruct (Z.ltb_spec (freq (item heap (2 * pos + 1)))
                             (freq (item heap (2 * pos + 2)))) as [L|L];
          cbn [negb]; (split; [auto|]); (split; [lia|]);
          intros i [->| ->] _; lia.
      - apply Nat.ltb_ge in E2. split; [auto|]. split; [lia|].
        intros i [->| ->] Hi; lia. }
    destruct Hc as (Hc1 & Hc2 & Hmin).
    assert (Pc : parent_pos c = pos) by (apply parent_pos_children; lia).
    rewrite (nth_item heap x Hc2) in H.
    destruct HO as [A C].
    rewrite <- (set_item_length heap pos (item heap c)) in H at 1.
    apply IH in H.
    + rewrite set_item_length in H. exact H.
    + rewrite set_item_length. lia.
    + rewrite set_item_length. lia.
    + split.
      * intros i Hi N1 N2. rewrite set_item_length in Hi.
        destruct (Nat.eq_dec i pos) as [->|Ni].
        -- rewrite item_set_same by assumption.
           rewrite item_set_other
             by (pose proof (parent_pos_lt (proj1 Hi)); lia).
           apply C; [lia | assumption | lia].
        -- rewrite (item_set_other _ _ Ni).
           destruct (Nat.eq_dec (parent_pos i) pos) as [Ei|Np].
           ++ rewrite Ei, item_set_same by assumption.
              apply Hmin; [|lia]. apply parent_pos_children; [lia|assumption].
           ++ rewrite (item_set_other _ _ Np). now apply A.
      * intros i Hi Ei _. rewrite set_item_length in Hi.
        rewrite Pc, item_set_same by assumption.
        assert (i <> pos).
        { apply parent_pos_children in Ei; lia. }
        rewrite item_set_other by assumption.
        rewrite <- Ei. apply A; [lia | assumption | lia].
Qed.

(** A heap stays a heap when its last item is dropped. *)
Lemma heap_ok_removelast heap x : heap_ok (heap ++ [x]) -> heap_ok heap.
Proof.
  intros H i Hi. specialize (H i).
  rewrite length_app in H. simpl in H.
  pose proof (parent_pos_lt (proj1 Hi)).
  unfold item in *. rewrite !app_nth1 in H by lia. apply H. lia.
Qed.

Lemma siftdown_order heap pos x :
  nth_error heap pos = Some x ->
  hole_ok heap pos -> fits_above heap pos x ->
  heap_ok (siftdown heap 0 pos).
Proof.
  intros E HO HB. unfold siftdown. rewrite E.
  apply siftdown_loop_order; auto.
  apply nth_error_Some. congruence.
Qed.

Lemma heappush_order heap x : heap_ok heap -> heap_ok (heappush heap x).
Proof.
  intros H. unfold heappush. rewrite length_app. simpl length.
  replace (length heap + 1 - 1) with (length heap) by lia.
  apply siftdown_order with (x := x).
  - rewrite nth_error_app2 by lia. now rewrite Nat.sub_diag.
  - split.
    + intros i Hi N1 N2. rewrite length_app in Hi. simpl in Hi.
      pose proof (parent_pos_lt (proj1 Hi)).
      unfold item. rewrite !app_nth1 by lia. apply H. lia.
    + intros i Hi Ei _. rewrite length_app in Hi. simpl in Hi.
      apply parent_pos_children in Ei; lia.
  - intros i Hi Ei. rewrite length_app in Hi. simpl in Hi.
    apply parent_pos_children in Ei; lia.
Qed.

Lemma siftup_order heap x :
  heap <> [] ->
  (forall i, 0 < i < length heap -> parent_pos i <> 0 ->
     (freq (item heap (parent_pos i)) <= freq (item heap i))%Z) ->
  nth_error heap 0 = Some x ->
  heap_ok (siftup heap 0).
Proof.
  intros Hne A E. unfold siftup. rewrite E.
  destruct (siftup_loop _ _ _ _ _) as [heap1 pos1] eqn:L.
  assert (Hl : 0 < length heap) by (destruct heap; [congruence|simpl; lia]).
  apply siftup_loop_order in L; [|lia|lia|].
  2:{ split; [|lia]. intros i Hi _ N. now apply A. }
  destruct L as (L1 & L2 & HO & Lf).
  assert (HO' : hole_ok (set_item heap1 pos1 x) pos1).
  { destruct HO as [A1 C1]. split.
    - intros i Hi N1 N2. rewrite set_item_length in Hi.
      rewrite !item_set_other by assumption. now apply A1.
    - intros i Hi Ei _. rewrite set_item_length in Hi.
      apply parent_pos_children in Ei; lia. }
  apply siftdown_order with (x := x); auto.
  - clear -L2. revert pos1 L2. induction heap1 as [|a t IH]; intros [|p] H;
      simpl in *; try lia; auto. apply IH. lia.
  - intros i Hi Ei. rewrite set_item_length in Hi.
    apply parent_pos_children in Ei; lia.
Qed.

(** The root of a heap is a lightest item. *)
Lemma heap_ok_root heap : heap_ok heap ->
  forall i, i < length heap -> (freq (item heap 0) <= freq (item heap i))%Z.
Proof.
  intros H i. induction i as [i IH] using lt_wf_ind. intros Hi.
  destruct i as [|i]; [lia|].
  pose proof (parent_pos_lt (Nat.lt_0_succ i)) as Hp.
  specialize (IH _ Hp ltac:(lia)).
  specialize (H (S i) ltac:(lia)). lia.
Qed.

Lemma heap_ok_root_In heap a rest x :
  heap_ok heap -> heap = a :: rest -> In x heap -> (freq a <= freq x)%Z.
Proof.
  intros H -> Hx. apply (In_nth _ _ no_node) in Hx.
  destruct Hx as (i & Hi & <-). apply (@heap_ok_root _ H i Hi).
Qed.

(** [heappop] on a heap returns a lightest item and leaves a heap. *)
Lemma heappop_order heap :
  heap_ok heap -> heap <> [] ->
  exists x heap',
    heappop heap = Ok (x, heap') /\ heap_ok heap' /\
    Permutation (x :: heap') heap /\
    forall y, In y heap -> (freq x <= freq y)%Z.
Proof.
  intros H Hne.
  destruct (heappop_perm Hne) as (x & heap' & E & P).
  exists x, heap'. split; [exact E|]. split; [|split; [exact P|]].
  - unfold heappop in E.
    destruct (rev heap) as [|lastelt rest_rev] eqn:R; [discriminate|].
    apply (f_equal (@rev _)) in R. rewrite rev_involutive in R. simpl in R.
    destruct (rev rest_rev) as [|returnitem tl] eqn:R2.
    + injection E as <- <-. intros i Hi. simpl in Hi. lia.
    + injection E as <- <-.
      rewrite R in H. apply heap_ok_removelast in H.
      apply siftup_order with (x := lastelt).
      * discriminate.
      * intros i Hi N. simpl in Hi.
        assert (i <> 0) by lia.
        specialize (H i). simpl length in H.
        unfold item in *. simpl set_item.
        destruct i as [|i]; [lia|].
        destruct (parent_pos (S i)) as [|q] eqn:Eq; [congruence|].
        simpl nth in *. apply H. lia.
      * reflexivity.
  - intros y Hy.
    unfold heappop in E.
    destruct (rev heap) as [|lastelt rest_rev] eqn:R; [discriminate|].
    apply (f_equal (@rev _)) in R. rewrite rev_involutive in R. simpl in R.
    destruct (rev rest_rev) as [|returnitem tl] eqn:R2.
    + injection E as <- <-. rewrite R in Hy. simpl in Hy.
      destruct Hy as [<-|[]]. lia.
    + injection E as <- _.
      eapply heap_ok_root_In; [exact H | rewrite R; reflexivity | exact Hy].
Qed.

End heap_order.

(* ================================================================= *)
(** ** The frequency table counts, the tree adds the counts up *)

Lemma count_fold_get data b : forall d,
  dict_get (fold_left count_step data d) b =
  match dict_get d b with
  | Some c => Some (c + occurrences data b)%Z
  | None => if (occurrences data b =? 0)%Z then None
            else Some (occurrences data b)
  end.
Proof.
  unfold occurrences.
  induction data as [|x data IH]; intros d.
  - simpl. destruct (dict_get d b); [f_equal; lia | reflexivity].
  - cbn [fold_left]. rewrite IH. unfold count_step.
    cbn [count_occ]. destruct (Byte.byte_eq_dec x b) as [->|N].
    + rewrite dict_get_set_same.
      destruct (dict_get d b) as [c|]; [f_equal; lia|].
      destruct (Z.eqb_spec (Z.of_nat (S (count_occ Byte.byte_eq_dec data b))) 0);
        [lia | f_equal; lia].
    + rewrite dict_get_set_other by congruence. reflexivity.
Qed.

(** X1: the frequency table maps every byte of the data to its number
    of occurrences, has no entry for a byte that does not occur, and
    lists every key once. *)
Theorem build_freq_map_counts data b :
  dict_get (build_freq_map data) b =
    (if in_dec Byte.byte_eq_dec b data then Some (occurrences data b)
     else None) /\
  NoDup (dict_keys (build_freq_map data)) /\
  (0 < occurrences data b <-> In b data)%Z.
Proof.
  assert (O : (0 < occurrences data b)%Z <-> In b data).
  { unfold occurrences. rewrite (count_occ_In Byte.byte_eq_dec). lia. }
  split; [|split; [apply build_freq_map_keys | exact O]].
  unfold build_freq_map. rewrite count_fold_get. simpl.
  destruct (in_dec Byte.byte_eq_dec b data) as [I|I].
  - apply O in I. destruct (Z.eqb_spec (occurrences data b) 0); [lia|reflexivity].
  - destruct (Z.eqb_spec (occurrences data b) 0); [reflexivity|].
    exfalso. apply I, O. unfold occurrences in *. lia.
Qed.

Lemma total_app a b : total (a ++ b) = (total a + total b)%Z.
Proof.
  unfold total. induction a as [|e a IH]; simpl; [reflexivity|]. rewrite IH. lia.
Qed.

Lemma total_perm a b : Permutation a b -> total a = total b.
Proof.
  induction 1; unfold total in *; simpl; lia.
Qed.

Lemma total_dict_set d k : forall v,
  total (dict_set d k v)
  = (total d + v - match dict_get d k with Some c => c | None => 0 end)%Z.
Proof.
  induction d as [|[k' v'] d IH]; intros v; simpl.
  - lia.
  - destruct (Byte.eqb k' k); simpl.
    + lia.
    + unfold total in *. rewrite IH. lia.
Qed.

Lemma total_count_fold data : forall d,
  total (fold_left count_step data d) = (total d + len data)%Z.
Proof.
  unfold len. induction data as [|x data IH]; intros d.
  - simpl. lia.
  - cbn [fold_left]. rewrite IH. unfold count_step.
    rewrite total_dict_set. simpl length. lia.
Qed.

(** The counts of the table add up to the length of the data. *)
Lemma total_build_freq_map data : total (build_freq_map data) = len data.
Proof. unfold build_freq_map. now rewrite total_count_fold. Qed.

Lemma weighted_well_formed t : weighted t -> well_formed t.
Proof. induction 1; now constructor. Qed.

Lemma weighted_freq t : weighted t -> freq t = total (leaf_entries t).
Proof.
  induction 1 as [s f|l r Wl IHl Wr IHr L]; simpl.
  - lia.
  - rewrite total_app. lia.
Qed.

Lemma leaf_entries_keys t : dict_keys (leaf_entries t) = leaves t.
Proof.
  unfold dict_keys.
  induction t as [s f l r IHl IHr] using Node_ind.
  destruct s as [s|]; simpl; [reflexivity|].
  rewrite map_app. f_equal.
  - destruct l as [l'|]; [now apply IHl | reflexivity].
  - destruct r as [r'|]; [now apply IHr | reflexivity].
Qed.

Lemma heap_from_freq_order fm : heap_ok (heap_from_freq fm).
Proof.
  unfold heap_from_freq.
  enough (G : forall acc, heap_ok acc ->
            heap_ok
              (fold_left
                 (fun h '(s, fr) => heapq.heappush h (new_Node (Some s) fr))
                 fm acc)).
  { apply G. intros i Hi. simpl in Hi. lia. }
  induction fm as [|[s f] fm IH]; intros acc H; simpl; [exact H|].
  apply IH. now apply heap_order.heappush_order.
Qed.

(** X2: [heap_from_freq] returns a heap in the sense of [heapq] (no
    item is lighter than its parent slot) that holds exactly one leaf per
    entry of the frequency map. *)
Theorem heap_from_freq_is_heap (fm : dict Z) :
  heap_ok (heap_from_freq fm) /\
  Permutation (heap_from_freq fm) (map leaf_of fm).
Proof.
  split; [apply heap_from_freq_order | apply heap_from_freq_perm].
Qed.

(** The merge loop on a heap of weighted trees: it pops the two lightest
    trees each round, so the tree it ends with is weighted and has the
    leaves of the heap. *)
Lemma build_tree_loop_weighted : forall fuel h,
  length h <= fuel -> h <> [] ->
  heap_ok h -> Forall weighted h ->
  exists t,
    build_tree_loop fuel h = Ok t /\ weighted t /\
    Permutation (leaf_entries t) (flat_map leaf_entries h).
Proof.
  induction fuel as [|fuel IH]; intros h Hf Hne HO W.
  - destruct h; [congruence | simpl in Hf; lia].
  - simpl. destruct (1 <? length h) eqn:E.
    + apply Nat.ltb_lt in E.
      destruct (heap_order.heappop_order HO Hne)
        as (a & h1 & -> & O1 & P1 & M1).
      cbn [bind].
      assert (Hne1 : h1 <> []).
      { apply Permutation_length in P1. simpl in P1.
        intros ->. simpl in P1. lia. }
      destruct (heap_order.heappop_order O1 Hne1)
        as (b & h2 & -> & O2 & P2 & _).
      cbn [bind].
      set (p := mkNode None (freq a + freq b) (Some a) (Some b)).
      pose proof (heapq_facts.heappush_perm h2 p) as P3.
      assert (Wa : Forall weighted (a :: b :: h2)).
      { eapply Permutation_Forall; [|exact W].
        symmetry. rewrite <- P1. now apply perm_skip. }
      inversion Wa as [|? ? Wa1 Wa2]; subst.
      inversion Wa2 as [|? ? Wb1 Wb2]; subst.
      assert (Lab : (freq a <= freq b)%Z).
      { apply M1. eapply Permutation_in; [exact P1|]. right.
        eapply Permutation_in; [exact P2|]. now left. }
      destruct (IH (heapq.heappush h2 p)) as (t & Ht & Wt & Pt).
      * apply Permutation_length in P1, P2, P3. simpl in *. lia.
      * intros E0. rewrite E0 in P3. apply Permutation_nil in P3.
        discriminate.
      * now apply heap_order.heappush_order.
      * eapply Permutation_Forall; [symmetry; exact P3|].
        constructor; [now constructor | assumption].
      * exists t. split; [exact Ht|]. split; [exact Wt|].
        rewrite Pt. rewrite (Permutation_flat_map leaf_entries P3).
        rewrite <- (Permutation_flat_map leaf_entries P1).
        simpl. rewrite <- (Permutation_flat_map leaf_entries P2).
        simpl. now rewrite app_assoc.
    + apply Nat.ltb_ge in E.
      destruct h as [|r [|? ?]]; [congruence| |simpl in E; lia].
      simpl. exists r. inversion W; subst.
      split; [reflexivity|]. split; [assumption|].
      simpl. now rewrite app_nil_r.
Qed.

Lemma flat_map_leaf_entries_leaf_of fm :
  flat_map leaf_entries (map leaf_of fm) = fm.
Proof.
  induction fm as [|[s f] fm IH]; simpl; [reflexivity|]. now f_equal.
Qed.

Lemma Forall_weighted_leaf_of fm : Forall weighted (map leaf_of fm).
Proof.
  induction fm as [|[s f] fm IH]; simpl; constructor; auto. constructor.
Qed.

(** The builder on a table with two or more entries. *)
Lemma build_tree_on_table (fm : dict Z) :
  2 <= length fm ->
  exists t,
    build_tree (heap_from_freq fm) = Ok (Some t) /\
    weighted t /\
    Permutation (leaf_entries t) fm /\
    freq t = total fm.
Proof.
  intros L2.
  pose proof (heap_from_freq_perm fm) as P.
  pose proof (heap_from_freq_order fm) as O.
  assert (L : length (heap_from_freq fm) = length fm).
  { rewrite (Permutation_length P). apply length_map. }
  assert (W : Forall weighted (heap_from_freq fm)).
  { eapply Permutation_Forall; [symmetry; exact P|].
    apply Forall_weighted_leaf_of. }
  destruct (heap_from_freq fm) as [|a [|b h]] eqn:Eh;
    [simpl in L; lia | simpl in L; lia |].
  destruct (@build_tree_loop_weighted (length (a :: b :: h)) (a :: b :: h))
    as (t & Ht & Wt & Pt); [lia|discriminate|assumption|assumption|].
  assert (PK : Permutation (leaf_entries t) fm).
  { rewrite Pt, (Permutation_flat_map leaf_entries P).
    now rewrite flat_map_leaf_entries_leaf_of. }
  exists t. split.
  - unfold build_tree. rewrite Ht. reflexivity.
  - split; [exact Wt|]. split; [exact PK|].
    rewrite (weighted_freq Wt). now apply total_perm.
Qed.

(** X3: for a table with two or more entries the builder returns a
    tree whose leaves are the entries of the table, each once, in which
    every internal node weighs the sum of its children with the lighter
    child on the left, and whose root weighs the total of the counts. *)
Theorem build_tree_weighted (e1 e2 : byte * Z) (rest : dict Z) :
  exists t,
    build_tree (heap_from_freq (e1 :: e2 :: rest)) = Ok (Some t) /\
    weighted t /\
    Permutation (leaf_entries t) (e1 :: e2 :: rest) /\
    freq t = total (e1 :: e2 :: rest).
Proof.
  destruct (@build_tree_on_table (e1 :: e2 :: rest)) as (t & B & W & P & F).
  - simpl. lia.
  - exists t. auto.
Qed.

(** X4: for every non-empty input the builder returns a tree whose
    root weighs the number of input bytes. *)
Theorem root_weight_is_input_length data :
  data <> [] ->
  exists t,
    build_tree (heap_from_freq (build_freq_map data)) = Ok (Some t) /\
    sym t = None /\ freq t = len data.
Proof.
  intros Hne. rewrite <- total_build_freq_map.
  destruct (build_freq_map data) as [|[s f] [|e2 rest]] eqn:E.
  - exfalso. destruct data as [|b data]; [congruence|].
    destruct (build_freq_map_keys (b :: data)) as [_ K].
    rewrite E in K. apply (proj2 (K b)). now left.
  - eexists. split; [reflexivity|]. split; [reflexivity|]. simpl. lia.
  - destruct (@build_tree_on_table ((s, f) :: e2 :: rest))
      as (t & B & W & P & F); [simpl; lia|].
    exists t. split; [exact B|]. split; [|exact F].
    destruct W as [s' f'|]; [|reflexivity].
    apply Permutation_length in P. discriminate.
Qed.

Lemma root_weight_is_input_length_witness :
  exists t,
    build_tree (heap_from_freq (build_freq_map sample_text)) = Ok (Some t) /\
    sym t = None /\ freq t = len sample_text.
Proof. apply root_weight_is_input_length. discriminate. Defined.

(* ================================================================= *)
(** ** More on the tree codec *)

Lemma serialize_raise t : forall e,
  serialize (Some t) = Raise e -> e = AttributeError /\ ~ full t.
Proof.
  induction t as [s f l r IHl IHr] using Node_ind; intros e H.
  destruct s as [s|]; [discriminate|].
  simpl in H. destruct l as [l'|]; simpl in H.
  2:{ injection H as <-. split; [reflexivity|]. inversion 1. }
  rewrite serialize_dfs_acc in H.
  destruct (serialize_dfs l' []) as [bl|el] eqn:El; simpl in H.
  2:{ injection H as <-. destruct (IHl l' eq_refl el El) as [-> N].
      split; [reflexivity|]. inversion 1; subst. contradiction. }
  destruct r as [r'|]; simpl in H.
  2:{ injection H as <-. split; [reflexivity|]. inversion 1. }
  rewrite serialize_dfs_acc in H.
  destruct (serialize_dfs r' []) as [br|er] eqn:Er; [discriminate|].
  injection H as <-. destruct (IHr r' eq_refl er Er) as [-> N].
  split; [reflexivity|]. inversion 1; subst. contradiction.
Qed.

Lemma full_serialize t : full t -> exists b, serialize (Some t) = Ok b.
Proof.
  induction 1 as [s f l r|f l r _ [bl Hl] _ [br Hr]].
  - eexists. apply serialize_leaf.
  - eexists. apply serialize_internal; eassumption.
Qed.

Lemma serialize_ok_full t : forall b, serialize (Some t) = Ok b -> full t.
Proof.
  induction t as [s f l r IHl IHr] using Node_ind; intros b Hb.
  destruct s as [s|]; [constructor|].
  apply serialize_internal_inv in Hb.
  destruct Hb as (l' & r' & bl & br & -> & -> & Sl & Sr & _).
  constructor; [eapply IHl | eapply IHr]; eauto.
Qed.

(** X5: [serialize] returns a blob exactly for the trees in which every
    internal node has both children; on any other tree it raises
    [AttributeError], and nothing else. *)
Theorem serialize_ok_iff_full t :
  ((exists b, serialize (Some t) = Ok b) <-> full t) /\
  (serialize (Some t) = Raise AttributeError <-> ~ full t) /\
  (forall e, serialize (Some t) = Raise e -> e = AttributeError).
Proof.
  split; [|split].
  - split; [|apply full_serialize].
    intros [b Hb]. eapply serialize_ok_full; eauto.
  - split.
    + intros H. now apply serialize_raise in H.
    + intros N. destruct (serialize (Some t)) as [b|e] eqn:E.
      * exfalso. apply N. eapply serialize_ok_full; eauto.
      * apply serialize_raise in E. destruct E as [-> _]. reflexivity.
  - intros e H. now apply serialize_raise in H.
Qed.

Lemma same_shape_of_erase t1 : well_formed t1 ->
  forall t2, well_formed t2 -> erase_freq t1 = erase_freq t2 ->
  same_shape t1 t2.
Proof.
  induction 1 as [s f|f l r Wl IHl Wr IHr]; intros t2 W2 E;
    destruct W2 as [s2 f2|f2 l2 r2 Wl2 Wr2]; simpl in E; try discriminate.
  - injection E as ->. constructor.
  - injection E as El Er. constructor; auto.
Qed.

(** X6: two trees of the data model with the same serialization have
    the same shape and the same symbols: the blob determines the tree up
    to its weights. *)
Theorem serialize_injective t1 t2 b :
  well_formed t1 -> well_formed t2 ->
  serialize (Some t1) = Ok b -> serialize (Some t2) = Ok b ->
  same_shape t1 t2.
Proof.
  intros W1 W2 S1 S2.
  destruct (@deserialize_serialized t1 b S1) as (t & D1 & E1).
  destruct (@deserialize_serialized t2 b S2) as (t' & D2 & E2).
  rewrite D1 in D2. injection D2 as <-.
  apply same_shape_of_erase; auto. rewrite <- (E1 W1). now apply E2.
Qed.

Lemma serialize_injective_witness :
  same_shape (mkNode None 7 (Some (new_Node (Some x61) 4))
                            (Some (new_Node (Some x62) 3)))
             (mkNode None 2 (Some (new_Node (Some x61) 1))
                            (Some (new_Node (Some x62) 1))).
Proof.
  apply (@serialize_injective _ _ [x00; x01; x61; x01; x62]);
    try reflexivity; apply wf_internal; apply wf_leaf.
Defined.

(** X7: a blob that [deserialize] accepts is exactly the serialization
    of the tree it returns, and that tree follows the data model with
    every weight 0; the null root comes from the empty blob only. *)
Theorem deserialize_then_serialize blob root :
  deserialize blob = Ok root ->
  serialize root = Ok blob /\
  match root with
  | Some t => well_formed t /\ erase_freq t = t /\ 2 <= length blob
  | None => blob = []
  end.
Proof.
  intros H. destruct root as [t|].
  - destruct (@deserialize_ok blob t H) as (S1 & W & E).
    split; [exact S1|]. repeat split; auto.
    eapply serialize_length; eauto.
  - assert (blob = []).
    { destruct blob as [|b0 blob]; [auto|].
      rewrite deserialize_cases in H by discriminate.
      destruct (deserialize_dfs _ _ 0) as [[t j]|e]; [|discriminate].
      destruct (j =? _); discriminate. }
    subst. auto.
Qed.

Lemma deserialize_then_serialize_witness :
  serialize (Some (mkNode None 0 (Some (new_Node (Some x61) 0))
                                 (Some (new_Node (Some x62) 0))))
  = Ok [x00; x01; x61; x01; x62].
Proof.
  apply (@deserialize_then_serialize [x00; x01; x61; x01; x62]). reflexivity.
Defined.

(** X8: the blob of a tree of the data model has two bytes per leaf and
    one per internal node, that is three bytes per leaf less one. *)
Theorem serialize_size t b :
  well_formed t -> serialize (Some t) = Ok b ->
  length b = 3 * length (leaves t) - 1 /\ 1 <= length (leaves t).
Proof.
  intros W S1. pose proof (@serialize_well_formed_length t b W S1) as L.
  assert (1 <= length (leaves t)).
  { clear -W. induction W; simpl; [lia|]. rewrite length_app. lia. }
  lia.
Qed.

Lemma serialize_size_witness :
  length [x00; x01; x61; x01; x62]
  = 3 * length (leaves (mkNode None 2 (Some (new_Node (Some x61) 1))
                                      (Some (new_Node (Some x62) 1)))) - 1.
Proof.
  apply (@serialize_size
           (mkNode None 2 (Some (new_Node (Some x61) 1))
                          (Some (new_Node (Some x62) 1)))
           [x00; x01; x61; x01; x62]);
    [apply wf_internal; apply wf_leaf | reflexivity].
Defined.

(* ================================================================= *)
(** ** More on the code table and the bit-strings *)

Lemma NoDup_app_disjoint A (l1 l2 : list A) a :
  NoDup (l1 ++ l2) -> In a l1 -> In a l2 -> False.
Proof.
  induction l1 as [|x l1 IH]; intros ND H1 H2; [contradiction|].
  simpl in ND. inversion ND as [|? ? Nx ND']; subst.
  destruct H1 as [->|H1]; [|now apply IH].
  apply Nx. apply in_or_app. now right.
Qed.

Lemma path_to_unique t : NoDup (leaves t) ->
  forall c1 c2 s, path_to t c1 s -> path_to t c2 s -> c1 = c2.
Proof.
  induction t as [sy f l r IHl IHr] using Node_ind; intros ND c1 c2 s P1 P2.
  destruct sy as [s0|].
  - inversion P1; subst. inversion P2; subst. reflexivity.
  - simpl in ND.
    inversion P1 as [|f1 l1 r1 d1 s1 Q1|f1 l1 r1 d1 s1 Q1]; subst;
      inversion P2 as [|f2 l2 r2 d2 s2 Q2|f2 l2 r2 d2 s2 Q2]; subst.
    + f_equal. eapply (IHl l1 eq_refl); eauto.
      now apply NoDup_app_remove_r in ND.
    + exfalso. apply path_to_leaves in Q1, Q2.
      eapply NoDup_app_disjoint; eauto.
    + exfalso. apply path_to_leaves in Q1, Q2.
      eapply NoDup_app_disjoint; eauto.
    + f_equal. eapply (IHr r1 eq_refl); eauto.
      now apply NoDup_app_remove_l in ND.
Qed.

(** X9: in a tree with an internal root whose leaves hold distinct
    symbols, the code of a symbol is exactly the path of '0' (left) and
    '1' (right) from the root to its leaf, and it is made of these two
    characters only. *)
Theorem make_codes_is_path t s c :
  sym t = None -> NoDup (leaves t) ->
  (dict_get (make_codes (Some t)) s = Some c <-> path_to t c s) /\
  (path_to t c s -> Forall is_bit c /\ c <> []).
Proof.
  intros St ND. split.
  - split.
    + intros H. now apply make_codes_internal in H.
    + intros P.
      destruct (proj2 (make_codes_keys (Some t) s)) as [c' Hc'].
      { simpl. eapply path_to_leaves; eauto. }
      destruct (@make_codes_internal t s c' St Hc') as [P' _].
      now rewrite (@path_to_unique t ND c c' s P P').
  - intros P. split; [eapply path_to_bits; eauto|].
    intros ->. apply path_to_nil_sym in P. congruence.
Qed.

Lemma make_codes_is_path_witness :
  dict_get (make_codes
              (Some (mkNode None 2 (Some (new_Node (Some x61) 1))
                                   (Some (new_Node (Some x62) 1))))) x62
  = Some [ch1].
Proof.
  apply make_codes_is_path; [reflexivity| |].
  - repeat constructor; simpl; intuition discriminate.
  - apply path_right. apply path_leaf.
Defined.

(** X10: for every tree with an internal root that has a leaf for each
    byte of the data, encoding the data with the code table of the tree
    succeeds, and walking the tree along the resulting bit-string gives
    the data back. *)
Theorem encode_decode_roundtrip t data :
  sym t = None ->
  (forall b, In b data -> In b (leaves t)) ->
  exists bitstr,
    encode_bytes data (make_codes (Some t)) = Ok bitstr /\
    Forall is_bit bitstr /\
    decode (Some t) bitstr = Ok data.
Proof.
  intros St Hin.
  destruct (@encode_bytes_spec t data St Hin) as (bitstr & E & F & _ & _).
  exists bitstr. split; [exact E|]. split; [exact F|].
  clear F Hin. unfold encode_bytes in E.
  apply bind_ok in E. destruct E as (ps & E & H).
  cbv beta in H. injection H as <-.
  simpl. enough (G : forall out, decode_loop t t (concat ps) out = Ok (out ++ data))
    by apply (G []).
  revert ps E. induction data as [|b data IH]; intros ps E out;
    cbn [encode_pieces] in E.
  - injection E as <-. simpl. now rewrite app_nil_r.
  - destruct (dict_get (make_codes (Some t)) b) as [c|] eqn:Hc; [|discriminate].
    apply bind_ok in E. destruct E as (ps' & E & H). cbv beta in H.
    injection H as <-.
    destruct (@make_codes_internal t b c St Hc) as [Pc Nc].
    cbn [concat]. rewrite (@decode_path t t c b Pc Nc).
    rewrite (IH ps' E). now rewrite <- app_assoc.
Qed.

Lemma encode_decode_roundtrip_witness :
  exists bitstr,
    encode_bytes (repeat x61 3)
      (make_codes (Some (mkNode None 3 (Some (new_Node (Some x61) 3)) None)))
      = Ok bitstr /\
    Forall is_bit bitstr /\
    decode (Some (mkNode None 3 (Some (new_Node (Some x61) 3)) None)) bitstr
      = Ok (repeat x61 3).
Proof.
  apply encode_decode_roundtrip; [reflexivity|].
  intros b Hb. apply repeat_spec in Hb. subst. now left.
Defined.

Lemma encode_pieces_raise codes : forall data e,
  encode_pieces data codes = Raise e ->
  exists pre b post,
    data = pre ++ b :: post /\ e = KeyError b /\
    dict_get codes b = None /\
    forall x, In x pre -> dict_get codes x <> None.
Proof.
  induction data as [|b data IH]; intros e H; simpl in H; [discriminate|].
  destruct (dict_get codes b) as [c|] eqn:Hc.
  - apply bind_raise in H. destruct H as [H|(ps & _ & H)]; [|discriminate].
    destruct (IH _ H) as (pre & b' & post & -> & -> & N & A).
    exists (b :: pre), b', post. repeat split; auto.
    intros x [<-|Hx]; [congruence | now apply A].
  - injection H as <-. exists [], b, data. repeat split; auto.
Qed.

(** X11: [encode_bytes] fails exactly when some byte of the data has no
    code, and then with the [KeyError] of the first such byte; otherwise
    it returns the codes of the bytes joined in order. *)
Theorem encode_bytes_key_error data codes :
  ((exists e, encode_bytes data codes = Raise e)
   <-> exists b, In b data /\ dict_get codes b = None) /\
  (forall e, encode_bytes data codes = Raise e ->
     exists pre b post,
       data = pre ++ b :: post /\ e = KeyError b /\
       dict_get codes b = None /\
       forall x, In x pre -> dict_get codes x <> None) /\
  (forall bitstr, encode_bytes data codes = Ok bitstr ->
     exists ps, bitstr = concat ps /\
       Forall2 (fun b c => dict_get codes b = Some c) data ps).
Proof.
  assert (R : forall e, encode_bytes data codes = Raise e ->
     exists pre b post,
       data = pre ++ b :: post /\ e = KeyError b /\
       dict_get codes b = None /\
       forall x, In x pre -> dict_get codes x <> None).
  { intros e H. unfold encode_bytes in H.
    apply bind_raise in H. destruct H as [H|(ps & _ & H)]; [|discriminate].
    now apply encode_pieces_raise. }
  assert (O : forall bitstr, encode_bytes data codes = Ok bitstr ->
     exists ps, bitstr = concat ps /\
       Forall2 (fun b c => dict_get codes b = Some c) data ps).
  { clear R. intros bitstr H. unfold encode_bytes in H.
    apply bind_ok in H. destruct H as (ps & E & H). cbv beta in H. injection H as <-.
    exists ps. split; [reflexivity|].
    revert ps E. induction data as [|b data IH]; intros ps E; simpl in E.
    - injection E as <-. constructor.
    - destruct (dict_get codes b) as [c|] eqn:Hc; [|discriminate].
      apply bind_ok in E. destruct E as (ps' & E & H). cbv beta in H.
      injection H as <-. constructor; [exact Hc | now apply IH]. }
  split; [|split; [exact R | exact O]].
  split.
  - intros [e H]. destruct (R e H) as (pre & b & post & -> & _ & N & _).
    exists b. split; [|exact N]. apply in_or_app. right. now left.
  - intros (b & Hb & N).
    destruct (encode_bytes data codes) as [bitstr|e] eqn:E; [|eauto].
    exfalso. destruct (O bitstr eq_refl) as (ps & _ & F).
    clear -Hb N F. induction F as [|x c data ps Hx F IH]; [contradiction|].
    destruct Hb as [<-|Hb]; [congruence | auto].
Qed.

(* ================================================================= *)
(** ** More on the bit packer *)

(** [pad_bits] on any string, the empty one included. *)
Lemma pad_bits_any bits :
  exists pad,
    pad_bits bits = (bits ++ repeat ch0 pad, pad) /\
    pad < 8 /\
    (length bits + pad) mod 8 = 0.
Proof.
  destruct bits as [|c bits].
  - exists 0. simpl. repeat split; auto; lia.
  - apply pad_bits_spec. discriminate.
Qed.

(** X12: [pad_bits] appends fewer than eight '0' characters, just
    enough to reach a whole number of bytes, and reports how many; a
    string that is already whole, the empty one included, is left as it
    is with pad count 0. *)
Theorem pad_bits_whole_bytes bits :
  exists pad,
    pad_bits bits = (bits ++ repeat ch0 pad, pad) /\
    pad < 8 /\
    (length bits + pad) mod 8 = 0 /\
    (pad = 0 <-> length bits mod 8 = 0).
Proof.
  destruct bits as [|c bits].
  - exists 0. simpl. repeat split; auto; lia.
  - destruct (@pad_bits_spec (c :: bits)) as (pad & P & L & M);
      [discriminate|].
    exists pad. split; [exact P|]. split; [exact L|]. split; [exact M|].
    split.
    + intros ->. now rewrite Nat.add_0_r in M.
    + intros Z0.
      pose proof (Nat.div_mod_eq (length (c :: bits)) 8) as D1.
      pose proof (Nat.div_mod_eq (length (c :: bits) + pad) 8) as D2.
      rewrite Z0 in D1. rewrite M in D2. lia.
Qed.

Lemma format_08b_bits x : Forall is_bit (format_08b x) /\ length (format_08b x) = 8.
Proof.
  unfold format_08b. split; [|reflexivity].
  apply Forall_forall. intros c Hc. apply in_map_iff in Hc.
  destruct Hc as (i & <- & _). destruct (Z.testbit _ _); [now right | now left].
Qed.

Lemma bytes_to_bits_bits bs :
  Forall is_bit (bytes_to_bits bs) /\ length (bytes_to_bits bs) = 8 * length bs.
Proof.
  unfold bytes_to_bits. induction bs as [|b bs [F L]]; cbn [map concat].
  - split; [constructor | reflexivity].
  - destruct (format_08b_bits b) as [Fb Lb]. split.
    + apply Forall_app. auto.
    + rewrite length_app, Lb, L. cbn [length]. lia.
Qed.

Lemma format_08b_read x :
  (v <- int_base2 (format_08b x) ;; bytearray_item v) = Ok x.
Proof. destruct x; reflexivity. Qed.

Lemma bytes_to_bits_injective : forall bs bs',
  bytes_to_bits bs = bytes_to_bits bs' -> bs = bs'.
Proof.
  unfold bytes_to_bits.
  induction bs as [|b bs IH]; intros [|b' bs'] H; cbn [map concat] in H.
  - reflexivity.
  - apply (f_equal (@length _)) in H. rewrite length_app in H.
    destruct (format_08b_bits b') as [_ L]. rewrite L in H. simpl in H. lia.
  - apply (f_equal (@length _)) in H. rewrite length_app in H.
    destruct (format_08b_bits b) as [_ L]. rewrite L in H. simpl in H. lia.
  - assert (E : format_08b b = format_08b b').
    { apply (f_equal (firstn 8)) in H.
      rewrite !firstn_app_exact in H
        by (symmetry; apply format_08b_bits). exact H. }
    pose proof (format_08b_read b) as R. rewrite E, format_08b_read in R.
    injection R as <-. f_equal. apply IH.
    now apply app_inv_head in H.
Qed.

(** X13: printing bytes as bits and packing the bits again gives the
    bytes back; the printed string has eight binary digits per byte. *)
Theorem bits_of_bytes_roundtrip bs :
  bits_to_bytes (bytes_to_bits bs) = Ok bs /\
  length (bytes_to_bits bs) = 8 * length bs /\
  Forall is_bit (bytes_to_bits bs).
Proof.
  destruct (bytes_to_bits_bits bs) as [F L].
  destruct (@bits_to_bytes_roundtrip (bytes_to_bits bs) F) as (bs' & H & E & _).
  { rewrite L, Nat.mul_comm. apply Nat.Div0.mod_mul. }
  apply bytes_to_bits_injective in E. subst bs'. auto.
Qed.

(** X14: a string of binary digits whose length is a multiple of eight
    is packed into one byte per eight digits, and printing these bytes
    gives the string back. *)
Theorem bytes_of_bits_roundtrip bits :
  Forall is_bit bits -> length bits mod 8 = 0 ->
  exists bs,
    bits_to_bytes bits = Ok bs /\
    bytes_to_bits bs = bits /\
    8 * length bs = length bits.
Proof. apply bits_to_bytes_roundtrip. Qed.

Lemma bytes_of_bits_roundtrip_witness :
  exists bs,
    bits_to_bytes (repeat ch1 8 ++ repeat ch0 8) = Ok bs /\
    bytes_to_bits bs = repeat ch1 8 ++ repeat ch0 8 /\
    8 * length bs = length (repeat ch1 8 ++ repeat ch0 8).
Proof.
  apply bytes_of_bits_roundtrip; [|reflexivity].
  apply Forall_app. split; apply Forall_forall; intros c Hc;
    apply repeat_spec in Hc; subst; [now right | now left].
Defined.

(** X15: the bit packer and its reverse: padding a string of binary
    digits, packing it, printing the bytes and cutting the pad count off
    the end gives the string back, and the pad count never exceeds the
    printed length. *)
Theorem pad_pack_unpad bits :
  Forall is_bit bits ->
  exists pad bs,
    pad_bits bits = (bits ++ repeat ch0 pad, pad) /\
    bits_to_bytes (bits ++ repeat ch0 pad) = Ok bs /\
    pad <= length (bytes_to_bits bs) /\
    firstn (length (bytes_to_bits bs) - pad) (bytes_to_bits bs) = bits /\
    length bs = (length bits + 7) / 8.
Proof.
  intros F.
  destruct (pad_bits_any bits) as (pad & P & L & M).
  destruct (@bits_to_bytes_roundtrip (bits ++ repeat ch0 pad))
    as (bs & B & R & Lb).
  { apply Forall_app. split; [exact F|].
    apply Forall_forall. intros c Hc. apply repeat_spec in Hc. now left. }
  { now rewrite length_app, repeat_length. }
  exists pad, bs. split; [exact P|]. split; [exact B|].
  rewrite R, length_app, repeat_length. split; [lia|]. split.
  - apply firstn_app_exact. lia.
  - rewrite length_app, repeat_length in Lb.
    pose proof (Nat.div_mod_eq (length bits + pad) 8) as D. rewrite M in D.
    apply Nat.div_unique with (r := 7 - pad); lia.
Qed.

Lemma pad_pack_unpad_witness :
  exists pad bs,
    pad_bits (repeat ch1 3) = (repeat ch1 3 ++ repeat ch0 pad, pad) /\
    bits_to_bytes (repeat ch1 3 ++ repeat ch0 pad) = Ok bs /\
    pad <= length (bytes_to_bits bs) /\
    firstn (length (bytes_to_bits bs) - pad) (bytes_to_bits bs)
      = repeat ch1 3 /\
    length bs = (length (repeat ch1 3) + 7) / 8.
Proof.
  apply pad_pack_unpad.
  apply Forall_forall; intros c Hc; apply repeat_spec in Hc; subst; now right.
Defined.

(** The decoding walk emits at most one byte per bit, so what it
    returns is never longer than the bit-string. *)
Lemma decode_loop_length root : forall bitstr node out res,
  decode_loop root node bitstr out = Ok res ->
  length res <= length out + length bitstr.
Proof.
  induction bitstr as [|bit bitstr IH]; intros node out res H; simpl in H.
  - injection H as <-. lia.
  - destruct (if Ascii.eqb bit ch0 then left node else right node) as [n'|];
      [|discriminate].
    destruct (sym n').
    + apply IH in H. rewrite length_app in H. simpl in *. lia.
    + apply IH in H. simpl. lia.
Qed.

(* ================================================================= *)
(** ** More on the compressor *)

(** Every course [compress_file] can take, with the two [struct.pack]
    calls resolved: they never fail on what the pipeline produces. *)
Lemma compress_file_outcome fs src dst :
  match fs src with
  | None => compress_file fs src dst = (fs, Raise (FileNotFoundError src))
  | Some raw =>
      if startswith raw MAGIC || is_huff_name src then
        compress_file fs src dst =
        (fs, Ok (None,
                 mk_compress_stats src dst (len raw) (len raw) 0 None None
                   None true (Some note_already_huff)))
      else if is_compressed_type src then
        compress_file fs src dst =
        (fs, Ok (None,
                 mk_compress_stats src dst (len raw) (len raw) 0 None
                   (Some 1%Q) (Some 0%Q) true (Some note_file_type)))
      else
        match huffman_encode raw with
        | Raise e => compress_file fs src dst = (fs, Raise e)
        | Ok (root, freq, pad, tree_blob, compressed) =>
            exists b0 b1 b2 b3 pb,
              unpack_u32_be [b0; b1; b2; b3] = Ok (len tree_blob) /\
              byte_val pb = Z.of_nat pad /\
              let container :=
                assemble [b0; b1; b2; b3] tree_blob [pb] compressed in
              let fs1 := write_file fs dst container in
              len container = container_size tree_blob compressed /\
              if (container_size tree_blob compressed >=? len raw)%Z then
                if String.eqb src dst then
                  compress_file fs src dst = (fs1, Raise SameFileError)
                else
                  compress_file fs src dst =
                  (write_file fs1 dst raw,
                   Ok (None, stats_not_smaller src dst raw freq pad))
              else
                compress_file fs src dst =
                (fs1, Ok (root,
                          stats_normal src dst raw freq pad
                            (container_size tree_blob compressed)))
        end
  end.
Proof.
  unfold compress_file, read_file_bytes.
  destruct (fs src) as [raw|] eqn:Hfs; [|reflexivity].
  destruct (startswith raw MAGIC || is_huff_name src); [reflexivity|].
  destruct (is_compressed_type src); [reflexivity|].
  destruct (huffman_encode raw) as [[[[[root freq] pad] tree_blob] compressed]|e]
    eqn:He; [|reflexivity].
  destruct (huffman_encode_sizes _ He) as (L & P & _).
  destruct (pack_fields tree_blob L P)
    as (b0 & b1 & b2 & b3 & pb & P1 & U1 & P2 & U2).
  exists b0, b1, b2, b3, pb. split; [exact U1|]. split; [exact U2|].
  cbv zeta. split.
  { unfold assemble, container_size, len. rewrite !length_app.
    simpl length. lia. }
  rewrite P1, P2. unfold assemble.
  destruct (container_size tree_blob compressed >=? len raw)%Z.
  - unfold shutil_copy. destruct (String.eqb src dst) eqn:E; [reflexivity|].
    apply String.eqb_neq in E.
    rewrite write_file_other by assumption. rewrite Hfs. reflexivity.
  - unfold stats_normal. destruct (len raw >? 0)%Z; reflexivity.
Qed.

(** X16: whatever [compress_file] does, also when it raises, every
    file other than the destination is left as it was. *)
Theorem compress_file_touches_only_dst fs src dst p :
  p <> dst -> fst (compress_file fs src dst) p = fs p.
Proof.
  intros Hp. pose proof (compress_file_outcome fs src dst) as O.
  destruct (fs src) as [raw|]; [|now rewrite O].
  destruct (startswith raw MAGIC || is_huff_name src); [now rewrite O|].
  destruct (is_compressed_type src); [now rewrite O|].
  destruct (huffman_encode raw) as [[[[[root freq] pad] tree_blob] compressed]|e];
    [|now rewrite O].
  destruct O as (b0 & b1 & b2 & b3 & pb & _ & _ & O). cbv zeta in O.
  destruct O as [_ O].
  destruct (container_size tree_blob compressed >=? len raw)%Z.
  - destruct (String.eqb src dst); rewrite O; cbn [fst];
      now rewrite !write_file_other.
  - rewrite O. cbn [fst]. now rewrite write_file_other.
Qed.

Lemma compress_file_touches_only_dst_witness :
  fst (compress_file (write_file (fun _ => None) "in.txt" sample_text)
         "in.txt" "out.huff") "in.txt"%string
  = Some sample_text.
Proof.
  rewrite (@compress_file_touches_only_dst
             (write_file (fun _ => None) "in.txt" sample_text)
             "in.txt" "out.huff" "in.txt"); [reflexivity | discriminate].
Defined.

Lemma lstrip_keeps suf pre :
  stable_suffix suf = true ->
  exists pre', lstrip (pre ++ suf) = pre' ++ suf.
Proof.
  intros S. induction pre as [|c pre IH].
  - exists []. destruct suf as [|a suf]; [discriminate|].
    simpl in *. apply andb_true_iff in S. destruct S as [S _].
    apply andb_true_iff in S. destruct S as [S _].
    apply negb_true_iff in S. now rewrite S.
  - simpl. destruct (is_space c); [exact IH|].
    exists (c :: pre). reflexivity.
Qed.

(** A suffix that is stable under [strip] and [lower] survives the
    cleaning of the name. *)
Lemma clean_path_keeps_suffix src suf :
  stable_suffix suf = true ->
  endswith (chars src) suf = true ->
  endswith (clean_path src) suf = true.
Proof.
  intros S H. apply endswith_app in H. destruct H as [pre E].
  unfold clean_path, strip. rewrite E.
  destruct (@lstrip_keeps suf pre S) as [pre' ->].
  assert (L : lstrip (rev (pre' ++ suf)) = rev (pre' ++ suf)).
  { destruct suf as [|a suf]; [discriminate|].
    destruct (exists_last (l := a :: suf)) as (ini & z & Ez); [discriminate|].
    unfold stable_suffix in S. rewrite Ez in S at 1.
    rewrite last_last in S.
    apply andb_true_iff in S. destruct S as [S _].
    apply andb_true_iff in S. destruct S as [_ S].
    apply negb_true_iff in S.
    rewrite Ez, app_assoc, rev_app_distr. simpl. now rewrite S. }
  rewrite L, rev_involutive. unfold lower. rewrite map_app.
  assert (Es : map lower_char suf = suf).
  { destruct suf as [|a suf]; [discriminate|].
    unfold stable_suffix in S. apply andb_true_iff in S. destruct S as [_ S].
    now apply ascii_list_eqb_eq in S. }
  rewrite Es. apply endswith_app. eexists. reflexivity.
Qed.

Lemma listed_extensions_stable :
  Forall (fun ext => stable_suffix (chars ext) = true) already_compressed_exts.
Proof. repeat constructor. Qed.

(** X17: a readable source that does not begin with the magic marker,
    whose name does not end with ".huff" but ends with one of the listed
    extensions of compressed formats, is skipped: no file is written,
    and the statistics give the original size as compressed size, ratio
    1.0, percent saved 0.0, the skipped flag and the note. *)
Theorem compressed_type_is_skipped fs src dst raw :
  fs src = Some raw ->
  startswith raw MAGIC = false -> is_huff_name src = false ->
  has_listed_extension src ->
  exists stats,
    compress_file fs src dst = (fs, Ok (None, stats)) /\
    skipped stats = true /\
    original_bytes stats = len raw /\ compressed_bytes stats = len raw /\
    compression_ratio stats = Some 1%Q /\
    space_saved_percent stats = Some 0%Q /\
    note stats = Some note_file_type.
Proof.
  intros Hfs Hm Hh (ext & Hin & He).
  assert (C : is_compressed_type src = true).
  { unfold is_compressed_type. apply existsb_exists. exists ext.
    split; [exact Hin|]. apply clean_path_keeps_suffix; [|exact He].
    pose proof listed_extensions_stable as F.
    rewrite Forall_forall in F. now apply F. }
  pose proof (compress_file_outcome fs src dst) as O.
  rewrite Hfs, Hm, Hh, C in O. cbn [orb] in O.
  eexists. split; [exact O|]. repeat split.
Qed.

Lemma compressed_type_is_skipped_witness :
  exists stats,
    compress_file (write_file (fun _ => None) "photo.jpg" sample_text)
      "photo.jpg" "photo.jpg.huff"
    = (write_file (fun _ => None) "photo.jpg" sample_text, Ok (None, stats)) /\
    skipped stats = true /\
    original_bytes stats = len sample_text /\
    compressed_bytes stats = len sample_text /\
    compression_ratio stats = Some 1%Q /\
    space_saved_percent stats = Some 0%Q /\
    note stats = Some note_file_type.
Proof.
  apply (@compressed_type_is_skipped
           (write_file (fun _ => None) "photo.jpg" sample_text)
           "photo.jpg" "photo.jpg.huff" sample_text);
    [reflexivity | reflexivity | reflexivity |].
  exists ".jpg"%string. split; [|reflexivity].
  simpl. tauto.
Defined.

Lemma startswith_assemble lf tb pf comp :
  startswith (assemble lf tb pf comp) MAGIC = true.
Proof. unfold startswith, assemble. simpl. apply bytes_eqb_refl. Qed.

(** A result that is not flagged as skipped has left a container at
    the destination. *)
Lemma compress_file_leaves_container fs src dst fs' root stats :
  compress_file fs src dst = (fs', Ok (root, stats)) ->
  skipped stats = false ->
  exists container,
    fs' dst = Some container /\ startswith container MAGIC = true.
Proof.
  intros H Sk. pose proof (compress_file_outcome fs src dst) as O.
  destruct (fs src) as [raw|]; [|rewrite O in H; discriminate].
  destruct (startswith raw MAGIC || is_huff_name src).
  { rewrite O in H. injection H as <- <- <-. discriminate. }
  destruct (is_compressed_type src).
  { rewrite O in H. injection H as <- <- <-. discriminate. }
  destruct (huffman_encode raw) as [[[[[r freq] pad] tree_blob] compressed]|e];
    [|rewrite O in H; discriminate].
  destruct O as (b0 & b1 & b2 & b3 & pb & _ & _ & O). cbv zeta in O.
  destruct O as [_ O].
  destruct (container_size tree_blob compressed >=? len raw)%Z.
  - destruct (String.eqb src dst); rewrite O in H; [discriminate|].
    injection H as <- <- <-. discriminate.
  - rewrite O in H. injection H as <- <- <-.
    exists (assemble [b0; b1; b2; b3] tree_blob [pb] compressed).
    split; [apply write_file_same | apply startswith_assemble].
Qed.

(** X18: what a returned result says about the files.  The reported
    original size is the size of the source and the reported compressed
    size never exceeds it; a tree is returned exactly when the result is
    not flagged as skipped, and then the destination holds a container
    that begins with the magic marker, has exactly the reported
    compressed size, and is strictly smaller than the source. *)
Theorem compress_file_report fs src dst raw fs' root stats :
  fs src = Some raw ->
  compress_file fs src dst = (fs', Ok (root, stats)) ->
  original_bytes stats = len raw /\
  (compressed_bytes stats <= original_bytes stats)%Z /\
  (skipped stats = false <-> root <> None) /\
  (skipped stats = false ->
   exists container,
     fs' dst = Some container /\
     startswith container MAGIC = true /\
     len container = compressed_bytes stats /\
     (compressed_bytes stats < original_bytes stats)%Z).
Proof.
  intros Hfs H. pose proof (compress_file_outcome fs src dst) as O.
  rewrite Hfs in O.
  destruct (startswith raw MAGIC || is_huff_name src).
  { rewrite O in H. injection H as <- <- <-. cbn.
    repeat split; try lia; try congruence; discriminate. }
  destruct (is_compressed_type src).
  { rewrite O in H. injection H as <- <- <-. cbn.
    repeat split; try lia; try congruence; discriminate. }
  pose proof (huffman_encode_spec raw) as S.
  destruct (huffman_encode raw) as [[[[[r freq] pad] tree_blob] compressed]|e]
    eqn:He; [|rewrite O in H; discriminate].
  destruct O as (b0 & b1 & b2 & b3 & pb & _ & _ & O). cbv zeta in O.
  destruct O as [Lc O].
  destruct (Z.geb_spec (container_size tree_blob compressed) (len raw)) as [G|G].
  - destruct (String.eqb src dst); rewrite O in H; [discriminate|].
    injection H as <- <- <-. cbn.
    repeat split; try lia; try congruence; discriminate.
  - rewrite O in H. injection H as <- <- <-. cbn.
    assert (Hr : r <> None).
    { destruct (build_freq_map raw) as [|[s f] [|e2 fm]].
      - destruct S as [E0 S]. inversion S; subst.
        unfold container_size, len in G. simpl in G. lia.
      - discriminate.
      - destruct S as (t & ? & ? & ? & ? & S & _).
        inversion S; subst. discriminate. }
    split; [reflexivity|]. split; [lia|]. split; [tauto|].
    intros _. exists (assemble [b0; b1; b2; b3] tree_blob [pb] compressed).
    split; [apply write_file_same|].
    split; [apply startswith_assemble|]. split; [exact Lc | lia].
Qed.

Lemma compress_file_report_witness :
  exists container,
    fst (compress_file (write_file (fun _ => None) "in.txt" sample_text)
           "in.txt" "out.huff") "out.huff"%string = Some container /\
    startswith container MAGIC = true /\
    len container = 20%Z.
Proof.
  destruct (compress_file (write_file (fun _ => None) "in.txt" sample_text)
              "in.txt" "out.huff") as [fs' [[root stats]|e]] eqn:E;
    [|vm_compute in E; discriminate].
  destruct (@compress_file_report
              (write_file (fun _ => None) "in.txt" sample_text)
              "in.txt" "out.huff" sample_text fs' root stats eq_refl E)
    as (_ & _ & _ & R).
  assert (Sk : skipped stats = false).
  { vm_compute in E. injection E as _ _ <-. reflexivity. }
  destruct (R Sk) as (c & H1 & H2 & H3).
  exists c. cbn [fst]. split; [exact H1|]. split; [exact H2|].
  destruct H3 as [H3 _]. rewrite H3.
  vm_compute in E. injection E as _ _ <-. reflexivity.
Defined.

(** X19: compressing what a completed compression wrote is skipped:
    after a result that is not flagged as skipped, [compress_file] on
    the destination returns the skipped flag and the note, and writes
    nothing. *)
Theorem compress_output_is_skipped fs src dst dst2 raw fs' root stats :
  fs src = Some raw ->
  compress_file fs src dst = (fs', Ok (root, stats)) ->
  skipped stats = false ->
  exists stats2,
    compress_file fs' dst dst2 = (fs', Ok (None, stats2)) /\
    skipped stats2 = true /\
    note stats2 = Some note_already_huff.
Proof.
  intros Hfs H Sk.
  destruct (compress_file_leaves_container _ _ _ H Sk) as (c & Hc & Hm).
  pose proof (compress_file_outcome fs' dst dst2) as O.
  rewrite Hc, Hm in O. cbn [orb] in O.
  eexists. split; [exact O|]. split; reflexivity.
Qed.

Lemma compress_output_is_skipped_witness :
  exists stats2,
    compress_file
      (fst (compress_file (write_file (fun _ => None) "in.txt" sample_text)
              "in.txt" "out.huff"))
      "out.huff" "out2.huff"
    = (fst (compress_file (write_file (fun _ => None) "in.txt" sample_text)
              "in.txt" "out.huff"), Ok (None, stats2)) /\
    skipped stats2 = true /\
    note stats2 = Some note_already_huff.
Proof.
  destruct (compress_file (write_file (fun _ => None) "in.txt" sample_text)
              "in.txt" "out.huff") as [fs' [[root stats]|e]] eqn:E;
    [|vm_compute in E; discriminate].
  cbn [fst].
  apply (@compress_output_is_skipped
           (write_file (fun _ => None) "in.txt" sample_text)
           "in.txt" "out.huff" "out2.huff" sample_text fs' root stats
           eq_refl E).
  vm_compute in E. injection E as _ _ <-. reflexivity.
Defined.

(** X20: the failures of the compressor's own steps.  [compress_file]
    raises [AttributeError] only for a source on the normal path that
    consists of one repeated byte value, and then nothing has been
    written; it raises [SameFileError] only when source and destination
    are the same path and the container is not smaller than the source;
    and it never raises the [KeyError] of [encode_bytes], the
    [struct.error] of [pack], the [ValueError] of [int(byte, 2)] or of
    [bytearray.append], or the [IndexError] of [heappop].  What [open]
    may raise is left open. *)
Theorem compress_file_errors fs src dst fs' e :
  compress_file fs src dst = (fs', Raise e) ->
  match e with
  | AttributeError =>
      fs' = fs /\
      exists raw b n,
        fs src = Some raw /\ takes_normal_path src raw = true /\
        raw = repeat b (S n)
  | SameFileError =>
      src = dst /\
      exists raw root freq pad tree_blob compressed,
        fs src = Some raw /\ takes_normal_path src raw = true /\
        huffman_encode raw = Ok (root, freq, pad, tree_blob, compressed) /\
        (container_size tree_blob compressed >= len raw)%Z
  | FileNotFoundError _ => True
  | ValueError _ | KeyError _ | IndexError | StructError | FuelExhausted =>
      False
  end.
Proof.
  intros H. pose proof (compress_file_outcome fs src dst) as O.
  destruct (fs src) as [raw|] eqn:Hfs.
  2:{ rewrite O in H. injection H as <- <-. exact I. }
  assert (N : startswith raw MAGIC || is_huff_name src = false ->
              is_compressed_type src = false ->
              takes_normal_path src raw = true).
  { intros N1 N2. unfold takes_normal_path. now rewrite N1, N2. }
  destruct (startswith raw MAGIC || is_huff_name src);
    [rewrite O in H; discriminate|].
  destruct (is_compressed_type src); [rewrite O in H; discriminate|].
  specialize (N eq_refl eq_refl).
  pose proof (huffman_encode_spec raw) as S.
  destruct (build_freq_map_keys raw) as [_ K].
  destruct (huffman_encode raw) as [[[[[r freq] pad] tree_blob] compressed]|e']
    eqn:He.
  - destruct O as (b0 & b1 & b2 & b3 & pb & _ & _ & O). cbv zeta in O.
    destruct O as [_ O].
    destruct (Z.geb_spec (container_size tree_blob compressed) (len raw))
      as [G|G]; [|rewrite O in H; discriminate].
    destruct (String.eqb src dst) eqn:E; rewrite O in H; [|discriminate].
    injection H as _ <-. split; [now apply String.eqb_eq|].
    exists raw, r, freq, pad, tree_blob, compressed.
    repeat split; auto. lia.
  - rewrite O in H. injection H as <- <-.
    destruct (build_freq_map raw) as [|[s f] [|e2 fm]] eqn:Efm.
    + destruct S as [_ S]. discriminate.
    + injection S as ->. split; [reflexivity|].
      exists raw, s.
      assert (A : forall x, In x raw -> x = s).
      { intros x Hx. apply K in Hx. destruct Hx as [<-|[]]. reflexivity. }
      destruct raw as [|x raw]; [discriminate|].
      exists (length raw). split; [reflexivity|]. split; [exact N|].
      clear -A. change (S (length raw)) with (length (x :: raw)).
      induction (x :: raw) as [|y l IH]; [reflexivity|].
      simpl. rewrite (A y (or_introl eq_refl)). f_equal.
      apply IH. intros z Hz. apply A. now right.
    + destruct S as (t & ? & ? & ? & ? & S & _). discriminate.
Qed.

Lemma compress_file_errors_witness :
  write_file (fun _ => None) "in.txt" (repeat x61 40)
  = write_file (fun _ => None) "in.txt" (repeat x61 40) /\
  exists raw b n,
    write_file (fun _ => None) "in.txt" (repeat x61 40) "in.txt"%string
    = Some raw /\
    takes_normal_path "in.txt" raw = true /\
    raw = repeat b (S n).
Proof.
  apply (@compress_file_errors
           (write_file (fun _ => None) "in.txt" (repeat x61 40))
           "in.txt" "out.huff"
           (write_file (fun _ => None) "in.txt" (repeat x61 40))
           AttributeError).
  reflexivity.
Defined.

(* ================================================================= *)
(** ** More on the decompressor *)

Lemma parse_container_raise raw e :
  parse_container raw = Raise e -> is_header_error e.
Proof.
  intros H. pose proof (parse_container_cases raw) as C. cbv zeta in C.
  destruct (len raw <? 9)%Z; [left; congruence|].
  destruct (negb _); [right; left; congruence|].
  destruct (_ >? _)%Z; [right; right; congruence|].
  destruct C as (pb & _ & C). congruence.
Qed.

Lemma parse_container_ok raw tree_len tree_blob pad comp :
  parse_container raw = Ok (tree_len, tree_blob, pad, comp) ->
  (0 <= pad < 256)%Z /\ (0 <= tree_len)%Z /\
  len tree_blob = tree_len /\
  (len raw = 9 + tree_len + len comp)%Z /\
  raw = firstn 8 raw ++ tree_blob ++ firstn 1 (skipn (8 + Z.to_nat tree_len) raw) ++ comp.
Proof.
  intros H. pose proof (parse_container_cases raw) as C. cbv zeta in C.
  destruct (Z.ltb_spec (len raw) 9) as [L1|L1]; [congruence|].
  destruct (negb _); [congruence|].
  destruct (declared_tree_len raw + 9 >? len raw)%Z eqn:E3; [congruence|].
  rewrite Z.gtb_ltb in E3. apply Z.ltb_ge in E3.
  destruct C as (pb & Hpb & C).
  set (n := Z.to_nat (declared_tree_len raw)) in *.
  assert (Q : tree_len = declared_tree_len raw /\
              tree_blob = slice raw 8 (8 + n) /\
              pad = byte_val pb /\ comp = skipn (9 + n) raw).
  { rewrite C in H. inversion H. auto. }
  clear H C. destruct Q as (-> & -> & -> & ->).
  assert (Hn : (0 <= declared_tree_len raw)%Z).
  { destruct (firstn4_skipn4 raw L1) as (b0 & b1 & b2 & b3 & E4).
    unfold declared_tree_len, slice. cbn [Nat.sub]. rewrite E4, be_value_4.
    pose proof (byte_val_range b0). pose proof (byte_val_range b1).
    pose proof (byte_val_range b2). pose proof (byte_val_range b3). lia. }
  assert (En : Z.of_nat n = declared_tree_len raw) by (unfold n; lia).
  clearbody n.
  assert (Ln : 9 + n <= length raw) by (unfold len in *; lia).
  split; [apply byte_val_range|]. split; [exact Hn|].
  replace (Z.to_nat (declared_tree_len raw)) with n by lia.
  unfold slice, len in *. replace (8 + n - 8) with n by lia.
  rewrite length_firstn, !length_skipn.
  split; [lia|]. split; [lia|].
  rewrite <- (firstn_skipn 8 raw) at 1. f_equal.
  rewrite <- (firstn_skipn n (skipn 8 raw)) at 1. f_equal.
  replace (skipn n (skipn 8 raw)) with (skipn (8 + n) raw)
    by (rewrite skipn_skipn; f_equal; lia).
  replace (skipn (9 + n) raw) with (skipn 1 (skipn (8 + n) raw))
    by (rewrite skipn_skipn; f_equal; lia).
  symmetry. apply firstn_skipn.
Qed.

Lemma deserialize_tree_error blob e :
  deserialize blob = Raise e -> is_tree_error e.
Proof.
  destruct blob as [|b0 blob]; [discriminate|].
  rewrite deserialize_cases by discriminate.
  pose proof (deserialize_dfs_outcome (b0 :: blob)
                (S (length (b0 :: blob))) 0) as O.
  destruct (deserialize_dfs _ _ 0) as [[t j]|e'].
  - destruct (j =? _); [discriminate|]. intros H. injection H as <-.
    right. right. now right.
  - intros H. injection H as <-.
    destruct e' as [v| | | | | | |]; simpl in O; try contradiction.
    + destruct v; simpl in O; try contradiction.
      * now left.
      * right. now left.
      * right. right. left. eauto.
    + simpl in O. lia.
Qed.

Lemma bits_of_payload_length comp :
  len (match comp with [] => [] | _ :: _ => bytes_to_bits comp end)
  = (8 * len comp)%Z.
Proof.
  unfold len. destruct comp as [|c comp]; [reflexivity|].
  rewrite (proj2 (bytes_to_bits_bits (c :: comp))). lia.
Qed.

(** The ways the steps after the header checks can fail. *)
Lemma unpack_payload_errors tree_len tree_blob pad comp e :
  unpack_payload tree_len tree_blob pad comp = Raise e ->
  (e = ValueError PaddingTooBig /\ (8 * len comp < pad)%Z) \/
  ((pad <= 8 * len comp \/ pad <= 0)%Z /\
   (is_tree_error e \/ e = ValueError CorruptBitstream)).
Proof.
  unfold unpack_payload. intros H.
  pose proof (bits_of_payload_length comp) as Lb.
  set (bits := match comp with [] => [] | _ :: _ => bytes_to_bits comp end) in *.
  assert (Hl : (0 <= len comp)%Z) by (unfold len; lia).
  destruct (Z.gtb_spec pad 0) as [P0|P0].
  - destruct (Z.gtb_spec pad (len bits)) as [P1|P1].
    + cbn [bind] in H. injection H as <-. left. split; [reflexivity|lia].
    + cbn [bind] in H. right. split; [lia|].
      apply bind_raise in H. destruct H as [H|(root & _ & H)].
      * destruct (tree_len >? 0)%Z; [|discriminate].
        left. now apply deserialize_tree_error in H.
      * destruct root as [r|]; simpl in H; [|discriminate].
        apply decode_loop_raise in H. now right.
  - cbn [bind] in H. right. split; [lia|].
    apply bind_raise in H. destruct H as [H|(root & _ & H)].
    * destruct (tree_len >? 0)%Z; [|discriminate].
      left. now apply deserialize_tree_error in H.
    * destruct root as [r|]; simpl in H; [|discriminate].
      apply decode_loop_raise in H. now right.
Qed.

Lemma unpack_payload_length tree_len tree_blob pad comp decoded :
  unpack_payload tree_len tree_blob pad comp = Ok decoded ->
  (len decoded <= 8 * len comp)%Z.
Proof.
  unfold unpack_payload. intros H.
  pose proof (bits_of_payload_length comp) as Lb.
  set (bits := match comp with [] => [] | _ :: _ => bytes_to_bits comp end) in *.
  apply bind_ok in H. destruct H as (bitstr & Hb & H).
  apply bind_ok in H. destruct H as (root & _ & H).
  assert (Lt : length bitstr <= length bits).
  { destruct (pad >? 0)%Z.
    - destruct (pad >? len bits)%Z; [discriminate|].
      injection Hb as <-. rewrite length_firstn. lia.
    - injection Hb as <-. lia. }
  assert (Ld : length decoded <= length bitstr).
  { destruct root as [r|]; simpl in H.
    - apply decode_loop_length in H. simpl in H. lia.
    - injection H as <-. simpl. lia. }
  unfold len in *. lia.
Qed.

(** X21: what a broken container makes [decompress_file] raise.  A
    [ValueError] of [main.py] that it raises is one of the three header
    errors, "padding bigger than stream", one of the four tree-blob
    errors or "corrupt bitstream", and it is raised before the
    destination is opened, so no file has been written; and on no file
    contents does it raise the [IndexError] of [raw[cursor]] or
    [blob[i]], the [struct.error] of [unpack], or the [AttributeError]
    of [node.left] on [None].  What [open] may raise is left open. *)
Theorem decompress_file_errors fs src dst fs' e :
  decompress_file fs src dst = (fs', Raise e) ->
  match e with
  | ValueError _ =>
      fs' = fs /\
      (is_header_error e \/ e = ValueError PaddingTooBig \/
       is_tree_error e \/ e = ValueError CorruptBitstream)
  | FileNotFoundError _ => True
  | AttributeError | KeyError _ | IndexError | SameFileError
  | StructError | FuelExhausted => False
  end.
Proof.
  unfold decompress_file, read_file_bytes. intros H.
  assert (G : fs src <> None -> fs' = fs /\
              (is_header_error e \/ e = ValueError PaddingTooBig \/
               is_tree_error e \/ e = ValueError CorruptBitstream)).
  { intros Hs. destruct (fs src) as [raw|]; [|contradiction].
    destruct (parse_container raw) as [[[[tl tb] pd] cb]|e'] eqn:Ep.
    2:{ injection H as <- <-. split; [reflexivity|]. left.
        eapply parse_container_raise; eauto. }
    destruct (unpack_payload tl tb pd cb) as [dec|e''] eqn:Eu;
      [discriminate|].
    injection H as <- <-. split; [reflexivity|].
    apply unpack_payload_errors in Eu.
    destruct Eu as [[-> _]|[_ [T| ->]]]; auto. }
  destruct (fs src) as [raw|].
  2:{ injection H as <- <-. exact I. }
  destruct G as [G1 G2]; [discriminate|].
  assert (V : exists v, e = ValueError v).
  { destruct G2 as [[G|[G|G]]|[G|[[G|[G|[(fl & ps & G)|G]]]|G]]];
      rewrite G; eauto. }
  destruct V as [v ->]. auto.
Qed.

Lemma decompress_file_errors_witness :
  write_file (fun _ => None) "c.huff" bad_tree_container
  = write_file (fun _ => None) "c.huff" bad_tree_container /\
  (is_header_error (ValueError (BadTreeFlag x02 0)) \/
   ValueError (BadTreeFlag x02 0) = ValueError PaddingTooBig \/
   is_tree_error (ValueError (BadTreeFlag x02 0)) \/
   ValueError (BadTreeFlag x02 0) = ValueError CorruptBitstream).
Proof.
  apply (@decompress_file_errors
           (write_file (fun _ => None) "c.huff" bad_tree_container)
           "c.huff" "back"
           (write_file (fun _ => None) "c.huff" bad_tree_container)
           (ValueError (BadTreeFlag x02 0))).
  reflexivity.
Defined.

(** X22: what a completed decompression says about the files: only the
    destination has changed, it holds as many bytes as the reported
    restored size, the reported compressed size is the size of the
    source, the pad count is the byte read from it, and the restored
    size is at most eight times the number of payload bytes. *)
Theorem decompress_file_report fs src dst fs' stats :
  decompress_file fs src dst = (fs', Ok stats) ->
  exists raw decoded,
    fs src = Some raw /\
    fs' = write_file fs dst decoded /\
    (forall p, p <> dst -> fs' p = fs p) /\
    compressed_size stats = len raw /\
    restored_size stats = len decoded /\
    (0 <= d_pad_count stats < 256)%Z /\
    (restored_size stats <= 8 * (compressed_size stats - 9))%Z.
Proof.
  unfold decompress_file, read_file_bytes. intros H.
  destruct (fs src) as [raw|]; [|discriminate].
  destruct (parse_container raw) as [[[[tl tb] pd] cb]|e'] eqn:Ep;
    [|discriminate].
  destruct (unpack_payload tl tb pd cb) as [dec|e''] eqn:Eu; [|discriminate].
  injection H as <- <-. exists raw, dec.
  cbn [compressed_size restored_size d_pad_count].
  destruct (parse_container_ok _ Ep) as (Hp & Ht & _ & Lr & _).
  apply unpack_payload_length in Eu.
  split; [reflexivity|]. split; [reflexivity|].
  split; [intros p Hp'; now apply write_file_other|].
  split; [reflexivity|]. split; [reflexivity|]. split; [exact Hp|]. lia.
Qed.

Lemma decompress_file_report_witness :
  exists raw decoded : bytes,
    write_file (fun _ => None) "e.huff"
      (MAGIC ++ [x00; x00; x00; x00; x00]) "e.huff"%string = Some raw /\
    write_file
      (write_file (fun _ => None) "e.huff"
         (MAGIC ++ [x00; x00; x00; x00; x00])) "back" []
    = write_file
        (write_file (fun _ => None) "e.huff"
           (MAGIC ++ [x00; x00; x00; x00; x00])) "back" decoded /\
    (forall p, p <> "back"%string ->
       write_file
         (write_file (fun _ => None) "e.huff"
            (MAGIC ++ [x00; x00; x00; x00; x00])) "back" [] p
       = write_file (fun _ => None) "e.huff"
           (MAGIC ++ [x00; x00; x00; x00; x00]) p) /\
    9%Z = len raw /\ 0%Z = len decoded /\
    (0 <= 0 < 256)%Z /\ (0 <= 8 * (9 - 9))%Z.
Proof.
  apply (@decompress_file_report
           (write_file (fun _ => None) "e.huff"
              (MAGIC ++ [x00; x00; x00; x00; x00]))
           "e.huff" "back"
           (write_file
              (write_file (fun _ => None) "e.huff"
                 (MAGIC ++ [x00; x00; x00; x00; x00])) "back" [])
           (mk_decompress_stats "e.huff" "back" 9 0 0)).
  reflexivity.
Defined.

(** X23: once the header is accepted, [decompress_file] raises
    "padding bigger than stream" exactly when the pad count exceeds the
    number of payload bits; any pad count up to that number, also one
    above 7, is accepted. *)
Theorem padding_too_big_exactly_when
    fs src dst raw tree_len tree_blob pad comp :
  fs src = Some raw ->
  parse_container raw = Ok (tree_len, tree_blob, pad, comp) ->
  (decompress_file fs src dst = (fs, Raise (ValueError PaddingTooBig))
   <-> (8 * len comp < pad)%Z).
Proof.
  intros Hfs Hp. unfold decompress_file, read_file_bytes.
  rewrite Hfs, Hp. split.
  - destruct (unpack_payload tree_len tree_blob pad comp) as [dec|e] eqn:Eu;
      [discriminate|].
    intros H. injection H as ->.
    apply unpack_payload_errors in Eu.
    destruct Eu as [[_ L]|[_ [T|T]]]; [exact L | | discriminate].
    destruct T as [T|[T|[(f & p & T)|T]]]; discriminate.
  - intros L. unfold unpack_payload.
    pose proof (bits_of_payload_length comp) as Lb.
    set (bits := match comp with [] => [] | _ :: _ => bytes_to_bits comp end) in *.
    assert (Hl : (0 <= len comp)%Z) by (unfold len; lia).
    replace (pad >? 0)%Z with true
      by (symmetry; rewrite Z.gtb_ltb; apply Z.ltb_lt; lia).
    replace (pad >? len bits)%Z with true
      by (symmetry; rewrite Z.gtb_ltb; apply Z.ltb_lt; lia).
    reflexivity.
Qed.

Lemma padding_too_big_exactly_when_witness :
  decompress_file
    (write_file (fun _ => None) "p.huff" (MAGIC ++ [x00; x00; x00; x00; x01]))
    "p.huff" "back"
  = (write_file (fun _ => None) "p.huff" (MAGIC ++ [x00; x00; x00; x00; x01]),
     Raise (ValueError PaddingTooBig)).
Proof.
  apply (@padding_too_big_exactly_when
           (write_file (fun _ => None) "p.huff"
              (MAGIC ++ [x00; x00; x00; x00; x01]))
           "p.huff" "back" (MAGIC ++ [x00; x00; x00; x00; x01])
           0%Z [] 1%Z []); reflexivity.
Defined.

(** X24: with a tree of the data model, as [deserialize] returns it,
    the decoding walk fails exactly when the root is a leaf and the
    bit-string is not empty, and then with "corrupt bitstream". *)
Theorem decode_fails_exactly_when t bitstr :
  well_formed t ->
  ((exists e, decode (Some t) bitstr = Raise e)
   <-> sym t <> None /\ bitstr <> []) /\
  (forall e, decode (Some t) bitstr = Raise e ->
             e = ValueError CorruptBitstream).
Proof.
  intros W. split.
  - split.
    + intros [e H]. destruct W as [s f|f l r Wl Wr].
      * split; [discriminate|]. intros ->. discriminate.
      * exfalso.
        assert (F : full (mkNode None f (Some l) (Some r))).
        { apply well_formed_full. now constructor. }
        destruct (@decode_loop_full _ F eq_refl bitstr _ [] F eq_refl)
          as [out Ho].
        simpl in H. simpl in Ho. congruence.
    + intros [Hs Hb]. destruct W as [s f|f l r Wl Wr]; [|simpl in Hs; congruence].
      destruct bitstr as [|bit bitstr]; [congruence|].
      simpl. destruct (Ascii.eqb bit ch0); eauto.
  - intros e H. simpl in H. eapply decode_loop_raise; eauto.
Qed.

Lemma decode_fails_exactly_when_witness :
  exists e, decode (Some (new_Node (Some x61) 0)) [ch0] = Raise e.
Proof.
  apply (@decode_fails_exactly_when (new_Node (Some x61) 0) [ch0]).
  - apply wf_leaf.
  - split; discriminate.
Defined.

(** X25: a container that declares an empty tree blob decodes to zero
    bytes whatever its payload holds, provided the pad count does not
    exceed the payload bits. *)
Theorem empty_tree_decodes_to_nothing fs src dst raw tree_blob pad comp :
  fs src = Some raw ->
  parse_container raw = Ok (0%Z, tree_blob, pad, comp) ->
  (pad <= 8 * len comp)%Z ->
  decompress_file fs src dst
  = (write_file fs dst [],
     Ok (mk_decompress_stats src dst (len raw) 0 pad)).
Proof.
  intros Hfs Hp L. unfold decompress_file, read_file_bytes.
  rewrite Hfs, Hp. unfold unpack_payload.
  pose proof (bits_of_payload_length comp) as Lb.
  set (bits := match comp with [] => [] | _ :: _ => bytes_to_bits comp end) in *.
  destruct (pad >? 0)%Z.
  - replace (pad >? len bits)%Z with false
      by (symmetry; rewrite Z.gtb_ltb; apply Z.ltb_ge; lia).
    reflexivity.
  - reflexivity.
Qed.

Lemma empty_tree_decodes_to_nothing_witness :
  decompress_file
    (write_file (fun _ => None) "e.huff"
       (MAGIC ++ [x00; x00; x00; x00; x03; xff]))
    "e.huff" "back"
  = (write_file
       (write_file (fun _ => None) "e.huff"
          (MAGIC ++ [x00; x00; x00; x00; x03; xff])) "back" [],
     Ok (mk_decompress_stats "e.huff" "back" 10 0 3)).
Proof.
  apply (@empty_tree_decodes_to_nothing
           (write_file (fun _ => None) "e.huff"
              (MAGIC ++ [x00; x00; x00; x00; x03; xff]))
           "e.huff" "back" (MAGIC ++ [x00; x00; x00; x00; x03; xff])
           [] 3%Z [xff]); [reflexivity | reflexivity | discriminate].
Defined.

(* ================================================================= *)
(** ** The Graphviz rendering stops at [max_depth] *)

Lemma prune_label k t : dot_label (prune k t) = dot_label t.
Proof. destruct t, k; reflexivity. Qed.

Lemma traverse_prune max_depth t : forall k depth dot,
  (max_depth - depth < Z.of_nat k)%Z ->
  traverse max_depth (prune k t) depth dot = traverse max_depth t depth dot.
Proof.
  induction t as [s f l r IHl IHr] using Node_ind; intros k depth dot H.
  destruct k as [|k].
  - simpl. destruct (Z.gtb_spec depth max_depth); [reflexivity | lia].
  - cbn [prune traverse].
    destruct (depth >? max_depth)%Z; [reflexivity|].
    assert (El : forall d,
      match l with
      | Some l' =>
          traverse max_depth (prune k l') (depth + 1)
            (d ++ dot_edge (prune (S k) (mkNode s f l r)) (prune k l'))%string
      | None => d
      end =
      match l with
      | Some l' =>
          traverse max_depth l' (depth + 1)
            (d ++ dot_edge (mkNode s f l r) l')%string
      | None => d
      end).
    { intros d. destruct l as [l'|]; [|reflexivity].
      unfold dot_edge. rewrite !prune_label.
      apply (IHl l' eq_refl). lia. }
    assert (Er : forall d,
      match r with
      | Some r' =>
          traverse max_depth (prune k r') (depth + 1)
            (d ++ dot_edge (prune (S k) (mkNode s f l r)) (prune k r'))%string
      | None => d
      end =
      match r with
      | Some r' =>
          traverse max_depth r' (depth + 1)
            (d ++ dot_edge (mkNode s f l r) r')%string
      | None => d
      end).
    { intros d. destruct r as [r'|]; [|reflexivity].
      unfold dot_edge. rewrite !prune_label.
      apply (IHr r' eq_refl). lia. }
    cbn [prune] in El, Er.
    destruct l as [l'|], r as [r'|]; cbn in *;
      try rewrite El; try rewrite Er; reflexivity.
Qed.

(** X26: [tree_to_dot] draws the edges of the first [max_depth + 1]
    levels only: cutting the tree below that depth does not change the
    output; with a negative [max_depth] that is the root alone, and no
    edge is drawn. *)
Theorem tree_to_dot_depth_limit t max_depth :
  tree_to_dot (Some (prune (Z.to_nat (max_depth + 1)) t)) max_depth
  = tree_to_dot (Some t) max_depth.
Proof.
  unfold tree_to_dot; cbv zeta. f_equal. apply traverse_prune. lia.
Qed.
